(** * Alien-Town generative agents: core data model and operations

    A shallow embedding of the simulation core (events, tiles and maze,
    schedule, associative memory, LLM retry loop, percept) together with
    the properties checked against it.

    Conventions of the embedding.
    - Python [str] is [string]; a Chinese literal is the UTF-8 byte string
      of the same characters, and [x in s] on strings is the substring
      test [str_in].
    - A Python [dict] with string keys is a [gmap string _].
    - A raised exception is [None] in an [option] result, or an explicit
      constructor of a result type where several outcomes must be told
      apart.
    - [while] loops whose termination is not evident carry a fuel argument
      that bounds the number of iterations of the loop. *)

From Stdlib Require Import ZArith List Bool Ascii String Lia.
From stdpp Require Import base option list strings gmap fin_maps pretty.

Set Warnings "-register-all".

Local Open Scope string_scope.
Local Open Scope Z_scope.
Local Open Scope list_scope.

(* ===================================================================== *)
(** ** Python primitives *)
(* ===================================================================== *)

Module Py.

(** [prefixb p s]: [s.startswith(p)]. *)
Fixpoint prefixb (p s : string) : bool :=
  match p, s with
  | EmptyString, _ => true
  | String a p', String b s' => if Ascii.eqb a b then prefixb p' s' else false
  | String _ _, EmptyString => false
  end.

(** [str_in needle hay]: the Python expression [needle in hay]. *)
Fixpoint str_in (needle hay : string) : bool :=
  prefixb needle hay ||
  match hay with
  | EmptyString => false
  | String _ hay' => str_in needle hay'
  end.

(** [sep.join(parts)]. *)
Fixpoint join (sep : string) (parts : list string) : string :=
  match parts with
  | [] => ""
  | [p] => p
  | p :: rest => p +:+ sep +:+ join sep rest
  end.

(** [s.split(sep)] for a one-character separator, accumulating the
    current field in [cur]. *)
Fixpoint split_go (sep : ascii) (cur : string) (s : string) : list string :=
  match s with
  | EmptyString => [cur]
  | String c s' =>
      if Ascii.eqb c sep then cur :: split_go sep "" s'
      else split_go sep (cur +:+ String c EmptyString) s'
  end.

Definition split (sep : ascii) (s : string) : list string := split_go sep "" s.

(** Truthiness of a string: the empty string is falsy. *)
Definition truthy_str (s : string) : bool :=
  match s with EmptyString => false | _ => true end.

(** [x or d] where [x] is an optional string argument ([None] is Python's
    [None]); both [None] and [""] are falsy. *)
Definition or_str (x : option string) (d : string) : string :=
  match x with
  | Some s => if truthy_str s then s else d
  | None => d
  end.

(** An omitted ([None]) or empty string argument is falsy. *)
Definition falsy (x : option string) : bool :=
  match x with
  | Some s => negb (truthy_str s)
  | None => true
  end.

(** [l[i]] on a Python list: an index in [-len, 0) counts from the end,
    an index outside [-len, len) raises [IndexError] ([None]). *)
Definition index {A} (l : list A) (i : Z) : option A :=
  let n := Z.of_nat (length l) in
  if (0 <=? i) && (i <? n) then l !! Z.to_nat i
  else if (- n <=? i) && (i <? 0) then l !! Z.to_nat (n + i)
  else None.

(** [l[:n]] for [n >= 0]. *)
Definition slice_to {A} (l : list A) (n : Z) : list A := take (Z.to_nat n) l.

(** [l[n:]] for [n >= 0]. *)
Definition slice_from {A} (l : list A) (n : Z) : list A := drop (Z.to_nat n) l.

End Py.

(* ===================================================================== *)
(** ** modules/memory/event.py *)
(* ===================================================================== *)

Module Event.

Record t := mk {
  subject : string;
  predicate : string;
  object : string;
  describe : string;          (* the attribute [_describe] *)
  address : list string;
  emoji : string
}.

(** [Event.__init__]: every optional argument defaults through [or]. *)
Definition init (subject : string) (predicate object : option string)
    (address : option (list string)) (describe emoji : option string) : t :=
  {| subject := subject;
     predicate := Py.or_str predicate "此时";
     object := Py.or_str object "空闲";
     describe := Py.or_str describe "";
     address := default [] address;
     emoji := Py.or_str emoji "" |}.

(** The tuple hashed by [__hash__]; [__eq__] compares the hashes, which
    is modelled as equality of the hashed tuples. *)
Definition key (e : t) : string * string * string * string * string :=
  (subject e, predicate e, object e, describe e, Py.join ":" (address e)).

Definition eqb (a b : t) : bool := bool_decide (key a = key b).

(** [Event.update]. *)
Definition update (e : t) (predicate object describe : option string) : t :=
  {| subject := subject e;
     predicate := Py.or_str predicate "此时";
     object := Py.or_str object "空闲";
     describe := Py.or_str describe (Event.describe e);
     address := address e;
     emoji := emoji e |}.

(** [Event.fit]: a falsy pattern component is not checked. *)
Definition fit (e : t) (subject predicate object : option string) : bool :=
  let chk (pat : option string) (field : string) :=
    match pat with
    | Some p => if Py.truthy_str p then bool_decide (field = p) else true
    | None => true
    end in
  chk subject (Event.subject e) && chk predicate (Event.predicate e)
  && chk object (Event.object e).

(** [Event.get_describe(with_subject=True)]. *)
Definition get_describe (e : t) : string :=
  let d := if Py.truthy_str (describe e) then describe e
           else predicate e +:+ " " +:+ object e in
  if Py.str_in (subject e) d then d else subject e +:+ " " +:+ d.

(** [Event.from_list]: a 3-element list, or a 4-element list whose last
    element is the address. *)
Definition from_list (s p o : string) (addr : option (list string)) : t :=
  init s (Some p) (Some o) addr None None.

(** The dictionary returned by [Event.to_dict]. *)
Record dict := mk_dict {
  d_subject : string;
  d_predicate : string;
  d_object : string;
  d_describe : string;
  d_address : list string;
  d_emoji : string
}.

(** [Event.to_dict]. *)
Definition to_dict (e : t) : dict :=
  {| d_subject := subject e; d_predicate := predicate e;
     d_object := object e; d_describe := describe e;
     d_address := address e; d_emoji := emoji e |}.

(** [Event.from_dict] on a dictionary with all six keys: the constructor
    called with the entries as keyword arguments. *)
Definition from_dict (config : dict) : t :=
  init (d_subject config) (Some (d_predicate config)) (Some (d_object config))
    (Some (d_address config)) (Some (d_describe config))
    (Some (d_emoji config)).

End Event.

(* ===================================================================== *)
(** ** modules/maze.py: Tile *)
(* ===================================================================== *)

Module Tile.

Record t := mk {
  coord : Z * Z;
  address : list string;
  address_keys : list string;
  collision : bool;
  event_cnt : Z;
  events : gmap string Event.t    (* the attribute [_events] *)
}.

(** The argument of [add_event]: an [Event], or a tuple/list that
    [Event.from_list] converts. *)
Inductive event_arg :=
| Obj (e : Event.t)
| Lst (s p o : string) (addr : option (list string)).

Definition to_event (a : event_arg) : Event.t :=
  match a with
  | Obj e => e
  | Lst s p o addr => Event.from_list s p o addr
  end.

(** The dictionary key ["e_" + str(event_cnt)]. *)
Definition tag (cnt : Z) : string := "e_" +:+ pretty cnt.

(** [all(e != event for e in self._events.values())]. *)
Definition all_differ (m : gmap string Event.t) (event : Event.t) : bool :=
  bool_decide (map_Forall (fun _ e => Event.eqb e event = false) m).

(** [Tile.add_event]: returns the updated tile and the event. *)
Definition add_event (tile : t) (a : event_arg) : t * Event.t :=
  let event := to_event a in
  if all_differ (events tile) event then
    ({| coord := coord tile; address := address tile;
        address_keys := address_keys tile; collision := collision tile;
        event_cnt := event_cnt tile + 1;
        events := <[tag (event_cnt tile) := event]> (events tile) |}, event)
  else (tile, event).

Definition with_events (tile : t) (m : gmap string Event.t) : t :=
  {| coord := coord tile; address := address tile;
     address_keys := address_keys tile; collision := collision tile;
     event_cnt := event_cnt tile; events := m |}.

(** The test of [remove_events] on one entry. *)
Definition removed (subject : option string) (event : option Event.t)
    (eve : Event.t) : bool :=
  match subject with
  | Some s => Py.truthy_str s && bool_decide (Event.subject eve = s)
  | None => false
  end
  || match event with
     | Some ev => Event.eqb eve ev
     | None => false
     end.

(** [Tile.remove_events]: returns the updated tile and [r_events]. *)
Definition remove_events (tile : t) (subject : option string)
    (event : option Event.t) : t * gmap string Event.t :=
  (with_events tile
     (filter (fun kv => removed subject event kv.2 = false) (events tile)),
   filter (fun kv => removed subject event kv.2 = true) (events tile)).

(** The test of [update_events] on one entry. *)
Definition updated (match_ : string) (event eve : Event.t) : bool :=
  bool_decide (match_ = "subject")
  && bool_decide (Event.subject eve = Event.subject event).

(** [Tile.update_events]: returns the updated tile and [u_events]. *)
Definition update_events (tile : t) (event : Event.t) (match_ : string)
    : t * gmap string Event.t :=
  (with_events tile
     ((fun eve => if updated match_ event eve then event else eve)
        <$> events tile),
   (fun _ => event)
     <$> filter (fun kv => updated match_ event kv.2 = true) (events tile)).

(** [Tile.__init__]; a tile with a full (depth 4) address seeds itself
    with the idle event of its game object. *)
Definition init (coord : Z * Z) (world : string) (address_keys : list string)
    (address : list string) (collision : bool) : t :=
  let addr := world :: address in
  let tile := {| coord := coord; address := addr;
                 address_keys := address_keys; collision := collision;
                 event_cnt := 0; events := ∅ |} in
  if bool_decide (length addr = 4%nat) then
    (add_event tile
       (Obj (Event.init (List.last addr "") None None (Some addr) None None))).1
  else tile.

(** At most one event per subject on a tile's event map. *)
Definition one_per_subject (m : gmap string Event.t) : Prop :=
  forall k1 k2 e1 e2, m !! k1 = Some e1 -> m !! k2 = Some e2 ->
    Event.subject e1 = Event.subject e2 -> k1 = k2.

(** No two entries hold equal events. *)
Definition no_equal_pair (m : gmap string Event.t) : Prop :=
  forall k1 k2 e1 e2, m !! k1 = Some e1 -> m !! k2 = Some e2 ->
    Event.eqb e1 e2 = true -> k1 = k2.

(** The attribute [address_map]:
    [dict(zip(address_keys[:len(address)], address))]; of two equal keys
    the later one wins. *)
Definition address_map (tile : t) : gmap string string :=
  list_to_map
    (rev (zip (take (length (address tile)) (address_keys tile)) (address tile))).

(** [Tile.has_address]. *)
Definition has_address (tile : t) (key : string) : bool :=
  bool_decide (is_Some (address_map tile !! key)).

(** [list.index(x)]: the first position of [x], [None] for [ValueError]. *)
Fixpoint list_index (x : string) (l : list string) : option nat :=
  match l with
  | [] => None
  | y :: l' => if bool_decide (y = x) then Some O else S <$> list_index x l'
  end.

(** [Tile.get_address(level, as_list=True)]; [None] is the [IndexError]
    of [address_keys[-1]] or the failed assertion. *)
Definition get_address (tile : t) (level : option string)
    : option (list string) :=
  level' ← (match level with
            | Some l => if Py.truthy_str l then Some l
                        else Py.index (address_keys tile) (-1)
            | None => Py.index (address_keys tile) (-1)
            end);
  pos ← list_index level' (address_keys tile);
  Some (take (S pos) (address tile)).

(** Every key of the event map is the tag of a counter value already
    used. *)
Definition fresh_keys (tile : t) : Prop :=
  forall k, is_Some (events tile !! k) ->
    exists i, i < event_cnt tile /\ k = tag i.

End Tile.

(* ===================================================================== *)
(** ** modules/maze.py: Maze *)
(* ===================================================================== *)

(** Outcome of a computation that may raise or may fail to terminate
    within the given number of loop iterations. *)
Inductive outcome (A : Type) :=
| Ret (a : A)
| Raise
| OutOfFuel.
Arguments Ret {A} a.
Arguments Raise {A}.
Arguments OutOfFuel {A}.

Module Maze.

Abbreviation coord := (Z * Z)%type.

(** The fields read by [tile_at], [get_around] and [find_path]. *)
Record t := mk {
  maze_height : Z;
  maze_width : Z;
  tiles : list (list Tile.t)       (* [tiles[y][x]] *)
}.

(** [Maze.tile_at]: [self.tiles[coord[1]][coord[0]]]. *)
Definition tile_at (m : t) (c : coord) : option Tile.t :=
  row ← Py.index (tiles m) c.2; Py.index row c.1.

(** The four neighbours, in the order left, right, up, down. *)
Definition around4 (c : coord) : list coord :=
  [(c.1 - 1, c.2); (c.1 + 1, c.2); (c.1, c.2 - 1); (c.1, c.2 + 1)].

(** [[c for c in coords if not self.tile_at(c).collision]]. *)
Fixpoint no_collision_only (m : t) (cs : list coord) : option (list coord) :=
  match cs with
  | [] => Some []
  | c :: cs' =>
      tile ← tile_at m c;
      rest ← no_collision_only m cs';
      Some (if Tile.collision tile then rest else c :: rest)
  end.

(** [Maze.get_around]. *)
Definition get_around (m : t) (c : coord) (no_collision : bool)
    : option (list coord) :=
  if no_collision then no_collision_only m (around4 c) else Some (around4 c).

(** The scratch grid [map] of [find_path]: [map[y][x]]. *)
Definition grid_get (g : list (list Z)) (c : coord) : option Z :=
  row ← Py.index g c.2; Py.index row c.1.

(** [l[i] = v] on a Python list. *)
Definition set_index {A} (l : list A) (i : Z) (v : A) : option (list A) :=
  let n := Z.of_nat (length l) in
  if (0 <=? i) && (i <? n) then Some (<[Z.to_nat i := v]> l)
  else if (- n <=? i) && (i <? 0) then Some (<[Z.to_nat (n + i) := v]> l)
  else None.

(** [map[y][x] = v]. *)
Definition grid_set (g : list (list Z)) (c : coord) (v : Z)
    : option (list (list Z)) :=
  row ← Py.index g c.2;
  row' ← set_index row c.1 v;
  set_index g c.2 row'.

(** The variables of the search loop: [map], the frontier being built,
    and [visited]. *)
Definition bfs_state : Type := list (list Z) * list coord * gset coord.

(** The body of the innermost [for c in self.get_around(f)]. *)
Definition visit (m : t) (f : coord) (st : bfs_state) (c : coord)
    : option bfs_state :=
  let '(map, new_frontier, visited) := st in
  if (0 <? c.1) && (c.1 <? maze_width m - 1)
     && (0 <? c.2) && (c.2 <? maze_height m - 1) then
    v ← grid_get map c;
    if (v =? 0) && bool_decide (c ∉ visited) then
      vf ← grid_get map f;
      map' ← grid_set map c (vf + 1);
      Some (map', new_frontier ++ [c], {[c]} ∪ visited)
    else Some st
  else Some st.

Fixpoint visit_all (m : t) (f : coord) (st : bfs_state) (cs : list coord)
    : option bfs_state :=
  match cs with
  | [] => Some st
  | c :: cs' => st' ← visit m f st c; visit_all m f st' cs'
  end.

(** The body of [for f in frontier]. *)
Definition expand (m : t) (st : bfs_state) (f : coord) : option bfs_state :=
  cs ← get_around m f true; visit_all m f st cs.

Fixpoint expand_all (m : t) (st : bfs_state) (frontier : list coord)
    : option bfs_state :=
  match frontier with
  | [] => Some st
  | f :: fs => st' ← expand m st f; expand_all m st' fs
  end.

(** One iteration of [while map[dst[1]][dst[0]] == 0]: the new frontier
    starts empty. *)
Definition bfs_round (m : t) (st : bfs_state) : option bfs_state :=
  let '(map, frontier, visited) := st in
  expand_all m (map, [], visited) frontier.

(** The search loop, bounded by [fuel] iterations; returns the final
    [map]. *)
Fixpoint bfs (m : t) (dst : coord) (fuel : nat) (st : bfs_state)
    : outcome (list (list Z)) :=
  match grid_get st.1.1 dst with
  | None => Raise
  | Some v =>
      if v =? 0 then
        match fuel with
        | O => OutOfFuel
        | S fuel' =>
            match bfs_round m st with
            | None => Raise
            | Some st' => bfs m dst fuel' st'
            end
        end
      else Ret st.1.1
  end.

(** [for c in self.get_around(path[-1]): if map[..] == step - 1: ...; break]:
    the first neighbour with the wanted step, if any. *)
Fixpoint first_at_step (map : list (list Z)) (target : Z) (cs : list coord)
    : option (option coord) :=
  match cs with
  | [] => Some None
  | c :: cs' =>
      v ← grid_get map c;
      if v =? target then Some (Some c) else first_at_step map target cs'
  end.

(** [while step > 1]: [n] counts the remaining iterations, [step - 1]. *)
Fixpoint backtrack (m : t) (map : list (list Z)) (n : nat) (step : Z)
    (path : list coord) : option (list coord) :=
  match n with
  | O => Some path
  | S n' =>
      last_c ← List.last (Some <$> path) None;
      cs ← get_around m last_c true;
      found ← first_at_step map (step - 1) cs;
      backtrack m map n' (step - 1)
        (match found with Some c => path ++ [c] | None => path end)
  end.

(** [Maze.find_path]; [fuel] bounds the iterations of the search loop. *)
Definition find_path (m : t) (fuel : nat) (src dst : coord)
    : outcome (list coord) :=
  let map0 := replicate (Z.to_nat (maze_height m))
                (replicate (Z.to_nat (maze_width m)) 0) in
  match grid_set map0 src 1 with
  | None => Raise
  | Some map1 =>
      match bfs m dst fuel (map1, [src], ∅) with
      | Ret map =>
          match grid_get map dst with
          | None => Raise
          | Some step =>
              match backtrack m map (Z.to_nat (step - 1)) step [dst] with
              | None => Raise
              | Some path => Ret (rev path)
              end
          end
      | Raise => Raise
      | OutOfFuel => OutOfFuel
      end
  end.

(** Walkability: [c'] can be entered from [c] when it is one of the four
    neighbours, lies on the grid and its tile is not a collision tile. *)
Definition on_grid (m : t) (c : coord) : Prop :=
  0 <= c.1 < maze_width m /\ 0 <= c.2 < maze_height m.

Definition free (m : t) (c : coord) : Prop :=
  exists tile, tile_at m c = Some tile /\ Tile.collision tile = false.

(** Reachability over the 4-connected non-collision sub-graph. *)
Inductive reachable (m : t) (src : coord) : coord -> Prop :=
| reach_refl : reachable m src src
| reach_step c c' :
    reachable m src c -> In c' (around4 c) -> on_grid m c' -> free m c' ->
    reachable m src c'.

(** The grid built by [Maze.__init__]: [maze_height] rows of
    [maze_width] tiles. *)
Definition well_formed (m : t) : Prop :=
  Z.of_nat (length (tiles m)) = maze_height m /\
  Forall (fun row => Z.of_nat (length row) = maze_width m) (tiles m).

(** What the collision filter of [get_around] keeps of the neighbour [c]
    whose looked-up tile is [tile]. *)
Definition keep (tile : Tile.t) (c : coord) : list coord :=
  if Tile.collision tile then [] else [c].

(** The state of the search loop after [n] iterations during which the
    loop condition held ([map[dst]] was still 0). *)
Fixpoint iter_rounds (m : t) (dst : coord) (n : nat) (st : bfs_state)
    : option bfs_state :=
  match n with
  | O => Some st
  | S n' =>
      v ← grid_get st.1.1 dst;
      if v =? 0 then st' ← bfs_round m st; iter_rounds m dst n' st'
      else None
  end.

(** The scratch grid has the dimensions of the maze. *)
Definition grid_dims (m : t) (g : list (list Z)) : Prop :=
  Z.of_nat (length g) = maze_height m /\
  Forall (fun row => Z.of_nat (length row) = maze_width m) g.

(** Every tile with a step number is reachable from [src]. *)
Definition marked_reachable (m : t) (src : coord) (g : list (list Z)) : Prop :=
  forall c v, on_grid m c -> grid_get g c = Some v -> v <> 0 ->
              reachable m src c.

(** The invariant of the search loop. *)
Definition bfs_inv (m : t) (src : coord) (st : bfs_state) : Prop :=
  grid_dims m st.1.1 /\ marked_reachable m src st.1.1 /\
  Forall (reachable m src) st.1.2.

(** A maze given by its collision flags only (no addresses, no events). *)
Definition of_flags (rows : list (list bool)) : t :=
  {| maze_height := Z.of_nat (length rows);
     maze_width := Z.of_nat (length (List.hd [] rows));
     tiles := imap (fun y row =>
                imap (fun x (b : bool) =>
                  Tile.init (Z.of_nat x, Z.of_nat y) "town"
                    ["world"; "sector"; "arena"; "game_object"] [] b) row)
              rows |}.




(** Two coordinates next to each other, left/right or up/down. *)
Definition adjacent (a b : coord) : Prop := In b (around4 a).

(** A walk: every coordinate is next to its predecessor. *)
Fixpoint walk (path : list coord) : Prop :=
  match path with
  | a :: (b :: _) as rest => adjacent a b /\ walk rest
  | _ => True
  end.

(** The tiles the search may enter: not on the border of the grid. *)
Definition interior (m : t) (c : coord) : Prop :=
  0 < c.1 < maze_width m - 1 /\ 0 < c.2 < maze_height m - 1.

(** A tile of the grid that has a step number. *)
Definition marked (m : t) (g : list (list Z)) (c : coord) : Prop :=
  on_grid m c /\ exists k, grid_get g c = Some k /\ k <> 0.

(** The step numbers of [g] also stand in [g']. *)
Definition keeps (m : t) (g g' : list (list Z)) : Prop :=
  forall c k, on_grid m c -> grid_get g c = Some k -> k <> 0 ->
              grid_get g' c = Some k.

(** What the step numbers mean: they are positive, only [src] has step
    1, and a tile with a larger step is a walkable interior tile with a
    neighbour one step closer. *)
Definition steps_ok (m : t) (src : coord) (g : list (list Z)) : Prop :=
  forall c k, on_grid m c -> grid_get g c = Some k -> k <> 0 ->
    1 <= k /\ (k = 1 -> c = src) /\
    (1 < k -> free m c /\ interior m c /\
              exists f, In f (around4 c) /\ on_grid m f /\
                        grid_get g f = Some (k - 1)).

(** One entry of [config["tiles"]]: its ["coord"] and the keyword
    arguments left for [Tile], an absent ["address"] or ["collision"]
    standing at its default. *)
Record tile_config := mk_tile_config {
  tc_coord : coord;
  tc_address : list string;
  tc_collision : bool
}.

(** The grid of plain tiles that [Maze.__init__] starts from. *)
Definition blank_tiles (height width : Z) (world : string)
    (address_keys : list string) : list (list Tile.t) :=
  (fun y => (fun x => Tile.init (x, y) world address_keys [] false)
              <$> seqZ 0 width) <$> seqZ 0 height.

(** [self.tiles[y][x] = Tile((x, y), world, address_keys, **tile)]. *)
Definition place (world : string) (address_keys : list string)
    (grid : list (list Tile.t)) (tc : tile_config) : option (list (list Tile.t)) :=
  row ← Py.index grid (tc_coord tc).2;
  row' ← set_index row (tc_coord tc).1
           (Tile.init (tc_coord tc) world address_keys (tc_address tc)
              (tc_collision tc));
  set_index grid (tc_coord tc).2 row'.

Fixpoint place_all (world : string) (address_keys : list string)
    (grid : list (list Tile.t)) (cfg : list tile_config)
    : option (list (list Tile.t)) :=
  match cfg with
  | [] => Some grid
  | tc :: cfg' =>
      grid' ← place world address_keys grid tc;
      place_all world address_keys grid' cfg'
  end.

(** [Maze.__init__], as far as the fields of [t] go: [config["size"]],
    [config["world"]], [config["tile_address_keys"]] and
    [config["tiles"]]; [None] is an [IndexError]. *)
Definition init (height width : Z) (world : string)
    (address_keys : list string) (cfg : list tile_config) : option t :=
  grid ← place_all world address_keys
            (blank_tiles height width world address_keys) cfg;
  Some {| maze_height := height; maze_width := width; tiles := grid |}.

(** A grid of [h] rows of [w] tiles. *)
Definition shaped (h w : Z) (grid : list (list Tile.t)) : Prop :=
  Z.of_nat (length grid) = h /\
  Forall (fun row => Z.of_nat (length row) = w) grid.

(** Every tile of the grid knows where it lies. *)
Definition placed (grid : list (list Tile.t)) : Prop :=
  forall (x y : nat) row tile, grid !! y = Some row -> row !! x = Some tile ->
    Tile.coord tile = (Z.of_nat x, Z.of_nat y).

(** A route the search can follow from [src]: every move enters one of
    the four neighbours, which is walkable and not on the border. *)
Inductive route (m : t) (src : coord) : coord -> nat -> Prop :=
| route_start : route m src src 0
| route_move c c' n :
    route m src c n -> In c' (around4 c) -> free m c' -> interior m c' ->
    route m src c' (S n).

(** The neighbours that the search may enter from a tile with step number
    [k] have a step number of their own, at most [k + 1]. *)
Definition closed (m : t) (g : list (list Z)) (c : coord) (k : Z) : Prop :=
  forall c', In c' (around4 c) -> free m c' -> interior m c' ->
    exists k', grid_get g c' = Some k' /\ 1 <= k' <= k + 1.

(** The search while the tiles with step number [L] are expanded: no step
    number exceeds [L + 1], the visited tiles are marked, and the new
    frontier holds exactly the tiles with step number [L + 1]. *)
Definition level_inv (m : t) (L : Z) (g : list (list Z)) (nf : list coord)
    (vis : gset coord) : Prop :=
  (forall c k, on_grid m c -> grid_get g c = Some k -> k <= L + 1) /\
  (forall c, c ∈ vis -> marked m g c) /\
  (forall c, on_grid m c -> grid_get g c = Some (L + 1) -> In c nf) /\
  Forall (fun c => on_grid m c /\ grid_get g c = Some (L + 1)) nf.

(** The step numbers of [g'] other than [L + 1] already stand in [g]. *)
Definition only_new (m : t) (L : Z) (g g' : list (list Z)) : Prop :=
  forall c k, on_grid m c -> grid_get g' c = Some k -> k <> L + 1 ->
              grid_get g c = Some k.

(** The search between two rounds, the frontier being the tiles with
    step number [L]: every tile with a smaller step number is closed. *)
Definition front_inv (m : t) (src : coord) (L : Z) (g : list (list Z))
    (fr : list coord) (vis : gset coord) : Prop :=
  1 <= L /\ grid_dims m g /\ steps_ok m src g /\
  grid_get g src = Some 1 /\
  (forall c k, on_grid m c -> grid_get g c = Some k -> k <= L) /\
  (forall c, c ∈ vis -> marked m g c) /\
  (forall c, on_grid m c -> grid_get g c = Some L -> In c fr) /\
  Forall (fun f => on_grid m f /\ grid_get g f = Some L) fr /\
  (forall c k, on_grid m c -> grid_get g c = Some k -> 1 <= k < L ->
               closed m g c k).

End Maze.

(* ===================================================================== *)
(** ** modules/memory/schedule.py *)
(* ===================================================================== *)

Module Schedule.

(** A plan dictionary [{idx, describe, start, duration, decompose}]; a
    sub-plan has no [decompose] entry, which reads as the empty list. *)
Inductive plan := Plan {
  idx : Z;
  describe : string;
  start : Z;
  duration : Z;
  decompose_of : list plan      (* the entry [plan["decompose"]] *)
}.

(** [Schedule.plan_stamps(plan)] without a time format. *)
Definition plan_stamps (p : plan) : Z * Z := (start p, start p + duration p).

(** [for de_plan in plan.get("decompose", [])]: the first sub-plan that
    has not ended. *)
Fixpoint current_sub (total_minute : Z) (subs : list plan) : option plan :=
  match subs with
  | [] => None
  | d :: rest =>
      if (plan_stamps d).2 <=? total_minute then current_sub total_minute rest
      else Some d
  end.

(** [for plan in self.daily_schedule]. *)
Fixpoint scan_plans (total_minute : Z) (plans : list plan)
    : option (plan * plan) :=
  match plans with
  | [] => None
  | p :: rest =>
      if (plan_stamps p).2 <=? total_minute then scan_plans total_minute rest
      else Some (p, default p (current_sub total_minute (decompose_of p)))
  end.

(** [Schedule.current_plan]; [total_minute] is the timer's
    [daily_duration()], [None] is the [IndexError] of
    [self.daily_schedule[-1]]. *)
Definition current_plan (total_minute : Z) (daily_schedule : list plan)
    : option (plan * plan) :=
  match scan_plans total_minute daily_schedule with
  | Some r => Some r
  | None => last_plan ← Py.index daily_schedule (-1); Some (last_plan, last_plan)
  end.

(** [Schedule.decompose]. *)
Definition decompose (p : plan) : bool :=
  let d := describe p in
  if (0 <? Z.of_nat (length (decompose_of p))) then false
  else if negb (Py.str_in "sleep" d) && negb (Py.str_in "bed" d) then true
  else if negb (Py.str_in "睡" d) && negb (Py.str_in "床" d) then true
  else if Py.str_in "sleeping" d || Py.str_in "asleep" d || Py.str_in "in bed" d
       then false
  else if Py.str_in "睡" d || Py.str_in "床" d then false
  else if Py.str_in "sleep" d || Py.str_in "bed" d then duration p <=? 60
  else if Py.str_in "睡" d || Py.str_in "床" d then duration p <=? 60
  else true.

(** [Schedule.add_plan]: returns the extended schedule and the new plan. *)
Definition add_plan (daily_schedule : list plan) (describe : string)
    (duration : Z) (decompose : list plan) : list plan * plan :=
  let start := match Py.index daily_schedule (-1) with
               | Some last_plan => Schedule.start last_plan + Schedule.duration last_plan
               | None => 0
               end in
  let p := {| idx := Z.of_nat (length daily_schedule); describe := describe;
              start := start; duration := duration;
              decompose_of := decompose |} in
  (daily_schedule ++ [p], p).

(** A schedule as repeated [add_plan] builds it: the plans are numbered
    from [i] on and each starts where its predecessor ends, the first one
    at [t]. *)
Fixpoint contiguous_from (t i : Z) (plans : list plan) : Prop :=
  match plans with
  | [] => True
  | p :: rest =>
      idx p = i /\ start p = t /\
      contiguous_from (start p + duration p) (i + 1) rest
  end.

Definition contiguous (plans : list plan) : Prop := contiguous_from 0 0 plans.

End Schedule.

(* ===================================================================== *)
(** ** modules/memory/spatial.py *)
(* ===================================================================== *)

Module Spatial.

(** The spatial memory: nested dictionaries, kept in insertion order,
    with lists of leaf names at the bottom. *)
Inductive tree :=
| Leaves (l : list string)
| Dict (d : list (string * tree)).

(** [d.get(k)]. *)
Fixpoint get {V} (k : string) (d : list (string * V)) : option V :=
  match d with
  | [] => None
  | (k', v) :: d' => if bool_decide (k' = k) then Some v else get k d'
  end.

(** [d[k] = v]: an existing key keeps its place, a new one goes last. *)
Fixpoint set {V} (k : string) (v : V) (d : list (string * V))
    : list (string * V) :=
  match d with
  | [] => [(k, v)]
  | (k', v') :: d' =>
      if bool_decide (k' = k) then (k, v) :: d' else (k', v') :: set k v d'
  end.

(** The helper [_add_leaf] of [Spatial.add_leaf]; [None] is the
    [AttributeError] raised when a list is met where a dictionary is
    needed or the other way round. *)
Fixpoint _add_leaf (left_address : list string) (t : tree) : option tree :=
  match left_address with
  | [a; b] =>
      match t with
      | Dict d =>
          match default (Leaves []) (get a d) with
          | Leaves l =>
              Some (Dict (set a (Leaves (if bool_decide (b ∈ l) then l
                                         else l ++ [b])) d))
          | Dict d' => if bool_decide (b ∈ d'.*1) then Some t else None
          end
      | Leaves _ => None
      end
  | a :: (_ :: _ :: _) as rest =>
      match t with
      | Dict d =>
          sub ← _add_leaf rest (default (Dict []) (get a d));
          Some (Dict (set a sub d))
      | Leaves _ => None
      end
  | _ => Some t
  end.

(** The helper [_get_tree] of [Spatial.get_leaves]; [None] is the
    [TypeError] of indexing a list of leaves by a name it contains. *)
Fixpoint _get_tree (address : list string) (t : tree) : option (list string) :=
  match address with
  | [] => Some (match t with Dict d => d.*1 | Leaves l => l end)
  | a :: rest =>
      match t with
      | Dict d =>
          match get a d with
          | None => Some []
          | Some sub => _get_tree rest sub
          end
      | Leaves l => if bool_decide (a ∈ l) then None else Some []
      end
  end.

Record t := mk {
  tree_of : tree;                               (* [tree] *)
  address : list (string * list string)         (* [address] *)
}.

(** [Spatial.__init__]. *)
Definition init (tr : tree) (address : option (list (string * list string)))
    : t :=
  let address := default [] address in
  {| tree_of := tr;
     address :=
       match get "living_area" address with
       | Some living =>
           if bool_decide ("sleeping" ∉ address.*1)
              && bool_decide ("睡觉" ∉ address.*1)
           then set "睡觉" (living ++ ["床"]) address
           else address
       | None => address
       end |}.

(** [Spatial.add_leaf]. *)
Definition add_leaf (s : t) (addr : list string) : option t :=
  tr ← _add_leaf addr (tree_of s);
  Some {| tree_of := tr; address := address s |}.

(** [Spatial.get_leaves]. *)
Definition get_leaves (s : t) (addr : list string) : option (list string) :=
  _get_tree addr (tree_of s).

(** The loop of [Spatial.find_address] over [address.items()]. *)
Fixpoint find_in (hint : string) (address : list (string * list string))
    : list string :=
  match address with
  | [] => []
  | (key, path) :: rest =>
      if Py.str_in key hint then path else find_in hint rest
  end.

(** [Spatial.find_address(hint, as_list=True)]. *)
Definition find_address (s : t) (hint : string) : list string :=
  find_in hint (address s).

End Spatial.

(* ===================================================================== *)
(** ** modules/model/llm_model.py *)
(* ===================================================================== *)

Module LLMModel.

(** The Python values a prompt callback or a failsafe can be. *)
Inductive value :=
| VNone
| VBool (b : bool)
| VInt (z : Z)
| VStr (s : string)
| VList (l : list value).

(** Truthiness ([bool(v)]). *)
Definition truthy (v : value) : bool :=
  match v with
  | VNone => false
  | VBool b => b
  | VInt z => negb (z =? 0)
  | VStr s => Py.truthy_str s
  | VList l => match l with [] => false | _ => true end
  end.

Definition is_none (v : value) : bool :=
  match v with VNone => true | _ => false end.

(** The counters [attempts, successes, failures] of one caller. *)
Definition counters : Type := Z * Z * Z.

Record t := mk {
  meta_responses : list string;
  summary : gmap string counters       (* [_summary] *)
}.

(** [self._summary[key][pos] += 1] (a missing key is a [KeyError]; the
    keys used below are always present). *)
Definition bump (pos : Z) (key : string) (sm : gmap string counters)
    : gmap string counters :=
  match sm !! key with
  | Some (a, s, f) =>
      <[key := if pos =? 0 then (a + 1, s, f)
               else if pos =? 1 then (a, s + 1, f) else (a, s, f + 1)]> sm
  | None => sm
  end.

(** [self._summary.setdefault(caller, [0, 0, 0])]. *)
Definition setdefault (key : string) (sm : gmap string counters)
    : gmap string counters :=
  match sm !! key with
  | Some _ => sm
  | None => <[key := (0, 0, 0)]> sm
  end.

Section completion.
(** The provider's [_completion(prompt, **kwargs)] on the [i]-th attempt
    of this call: [None] when it raises. *)
Variable _completion : nat -> option string.
(** The prompt's callback, if any; its result is [None] when it raises. *)
Variable callback : option (string -> option value).
Variable caller : string.

(** [callback(meta_response) if callback else meta_response]. *)
Definition respond (meta_response : string) : option value :=
  match callback with
  | Some cb => cb meta_response
  | None => Some (VStr meta_response)
  end.

(** The [i]-th attempt raises or yields [None]. *)
Definition failed (i : nat) : Prop :=
  match _completion i with
  | None => True
  | Some meta_response =>
      match respond meta_response with
      | None => True
      | Some v => is_none v = true
      end
  end.

(** The body of [for _ in range(retry)], from attempt [i] on, [n]
    attempts remaining; returns the final [response] and state. *)
Fixpoint attempts (n i : nat) (llm : t) : value * t :=
  match n with
  | O => (VNone, llm)
  | S n' =>
      match _completion i with
      | None => attempts n' (S i) llm
      | Some meta_response =>
          let llm' :=
            {| meta_responses := meta_responses llm ++ [meta_response];
               summary := bump 0 caller (bump 0 "total" (summary llm)) |} in
          match respond meta_response with
          | None => attempts n' (S i) llm'
          | Some response =>
              if is_none response then attempts n' (S i) llm'
              else (response, llm')
          end
      end
  end.

(** [LLMModel.completion]. *)
Definition completion (llm : t) (retry : Z) (failsafe : value) : value * t :=
  let llm0 := {| meta_responses := [];
                 summary := setdefault caller (summary llm) |} in
  let '(response, llm1) := attempts (Z.to_nat retry) 0 llm0 in
  let pos := if is_none response then 2 else 1 in
  (if truthy response then response else failsafe,
   {| meta_responses := meta_responses llm1;
      summary := bump pos caller (bump pos "total" (summary llm1)) |}).
End completion.

Section embedding.
(** The provider's [_embedding(text)] on the [i]-th attempt: [None] when
    it raises. *)
Variable _embedding : nat -> option value.

(** The [i]-th attempt yields no usable vector. *)
Definition no_vector (i : nat) : Prop :=
  match _embedding i with
  | None => True
  | Some r => truthy r = false
  end.

(** The body of [for _ in range(retry)] in [LLMModel.embedding];
    [response] keeps its value when an attempt raises. *)
Fixpoint embed_attempts (n i : nat) (response : value) : value :=
  match n with
  | O => response
  | S n' =>
      match _embedding i with
      | None => embed_attempts n' (S i) response
      | Some r => if truthy r then r else embed_attempts n' (S i) r
      end
  end.

(** [LLMModel.embedding]. *)
Definition embedding (retry : Z) : value :=
  embed_attempts (Z.to_nat retry) 0 VNone.
End embedding.

(** [LLMModel.__init__]. *)
Definition init : t :=
  {| meta_responses := []; summary := {["total" := (0, 0, 0)]} |}.

End LLMModel.

(* ===================================================================== *)
(** ** modules/storage/index.py and modules/memory/associate.py *)
(* ===================================================================== *)

(** The three memory types; the source tags them by the strings
    ["event"], ["thought"] and ["chat"]. *)
Inductive node_type := NEvent | NThought | NChat.

Definition node_type_str (ty : node_type) : string :=
  match ty with NEvent => "event" | NThought => "thought" | NChat => "chat" end.

(** Dates are seconds on the simulated clock; [strftime] followed by
    [to_date] at the second resolution is the identity. *)
Definition days30 : Z := 30 * 24 * 3600.

Global Instance node_type_eq_dec : EqDecision node_type.
Proof. solve_decision. Defined.

Module LlamaIndex.

(** The metadata dictionary written by [Associate.add_node]. *)
Record metadata := mk_meta {
  m_node_type : node_type;
  m_subject : string;
  m_predicate : string;
  m_object : string;
  m_address : string;
  m_poignancy : Z;
  m_create : Z;
  m_expire : Z;
  m_access : Z
}.

(** The dictionary [metadata] built in [Associate.add_node]. *)
Definition meta_of (ty : node_type) (ev : Event.t) (poignancy create expire : Z)
    : metadata :=
  {| m_node_type := ty;
     m_subject := Event.subject ev;
     m_predicate := Event.predicate ev;
     m_object := Event.object ev;
     m_address := Py.join ":" (Event.address ev);
     m_poignancy := poignancy;
     m_create := create;
     m_expire := expire;
     m_access := create |}.

(** A [TextNode]. *)
Record node := mk_node {
  id_ : string;
  text : string;
  meta : metadata
}.

Record t := mk {
  max_nodes : Z;                 (* [_config["max_nodes"]] *)
  docs : gmap string node        (* [_index.docstore.docs] *)
}.

Definition max_retries : nat := 3.

(** The retry loop of [LlamaIndex.add_node]. [fails] is the number of
    consecutive attempts on which the embedding backend raises inside
    [insert_nodes]; [id] is [None] until the first attempt has named the
    node, and [max_nodes] grows on every attempt. [None] is the exception
    re-raised after [max_retries] failed attempts. *)
Fixpoint add_node_loop (left fails : nat) (id : option string) (ix : t)
    (text : string) (md : metadata) : t * option node :=
  match left with
  | O => (ix, None)
  | S left' =>
      let id' := match id with
                 | Some i => i
                 | None => "node_" +:+ pretty (max_nodes ix)
                 end in
      let nd := {| id_ := id'; text := text; meta := md |} in
      match fails with
      | O => ({| max_nodes := max_nodes ix + 1;
                 docs := <[id' := nd]> (docs ix) |}, Some nd)
      | S fails' =>
          add_node_loop left' fails' (Some id')
            {| max_nodes := max_nodes ix + 1; docs := docs ix |} text md
      end
  end.

Definition add_node (fails : nat) (ix : t) (text : string) (md : metadata)
    : t * option node :=
  add_node_loop max_retries fails None ix text md.

(** [LlamaIndex.remove_nodes]. *)
Definition remove_nodes (ix : t) (node_ids : list string) : t :=
  {| max_nodes := max_nodes ix;
     docs := foldr (fun i d => delete i d) (docs ix) node_ids |}.

(** [LlamaIndex.find_node]; [None] is the [KeyError]. *)
Definition find_node (ix : t) (node_id : string) : option node :=
  docs ix !! node_id.

Definition has_node (ix : t) (node_id : string) : bool :=
  bool_decide (is_Some (docs ix !! node_id)).

(** The test of [LlamaIndex.cleanup] on one node: not yet created or
    already expired at [now]. *)
Definition stale (now : Z) (nd : node) : bool :=
  (now <? m_create (meta nd)) || (m_expire (meta nd) <? now).

(** [LlamaIndex.cleanup]: the index without its stale nodes, and their
    ids (the order of the ids is the order of the docstore, which no
    caller relies on). *)
Definition cleanup (now : Z) (ix : t) : t * list string :=
  let remove_ids :=
    (map_to_list (filter (fun kv => stale now kv.2 = true) (docs ix))).*1 in
  (remove_nodes ix remove_ids, remove_ids).

End LlamaIndex.

Module Concept.

Record t := mk {
  node_id : string;
  node_type_of : node_type;
  event : Event.t;
  poignancy : Z;
  create : Z;
  expire : Z;
  access : Z
}.

(** [Concept.__init__] with the three dates given. *)
Definition init (describe node_id : string) (ty : node_type)
    (subject predicate object address : string) (poignancy : Z)
    (create expire access : Z) : t :=
  {| node_id := node_id; node_type_of := ty;
     event := Event.init subject (Some predicate) (Some object)
                (Some (Py.split ":" address)) (Some describe) None;
     poignancy := poignancy;
     create := create; expire := expire; access := access |}.

(** [Concept.from_node]. *)
Definition from_node (nd : LlamaIndex.node) : t :=
  let md := LlamaIndex.meta nd in
  init (LlamaIndex.text nd) (LlamaIndex.id_ nd) (LlamaIndex.m_node_type md)
    (LlamaIndex.m_subject md) (LlamaIndex.m_predicate md)
    (LlamaIndex.m_object md) (LlamaIndex.m_address md)
    (LlamaIndex.m_poignancy md) (LlamaIndex.m_create md)
    (LlamaIndex.m_expire md) (LlamaIndex.m_access md).

(** [Concept.from_event]: the dates default to the timer's [now]. *)
Definition from_event (now : Z) (node_id : string) (ty : node_type)
    (ev : Event.t) (poignancy : Z) : t :=
  init (Event.get_describe ev) node_id ty (Event.subject ev)
    (Event.predicate ev) (Event.object ev) (Py.join ":" (Event.address ev))
    poignancy now (now + days30) now.

(** The property [Concept.describe]. *)
Definition describe (c : t) : string := Event.get_describe (event c).

End Concept.

Module Associate.

Record t := mk {
  index : LlamaIndex.t;                  (* [_index] *)
  mem_event : list string;               (* [memory["event"]] *)
  mem_thought : list string;             (* [memory["thought"]] *)
  mem_chat : list string;                (* [memory["chat"]] *)
  retention : Z;
  max_memory : Z
}.

(** [self.memory[node_type]]. *)
Definition memory (a : t) (ty : node_type) : list string :=
  match ty with
  | NEvent => mem_event a
  | NThought => mem_thought a
  | NChat => mem_chat a
  end.

(** [self.memory[node_type] = l] together with a new index. *)
Definition store (a : t) (ix : LlamaIndex.t) (ty : node_type)
    (l : list string) : t :=
  {| index := ix;
     mem_event := match ty with NEvent => l | _ => mem_event a end;
     mem_thought := match ty with NThought => l | _ => mem_thought a end;
     mem_chat := match ty with NChat => l | _ => mem_chat a end;
     retention := retention a; max_memory := max_memory a |}.

(** [Associate.add_node]. [now] is the timer's date, [fails] the number
    of failing insertions of the vector store (see [LlamaIndex]). *)
Definition add_node (now : Z) (fails : nat) (a : t) (ty : node_type)
    (ev : Event.t) (poignancy : Z) (create expire : option Z)
    : t * option Concept.t :=
  let create := default now create in
  let expire := default (create + days30) expire in
  let md := LlamaIndex.meta_of ty ev poignancy create expire in
  match LlamaIndex.add_node fails (index a) (Event.get_describe ev) md with
  | (ix, None) => (store a ix ty (memory a ty), None)
  | (ix, Some nd) =>
      let mem := LlamaIndex.id_ nd :: memory a ty in
      if (max_memory a <=? Z.of_nat (length mem)) && (0 <? max_memory a) then
        (store a (LlamaIndex.remove_nodes ix (Py.slice_from mem (max_memory a)))
           ty (Py.slice_to mem (max_memory a - 1)),
         Some (Concept.from_node nd))
      else (store a ix ty mem, Some (Concept.from_node nd))
  end.

(** [Associate._retrieve_nodes(node_type)] without a search text; [None]
    is the [KeyError] of [find_node]. *)
Definition retrieve_nodes (a : t) (ty : node_type) : option (list Concept.t) :=
  nodes ← mapM (LlamaIndex.find_node (index a)) (memory a ty);
  Some (Concept.from_node <$> Py.slice_to nodes (retention a)).

Definition retrieve_events (a : t) := retrieve_nodes a NEvent.
Definition retrieve_chats (a : t) := retrieve_nodes a NChat.

(** A fresh store. *)
Definition init (retention max_memory : Z) : t :=
  {| index := {| LlamaIndex.max_nodes := 0; LlamaIndex.docs := ∅ |};
     mem_event := []; mem_thought := []; mem_chat := [];
     retention := retention; max_memory := max_memory |}.

(** [Associate.cleanup_index]. *)
Definition cleanup_index (now : Z) (a : t) : t :=
  let '(ix, node_ids) := LlamaIndex.cleanup now (index a) in
  {| index := ix;
     mem_event := filter (fun n => n ∉ node_ids) (mem_event a);
     mem_thought := filter (fun n => n ∉ node_ids) (mem_thought a);
     mem_chat := filter (fun n => n ∉ node_ids) (mem_chat a);
     retention := retention a; max_memory := max_memory a |}.

(** The state a store is in when it was filled by [add_node] only: no id
    is listed twice, every listed id is a node of the vector store whose
    number is below the counter, and every node is filed under its own
    id. *)
Definition consistent (a : t) : Prop :=
  (forall ty, NoDup (memory a ty)) /\
  (forall ty1 ty2 id, id ∈ memory a ty1 -> id ∈ memory a ty2 -> ty1 = ty2) /\
  (forall ty id, id ∈ memory a ty ->
     is_Some (LlamaIndex.docs (index a) !! id) /\
     exists j, j < LlamaIndex.max_nodes (index a) /\ id = "node_" +:+ pretty j) /\
  (forall id nd, LlamaIndex.docs (index a) !! id = Some nd ->
                 LlamaIndex.id_ nd = id).

(** The stores a simulation can hold: a fresh one, and whatever
    [add_node] and [cleanup_index] make of it. *)
Inductive reached (r m : Z) : t -> Prop :=
| reached_init : reached r m (init r m)
| reached_add_node now fails a ty ev poignancy create expire :
    reached r m a ->
    reached r m (add_node now fails a ty ev poignancy create expire).1
| reached_cleanup now a :
    reached r m a -> reached r m (cleanup_index now a).

End Associate.

(* ===================================================================== *)
(** ** modules/agent.py: percept *)
(* ===================================================================== *)

Module Agent.

(** The part of the agent that [percept] reads and writes once the
    events in scope are known. *)
Record t := mk {
  name : string;
  status_poignancy : Z;            (* [status["poignancy"]] *)
  concepts : list Concept.t;
  associate : Associate.t;
  att_bandwidth : Z                (* [percept_config["att_bandwidth"]] *)
}.

(** What the surroundings answer during one call of [_add_concept]. *)
Record env := mk_env {
  now : Z;                                    (* the timer's date *)
  clock_ms : Z;                               (* [int(time.time()*1000)] *)
  llm_poignancy : node_type -> Event.t -> Z;  (* [completion("poignancy_*")] *)
  index_fails : nat                           (* failing vector insertions *)
}.

(** The score chosen at the head of [_add_concept]. *)
Definition poignancy_of (w : env) (e_type : node_type) (ev : Event.t) : Z :=
  if Event.fit ev None (Some "is") (Some "idle") then 1
  else if Event.fit ev None (Some "此时") (Some "空闲") then 1
  else llm_poignancy w e_type ev.

(** [Agent._add_concept(e_type, event)]: the updated memory and the
    returned object, [None] being Python's [None]. *)
Definition _add_concept (w : env) (mem : Associate.t) (e_type : node_type)
    (ev : Event.t) : Associate.t * option Concept.t :=
  let poignancy := poignancy_of w e_type ev in
  match Associate.add_node (now w) (index_fails w) mem e_type ev poignancy
          None None with
  | (mem', None) =>
      (mem', Some (Concept.from_event (now w) ("tmp_" +:+ pretty (clock_ms w))
                     e_type ev poignancy))
  | (mem', Some _) => (mem', None)
  end.

(** ["chat" if event.fit(self.name, "对话") else "event"]. *)
Definition classify (a : t) (ev : Event.t) : node_type :=
  if Event.fit ev (Some (name a)) (Some "对话") None then NChat else NEvent.

(** The body of the loop over [enumerate(events[:att_bandwidth])]. *)
Definition percept_event (w : env) (a : t) (idx : Z) (ev : Event.t)
    : option t :=
  recent_e ← Associate.retrieve_events (associate a);
  recent_c ← Associate.retrieve_chats (associate a);
  let recent_nodes := Concept.describe <$> (recent_e ++ recent_c) in
  if bool_decide (Event.get_describe ev ∈ recent_nodes) then Some a
  else if bool_decide (Event.object ev = "idle")
          || bool_decide (Event.object ev = "空闲") then
    let node := Concept.from_event (now w) ("idle_" +:+ pretty idx) NEvent ev 1 in
    Some {| name := name a; status_poignancy := status_poignancy a;
            concepts := concepts a ++ [node]; associate := associate a;
            att_bandwidth := att_bandwidth a |}
  else
    match _add_concept w (associate a) (classify a ev) ev with
    | (mem', Some node) =>
        Some {| name := name a;
                status_poignancy := status_poignancy a + Concept.poignancy node;
                concepts := concepts a ++ [node]; associate := mem';
                att_bandwidth := att_bandwidth a |}
    | (mem', None) =>
        Some {| name := name a; status_poignancy := status_poignancy a;
                concepts := concepts a; associate := mem';
                att_bandwidth := att_bandwidth a |}
    end.

Fixpoint percept_loop (ws : nat -> env) (a : t) (idx : nat)
    (events : list Event.t) : option t :=
  match events with
  | [] => Some a
  | ev :: rest =>
      a' ← percept_event (ws idx) a (Z.of_nat idx) ev;
      percept_loop ws a' (S idx) rest
  end.

(** [Agent.percept] from the point where the events in scope have been
    collected and sorted by distance ([events]); [ws idx] is the
    environment met while the event at position [idx] is handled. *)
Definition percept (ws : nat -> env) (a : t) (events : list Event.t)
    : option t :=
  let a0 := {| name := name a; status_poignancy := status_poignancy a;
               concepts := []; associate := associate a;
               att_bandwidth := att_bandwidth a |} in
  a' ← percept_loop ws a0 0 (Py.slice_to events (att_bandwidth a));
  Some {| name := name a'; status_poignancy := status_poignancy a';
          concepts := filter (fun c => Event.subject (Concept.event c) <> name a')
                        (concepts a');
          associate := associate a'; att_bandwidth := att_bandwidth a' |}.

(** The first step of [_update_tile] in [Agent.move]:
    [if not tile.update_events(ev): tile.add_event(ev)]. *)
Definition update_or_add (tile : Tile.t) (ev : Event.t) : Tile.t :=
  let '(tile', u_events) := Tile.update_events tile ev "subject" in
  if bool_decide (u_events = ∅) then (Tile.add_event tile' (Tile.Obj ev)).1
  else tile'.

End Agent.

(* ===================================================================== *)
(** ** Scenario data *)
(* ===================================================================== *)

(** The corridor of the pathfinding scenario: a 9 x 5 maze whose only
    walkable tiles are (2,2) .. (6,2). *)
Definition corridor : Maze.t :=
  let X := true in let o := false in
  Maze.of_flags
    [ [X; X; X; X; X; X; X; X; X];
      [X; X; X; X; X; X; X; X; X];
      [X; X; o; o; o; o; o; X; X];
      [X; X; X; X; X; X; X; X; X];
      [X; X; X; X; X; X; X; X; X] ].

(** The same corridor with (4,2) blocked. *)
Definition corridor_blocked : Maze.t :=
  let X := true in let o := false in
  Maze.of_flags
    [ [X; X; X; X; X; X; X; X; X];
      [X; X; X; X; X; X; X; X; X];
      [X; X; o; o; X; o; o; X; X];
      [X; X; X; X; X; X; X; X; X];
      [X; X; X; X; X; X; X; X; X] ].

(** The walkable tiles of the corridor, west to east. *)
Definition corridor_cells : list (Z * Z) := [(2, 2); (3, 2); (4, 2); (5, 2); (6, 2)].

(** The straight walk along row 2 from column [a] to column [b]. *)
Definition straight (a b : Z) : list (Z * Z) :=
  if a <=? b then (fun x => (x, 2)) <$> seqZ a (b - a + 1)
  else rev ((fun x => (x, 2)) <$> seqZ b (a - b + 1)).

(** A 3 x 3 maze without any collision tile. *)
Definition open3 : Maze.t :=
  Maze.of_flags [ [false; false; false];
                  [false; false; false];
                  [false; false; false] ].

Definition address_keys : list string := ["world"; "sector"; "arena"; "game_object"].

Definition alice_idle : Event.t := Event.init "Alice" None None None None None.

Definition alice_chat : Event.t :=
  Event.init "Alice" (Some "对话") (Some "Bob") None None None.

Definition alice_sleeps : Event.t :=
  Event.init "Alice" (Some "正在") (Some "睡觉") (Some ["town"; "home"])
    (Some "Alice 正在 睡觉") (Some "z").

(** A tile of the open world (address depth 1, no seeded event). *)
Definition tile0 : Tile.t := Tile.init (1, 1) "town" address_keys [] false.

(** The same tile once Alice stands on it. *)
Definition tile_alice : Tile.t := (Tile.add_event tile0 (Tile.Obj alice_idle)).1.

(** Alice's spatial memory: she knows the desk of the library and lives
    in room 1 of the dorm. *)
Definition alice_spatial : Spatial.t :=
  Spatial.init
    (Spatial.Dict
       [("town",
         Spatial.Dict
           [("campus", Spatial.Dict [("library", Spatial.Leaves ["desk"])])])])
    (Some [("living_area", ["town"; "dorm"; "room 1"])]).

(** The same memory once she has seen the shelf of the library. *)
Definition alice_spatial_shelf : Spatial.t :=
  default alice_spatial
    (Spatial.add_leaf alice_spatial ["town"; "campus"; "library"; "shelf"]).

(** The configuration of a 4 x 3 maze with a wall tile and a desk. *)
Definition small_config : list Maze.tile_config :=
  [ {| Maze.tc_coord := (1, 1); Maze.tc_address := []; Maze.tc_collision := true |};
    {| Maze.tc_coord := (2, 1); Maze.tc_address := ["campus"; "library"; "desk"];
       Maze.tc_collision := false |} ].

(** A tile with a full address: the desk of the library. *)
Definition tile_desk : Tile.t :=
  Tile.init (2, 3) "town" address_keys ["campus"; "library"; "desk"] false.

Definition bob_reads : Event.t :=
  Event.init "Bob" (Some "正在") (Some "读书") (Some ["town"; "library"]) None None.

Definition bob_cooks : Event.t :=
  Event.init "Bob" (Some "正在") (Some "做饭") (Some ["town"; "home"]) None None.

Definition carol_paints : Event.t :=
  Event.init "Carol" (Some "正在") (Some "画画") (Some ["town"; "studio"]) None None.

Definition dave_runs : Event.t :=
  Event.init "Dave" (Some "正在") (Some "跑步") (Some ["town"; "park"]) None None.

(** [n] is the limit [max_memory]; the three insertions all succeed. *)
Definition store_after_three (n : Z) : Associate.t :=
  let a0 := Associate.init 8 n in
  let a1 := (Associate.add_node 1000 0 a0 NEvent bob_reads 4 None None).1 in
  let a2 := (Associate.add_node 1600 0 a1 NEvent bob_cooks 3 None None).1 in
  (Associate.add_node 2200 0 a2 NEvent carol_paints 5 None None).1.

(** A store saved without a memory limit and reloaded with
    [max_memory = 3]: three event nodes, all in the vector store. *)
Definition store_reloaded : Associate.t :=
  let a := store_after_three (-1) in
  {| Associate.index := Associate.index a;
     Associate.mem_event := Associate.mem_event a;
     Associate.mem_thought := Associate.mem_thought a;
     Associate.mem_chat := Associate.mem_chat a;
     Associate.retention := Associate.retention a;
     Associate.max_memory := 3 |}.

(** Alice with an empty, unlimited memory and nothing accumulated. *)
Definition alice : Agent.t :=
  {| Agent.name := "Alice"; Agent.status_poignancy := 0; Agent.concepts := [];
     Agent.associate := Associate.init 8 (-1); Agent.att_bandwidth := 8 |}.

(** Surroundings in which the model scores every event 4 and the vector
    store fails [fails] times in a row. *)
Definition scores_four (fails : nat) : Agent.env :=
  {| Agent.now := 1000; Agent.clock_ms := 1700000000000;
     Agent.llm_poignancy := fun _ _ => 4; Agent.index_fails := fails |}.

Definition erin_sings : Event.t :=
  Event.init "Erin" (Some "正在") (Some "唱歌") (Some ["town"; "park"]) None None.

(** A two-plan day: sleep until 08:00, then four hours of office work
    split into two sub-plans. *)
Definition plan_sleep : Schedule.plan :=
  {| Schedule.idx := 0; Schedule.describe := "睡觉"; Schedule.start := 0;
     Schedule.duration := 480; Schedule.decompose_of := [] |}.

Definition plan_work : Schedule.plan :=
  {| Schedule.idx := 1; Schedule.describe := "在办公室工作"; Schedule.start := 480;
     Schedule.duration := 240;
     Schedule.decompose_of :=
       [ {| Schedule.idx := 0; Schedule.describe := "查看邮件"; Schedule.start := 480;
            Schedule.duration := 60; Schedule.decompose_of := [] |};
         {| Schedule.idx := 1; Schedule.describe := "写报告"; Schedule.start := 540;
            Schedule.duration := 180; Schedule.decompose_of := [] |} ] |}.

(** The provider of the failing run: the model answers "0:00" to the
    [wake_up] prompt at once. *)
Definition midnight_provider (i : nat) : option string := Some "0:00".

(** The [wake_up] callback on that answer: the hour 0. *)
Definition wake_up_callback (response : string) : option LLMModel.value :=
  if bool_decide (response = "0:00") then Some (LLMModel.VInt 0) else None.

(** A morning built by [add_plan]: sleep, breakfast, work. *)
Definition morning : list Schedule.plan :=
  let s1 := (Schedule.add_plan [] "睡觉" 420 []).1 in
  let s2 := (Schedule.add_plan s1 "吃早饭" 60 []).1 in
  (Schedule.add_plan s2 "工作" 240 []).1.

(** A provider of embeddings that raises, then answers an empty vector,
    then raises again, then answers a vector. *)
Definition shaky_embedding (i : nat) : option LLMModel.value :=
  match i with
  | 1%nat => Some (LLMModel.VList [])
  | 3%nat => Some (LLMModel.VList [LLMModel.VInt 7; LLMModel.VInt 9])
  | _ => None
  end.

(* ===================================================================== *)
(** ** Properties: Python primitives *)
(* ===================================================================== *)

Example str_in_cn : Py.str_in "睡" "去睡觉" = true /\ Py.str_in "床" "去睡觉" = false.
Proof. split; reflexivity. Qed.

Example split_join : Py.split ":" (Py.join ":" ["w"; "s"; "a"]) = ["w"; "s"; "a"]
  /\ Py.split ":" "" = [""].
Proof. split; reflexivity. Qed.

Example index_wraps : Py.index [10; 20; 30] (-1) = Some 30
  /\ Py.index [10; 20; 30] 3 = None /\ Py.index [10; 20; 30] (-4) = None.
Proof. repeat split; reflexivity. Qed.

Section py_index.
Context {A : Type}.
Implicit Types (l : list A) (i : Z).

Lemma index_nonneg l i :
  0 <= i < Z.of_nat (length l) -> Py.index l i = l !! Z.to_nat i.
Proof.
  intros H. unfold Py.index. cbv zeta.
  destruct (Z.leb_spec 0 i), (Z.ltb_spec i (Z.of_nat (length l)));
    simpl; try lia; reflexivity.
Qed.

Lemma index_neg l i :
  - Z.of_nat (length l) <= i < 0 ->
  Py.index l i = l !! Z.to_nat (Z.of_nat (length l) + i).
Proof.
  intros H. unfold Py.index. cbv zeta.
  destruct (Z.leb_spec 0 i), (Z.ltb_spec i (Z.of_nat (length l))),
    (Z.leb_spec (- Z.of_nat (length l)) i), (Z.ltb_spec i 0);
    simpl; try lia; reflexivity.
Qed.

Lemma index_out l i :
  i < - Z.of_nat (length l) \/ Z.of_nat (length l) <= i ->
  Py.index l i = None.
Proof.
  intros H. unfold Py.index. cbv zeta.
  destruct (Z.leb_spec 0 i), (Z.ltb_spec i (Z.of_nat (length l))),
    (Z.leb_spec (- Z.of_nat (length l)) i), (Z.ltb_spec i 0);
    simpl; try lia; reflexivity.
Qed.

Lemma index_minus_one l : Py.index l (-1) = last l.
Proof.
  rewrite last_lookup. destruct l as [|x l]; [reflexivity|].
  rewrite index_neg by (simpl length; lia).
  f_equal. simpl length. lia.
Qed.
End py_index.

(* ===================================================================== *)
(** ** Properties: Event *)
(* ===================================================================== *)

Lemma or_str_falsy x d : Py.falsy x = true -> Py.or_str x d = d.
Proof. destruct x as [[|c s]|]; simpl; congruence. Qed.

Lemma eqb_refl e : Event.eqb e e = true.
Proof. unfold Event.eqb. by apply bool_decide_eq_true. Qed.

Lemma eqb_sym a b : Event.eqb a b = Event.eqb b a.
Proof. unfold Event.eqb. apply bool_decide_ext. split; congruence. Qed.

(** C10. [Event.update] with [predicate] and [object] omitted or falsy
    resets the predicate to "此时" and the object to "空闲" whatever they
    were before; [describe] keeps its value when the argument is omitted
    or falsy; subject, address and emoji are never changed. *)
Theorem update_resets_predicate_object (e : Event.t) (p o d : option string) :
  (Py.falsy p = true -> Event.predicate (Event.update e p o d) = "此时") /\
  (Py.falsy o = true -> Event.object (Event.update e p o d) = "空闲") /\
  (Py.falsy d = true ->
     Event.describe (Event.update e p o d) = Event.describe e) /\
  Event.subject (Event.update e p o d) = Event.subject e /\
  Event.address (Event.update e p o d) = Event.address e /\
  Event.emoji (Event.update e p o d) = Event.emoji e.
Proof.
  repeat split; try reflexivity; intros H; simpl; by rewrite or_str_falsy.
Qed.

(** Alice asleep, updated without arguments and with empty strings: the
    predicate "正在" and the object "睡觉" are lost, the rest stays. *)
Lemma update_resets_predicate_object_witness :
  Event.predicate alice_sleeps = "正在" /\ Event.object alice_sleeps = "睡觉" /\
  Event.predicate (Event.update alice_sleeps None (Some "") None) = "此时" /\
  Event.object (Event.update alice_sleeps None (Some "") None) = "空闲" /\
  Event.describe (Event.update alice_sleeps None (Some "") None) = "Alice 正在 睡觉" /\
  Event.emoji (Event.update alice_sleeps None (Some "") None) = "z".
Proof.
  destruct (update_resets_predicate_object alice_sleeps None (Some "") None)
    as (Hp & Ho & Hd & _ & _ & He).
  split; [reflexivity|]. split; [reflexivity|].
  split; [apply Hp; reflexivity|]. split; [apply Ho; reflexivity|].
  split; [rewrite Hd; reflexivity | rewrite He; reflexivity].
Defined.

(* ===================================================================== *)
(** ** Properties: Tile *)
(* ===================================================================== *)

Section tile_events.
Implicit Types (m : gmap string Event.t) (e ev : Event.t) (tile : Tile.t).

Lemma all_differ_true m ev :
  Tile.all_differ m ev = true <->
  forall k e, m !! k = Some e -> Event.eqb e ev = false.
Proof. unfold Tile.all_differ. rewrite bool_decide_eq_true. reflexivity. Qed.

Lemma all_differ_false m ev k e :
  m !! k = Some e -> Event.eqb e ev = true -> Tile.all_differ m ev = false.
Proof.
  intros Hk He. destruct (Tile.all_differ m ev) eqn:Hd; [|done].
  rewrite all_differ_true in Hd. specialize (Hd k e Hk). congruence.
Qed.

(** An equal event already on the tile: nothing is stored. *)
Lemma add_event_present tile a k e :
  Tile.events tile !! k = Some e ->
  Event.eqb e (Tile.to_event a) = true ->
  Tile.add_event tile a = (tile, Tile.to_event a).
Proof.
  intros Hk He. unfold Tile.add_event.
  by rewrite (all_differ_false _ _ _ _ Hk He).
Qed.

(** After [add_event] the event is on the tile. *)
Lemma add_event_stored tile a :
  exists k e, Tile.events (Tile.add_event tile a).1 !! k = Some e
              /\ Event.eqb e (Tile.to_event a) = true.
Proof.
  unfold Tile.add_event.
  destruct (Tile.all_differ (Tile.events tile) (Tile.to_event a)) eqn:Hd; simpl.
  - exists (Tile.tag (Tile.event_cnt tile)), (Tile.to_event a).
    split; [apply lookup_insert_eq | apply eqb_refl].
  - unfold Tile.all_differ in Hd. apply bool_decide_eq_false in Hd.
    apply map_not_Forall in Hd; [|apply _].
    destruct Hd as (k & e & Hk & He). exists k, e. split; [done|].
    by destruct (Event.eqb e (Tile.to_event a)).
Qed.

Lemma add_event_no_equal_pair tile a :
  Tile.no_equal_pair (Tile.events tile) ->
  Tile.no_equal_pair (Tile.events (Tile.add_event tile a).1).
Proof.
  intros Hinv. unfold Tile.add_event.
  destruct (Tile.all_differ (Tile.events tile) (Tile.to_event a)) eqn:Hd;
    simpl; [|done].
  rewrite all_differ_true in Hd.
  intros k1 k2 e1 e2 H1 H2 Heq.
  rewrite lookup_insert in H1. rewrite lookup_insert in H2.
  destruct (decide (Tile.tag (Tile.event_cnt tile) = k1)) as [E1|E1];
    destruct (decide (Tile.tag (Tile.event_cnt tile) = k2)) as [E2|E2];
    simplify_eq; try done.
  - specialize (Hd _ _ H2). rewrite eqb_sym in Heq. congruence.
  - specialize (Hd _ _ H1). congruence.
  - by eapply Hinv.
Qed.

Lemma update_events_subject tile ev match_ k :
  Event.subject <$> (Tile.events (Tile.update_events tile ev match_).1 !! k)
  = Event.subject <$> (Tile.events tile !! k).
Proof.
  simpl. rewrite lookup_fmap. destruct (Tile.events tile !! k) as [e|]; simpl; [|done].
  unfold Tile.updated.
  destruct (bool_decide (match_ = "subject")); simpl; [|done].
  case_bool_decide; simpl; congruence.
Qed.

Lemma update_events_one_per_subject tile ev match_ :
  Tile.one_per_subject (Tile.events tile) ->
  Tile.one_per_subject (Tile.events (Tile.update_events tile ev match_).1).
Proof.
  intros Hinv k1 k2 e1 e2 H1 H2 Hs.
  pose proof (update_events_subject tile ev match_ k1) as S1.
  pose proof (update_events_subject tile ev match_ k2) as S2.
  rewrite H1 in S1. rewrite H2 in S2. simpl in S1, S2.
  destruct (Tile.events tile !! k1) as [o1|] eqn:O1; [|done].
  destruct (Tile.events tile !! k2) as [o2|] eqn:O2; [|done].
  simpl in S1, S2. eapply (Hinv k1 k2 o1 o2); [done..|congruence].
Qed.

Lemma remove_events_one_per_subject tile s (oe : option Event.t) :
  Tile.one_per_subject (Tile.events tile) ->
  Tile.one_per_subject (Tile.events (Tile.remove_events tile s oe).1).
Proof.
  intros Hinv k1 k2 e1 e2 H1 H2 Hs. simpl in H1, H2.
  apply map_lookup_filter_Some in H1 as [H1 _].
  apply map_lookup_filter_Some in H2 as [H2 _].
  by eapply Hinv.
Qed.

Lemma add_event_one_per_subject tile a :
  Tile.one_per_subject (Tile.events tile) ->
  (forall k e, Tile.events tile !! k = Some e ->
               Event.subject e <> Event.subject (Tile.to_event a)) ->
  Tile.one_per_subject (Tile.events (Tile.add_event tile a).1).
Proof.
  intros Hinv Hnew. unfold Tile.add_event.
  destruct (Tile.all_differ (Tile.events tile) (Tile.to_event a)); simpl; [|done].
  intros k1 k2 e1 e2 H1 H2 Heq.
  rewrite lookup_insert in H1. rewrite lookup_insert in H2.
  destruct (decide (Tile.tag (Tile.event_cnt tile) = k1)) as [E1|E1];
    destruct (decide (Tile.tag (Tile.event_cnt tile) = k2)) as [E2|E2];
    simplify_eq; try done.
  - by destruct (Hnew _ _ H2).
  - by destruct (Hnew _ _ H1).
  - by eapply Hinv.
Qed.

(** A different event of a subject already on the tile is stored next to
    the old one. *)
Lemma add_event_second_subject tile ev k e :
  Tile.events tile !! k = Some e ->
  Event.subject e = Event.subject ev ->
  Tile.all_differ (Tile.events tile) ev = true ->
  Tile.events tile !! Tile.tag (Tile.event_cnt tile) = None ->
  let tile' := (Tile.add_event tile (Tile.Obj ev)).1 in
  Tile.events tile' !! k = Some e /\
  Tile.events tile' !! Tile.tag (Tile.event_cnt tile) = Some ev /\
  ~ Tile.one_per_subject (Tile.events tile').
Proof.
  intros Hk Hs Hd Hfresh. unfold Tile.add_event. simpl. rewrite Hd. simpl.
  assert (Tile.tag (Tile.event_cnt tile) <> k) as Hne by congruence.
  split; [by rewrite lookup_insert_ne|].
  split; [by rewrite lookup_insert_eq|].
  intros Hone. apply Hne. symmetry.
  eapply (Hone k _ e ev); [by rewrite lookup_insert_ne| by rewrite lookup_insert_eq |done].
Qed.
End tile_events.

(** C9. [Tile.add_event] is idempotent with respect to equal events:
    when an event equal to the argument (same subject, predicate, object,
    describe and joined address) is on the tile, the tile (event map and
    counter) is unchanged and the event is returned; hence adding the same
    event twice is the same as adding it once, and [add_event] never makes
    two entries of a tile hold equal events. *)
Theorem add_event_idempotent (tile : Tile.t) (a : Tile.event_arg)
    (k : string) (e : Event.t)
    (Hk : Tile.events tile !! k = Some e)
    (He : Event.key e = Event.key (Tile.to_event a)) :
  Tile.add_event tile a = (tile, Tile.to_event a) /\
  (forall tile0 : Tile.t,
      Tile.add_event (Tile.add_event tile0 a).1 a
      = ((Tile.add_event tile0 a).1, Tile.to_event a)) /\
  (forall tile0 : Tile.t,
      Tile.no_equal_pair (Tile.events tile0) ->
      Tile.no_equal_pair (Tile.events (Tile.add_event tile0 a).1)).
Proof.
  assert (Event.eqb e (Tile.to_event a) = true) as He'
    by (unfold Event.eqb; by apply bool_decide_eq_true).
  split; [by eapply add_event_present|].
  split.
  - intros tile0. destruct (add_event_stored tile0 a) as (k' & e' & Hk' & Heq).
    by eapply add_event_present.
  - intros tile0. apply add_event_no_equal_pair.
Qed.

(** Alice's idle event added to the tile she already stands on, once as
    an object and once as the list [["Alice", "此时", "空闲"]]. *)
Lemma add_event_idempotent_witness :
  Tile.add_event tile_alice (Tile.Lst "Alice" "此时" "空闲" None)
  = (tile_alice, alice_idle) /\
  Tile.event_cnt tile_alice = 1 /\
  map_to_list (Tile.events tile_alice) = [("e_0", alice_idle)].
Proof.
  split; [|split; vm_compute; reflexivity].
  apply (add_event_idempotent tile_alice (Tile.Lst "Alice" "此时" "空闲" None)
           "e_0" alice_idle); vm_compute; reflexivity.
Defined.

(** C3, as the claim states it, fails: Alice's chat event added by
    [add_event] to the tile holding her idle event does not replace it;
    the tile then has two events whose subject is Alice. *)
Lemma add_event_keeps_old_subject :
  Tile.one_per_subject (Tile.events tile_alice) /\
  map_to_list (Tile.events (Tile.add_event tile_alice (Tile.Obj alice_chat)).1)
  = [("e_1", alice_chat); ("e_0", alice_idle)] /\
  ~ Tile.one_per_subject
      (Tile.events (Tile.add_event tile_alice (Tile.Obj alice_chat)).1).
Proof.
  split; [|split].
  - intros k1 k2 e1 e2 H1 H2 _.
    change (Tile.events tile_alice) with ({["e_0" := alice_idle]} : gmap string Event.t) in *.
    apply lookup_singleton_Some in H1 as [<- _].
    apply lookup_singleton_Some in H2 as [<- _]. done.
  - vm_compute. reflexivity.
  - intros Hone.
    assert ("e_0" = "e_1") as Habs; [|discriminate Habs].
    apply (Hone "e_0" "e_1" alice_idle alice_chat); vm_compute; reflexivity.
Qed.

(** C3, amended. The invariant "at most one event per subject" is kept by
    [update_events] (which is what replaces the event of a subject) and by
    [remove_events]; [add_event] keeps it when no event of the new
    event's subject is on the tile, and otherwise, for an event that
    differs from all events of the tile, stores it under a fresh key next
    to the old event of that subject. *)
Theorem one_per_subject_tile_operations (tile : Tile.t) (ev : Event.t)
    (Hinv : Tile.one_per_subject (Tile.events tile)) :
  (forall match_,
      Tile.one_per_subject (Tile.events (Tile.update_events tile ev match_).1)) /\
  (forall s e,
      Tile.one_per_subject (Tile.events (Tile.remove_events tile s e).1)) /\
  ((forall k e, Tile.events tile !! k = Some e ->
                Event.subject e <> Event.subject ev) ->
   Tile.one_per_subject (Tile.events (Tile.add_event tile (Tile.Obj ev)).1)) /\
  (forall k e,
      Tile.events tile !! k = Some e ->
      Event.subject e = Event.subject ev ->
      Tile.all_differ (Tile.events tile) ev = true ->
      Tile.events tile !! Tile.tag (Tile.event_cnt tile) = None ->
      Tile.events (Tile.add_event tile (Tile.Obj ev)).1 !! k = Some e /\
      Tile.events (Tile.add_event tile (Tile.Obj ev)).1
        !! Tile.tag (Tile.event_cnt tile) = Some ev /\
      ~ Tile.one_per_subject (Tile.events (Tile.add_event tile (Tile.Obj ev)).1)).
Proof.
  split; [|split; [|split]].
  - intros match_. by apply update_events_one_per_subject.
  - intros s e. by apply remove_events_one_per_subject.
  - intros Hnew. by apply (add_event_one_per_subject tile (Tile.Obj ev)).
  - intros k e Hk Hs Hd Hfresh. by apply add_event_second_subject.
Qed.

(** On Alice's tile, [update_events] with her chat event replaces her idle
    event under the same key. *)
Lemma one_per_subject_tile_operations_witness :
  Tile.one_per_subject
    (Tile.events (Tile.update_events tile_alice alice_chat "subject").1) /\
  map_to_list (Tile.events (Tile.update_events tile_alice alice_chat "subject").1)
  = [("e_0", alice_chat)].
Proof.
  assert (Tile.one_per_subject (Tile.events tile_alice)) as Hinv.
  { intros k1 k2 e1 e2 H1 H2 _.
    change (Tile.events tile_alice) with ({["e_0" := alice_idle]} : gmap string Event.t) in *.
    apply lookup_singleton_Some in H1 as [<- _].
    apply lookup_singleton_Some in H2 as [<- _]. done. }
  destruct (one_per_subject_tile_operations tile_alice alice_chat Hinv)
    as [Hupd _].
  split; [exact (Hupd "subject") | vm_compute; reflexivity].
Defined.


(* ===================================================================== *)
(** ** Properties: Schedule *)
(* ===================================================================== *)

Section schedule.
Import Schedule.

(** When every plan has ended the scan finds nothing. *)
Lemma scan_plans_all_ended now ds :
  (forall p, In p ds -> start p + duration p <= now) ->
  scan_plans now ds = None.
Proof.
  induction ds as [|p ds IH]; intros Hall; [reflexivity|].
  simpl. replace (start p + duration p <=? now) with true.
  - apply IH. intros q Hq. apply Hall. by right.
  - symmetry. apply Z.leb_le. apply Hall. by left.
Qed.

(** The plan returned by the scan is a plan of the schedule that has not
    ended, and the sub-plan is the plan itself or one of its sub-plans. *)
Lemma scan_plans_member now ds p q :
  scan_plans now ds = Some (p, q) ->
  In p ds /\ now < start p + duration p /\ (q = p \/ In q (decompose_of p)).
Proof.
  induction ds as [|p0 ds IH]; [discriminate|]. simpl.
  destruct (start p0 + duration p0 <=? now) eqn:Hend.
  - intros H. destruct (IH H) as (? & ? & ?). auto.
  - intros [= <- <-]. apply Z.leb_gt in Hend.
    split; [by left|]. split; [done|].
    destruct (current_sub now (decompose_of p0)) as [d|] eqn:Hsub; simpl; [|by left].
    right. clear -Hsub. induction (decompose_of p0) as [|d0 l IHl]; [discriminate|].
    simpl in Hsub. destruct (_ <=? now); [right; auto|]. left. congruence.
Qed.
End schedule.

(** C8. [Schedule.current_plan] fails on an empty schedule (the fallback
    indexes [daily_schedule[-1]]); on every non-empty schedule it returns a
    pair (plan, sub-plan), and when every plan has ended at or before the
    current minute of the day the pair is the last plan twice. *)
Theorem current_plan_defined_iff_nonempty (total_minute : Z)
    (daily_schedule : list Schedule.plan) (Hne : daily_schedule <> []) :
  Schedule.current_plan total_minute [] = None /\
  (exists p q, Schedule.current_plan total_minute daily_schedule = Some (p, q)) /\
  ((forall p, In p daily_schedule ->
              (Schedule.plan_stamps p).2 <= total_minute) ->
   exists last_plan, last daily_schedule = Some last_plan /\
     Schedule.current_plan total_minute daily_schedule
     = Some (last_plan, last_plan)).
Proof.
  assert (exists l, last daily_schedule = Some l) as [l Hl].
  { destruct (last daily_schedule) eqn:E; [eauto|].
    apply last_None in E. contradiction. }
  split; [reflexivity|]. split.
  - unfold Schedule.current_plan.
    destruct (Schedule.scan_plans total_minute daily_schedule) as [[p q]|]; [eauto|].
    rewrite index_minus_one, Hl. simpl. eauto.
  - intros Hall. exists l. split; [done|].
    unfold Schedule.current_plan.
    rewrite scan_plans_all_ended by exact Hall.
    rewrite index_minus_one, Hl. reflexivity.
Qed.

(** A two-plan day read at 13:00, after both plans have ended, and at
    09:30, inside the second sub-plan of the second plan. *)
Lemma current_plan_defined_iff_nonempty_witness :
  Schedule.current_plan 780 [plan_sleep; plan_work] = Some (plan_work, plan_work)
  /\ (exists q, Schedule.current_plan 570 [plan_sleep; plan_work]
                = Some (plan_work, q) /\ Schedule.describe q = "写报告").
Proof.
  assert ([plan_sleep; plan_work] <> []) as Hne by discriminate.
  destruct (current_plan_defined_iff_nonempty 780 _ Hne) as (_ & _ & Hlast).
  destruct Hlast as (l & Hl & Hcur).
  - intros p [<-|[<-|[]]]; vm_compute; discriminate.
  - injection Hl as <-. split; [exact Hcur|].
    eexists. split; vm_compute; reflexivity.
Defined.

(** C6 fails on the code: [Schedule.decompose] answers [true] for every
    undecomposed plan whose describe has neither "sleep" nor "bed", before
    any Chinese keyword is looked at and whatever the duration; an
    eight-hour "睡觉" plan is reported decomposable. *)
Theorem decompose_chinese_sleep_decomposable (p : Schedule.plan)
    (Hd : Schedule.decompose_of p = [])
    (Hs : Py.str_in "sleep" (Schedule.describe p) = false)
    (Hb : Py.str_in "bed" (Schedule.describe p) = false) :
  Schedule.decompose p = true.
Proof. unfold Schedule.decompose. rewrite Hd, Hs, Hb. reflexivity. Qed.

Lemma decompose_chinese_sleep_decomposable_witness :
  Schedule.duration plan_sleep = 480 /\
  Py.str_in "睡" (Schedule.describe plan_sleep) = true /\
  Schedule.decompose plan_sleep = true.
Proof.
  split; [reflexivity|]. split; [reflexivity|].
  apply (decompose_chinese_sleep_decomposable plan_sleep); reflexivity.
Defined.

(** The other answers of the keyword cascade: an English-only sleep plan
    of eight hours is decomposable, and a plan naming sleep in both
    languages is never decomposable, however short. *)
Example decompose_cascade :
  Schedule.decompose (Schedule.Plan 0 "sleeping" 0 480 []) = true /\
  Schedule.decompose (Schedule.Plan 0 "sleep 小睡" 780 20 []) = false /\
  Schedule.decompose (Schedule.Plan 0 "go to bed 上床" 1380 60 []) = false.
Proof. repeat split; reflexivity. Qed.

(* ===================================================================== *)
(** ** Properties: LLMModel.completion *)
(* ===================================================================== *)

Section completion_props.
Import LLMModel.
Variable _completion : nat -> option string.
Variable callback : option (string -> option value).
Variable caller : string.

Local Abbreviation attempts := (attempts _completion callback caller).
Local Abbreviation failed := (failed _completion callback).
Local Abbreviation respond := (respond callback).

Lemma attempts_all_failed n : forall i llm,
  (forall j, (i <= j < i + n)%nat -> failed j) ->
  (attempts n i llm).1 = VNone.
Proof.
  induction n as [|n IH]; intros i llm Hall; [reflexivity|].
  pose proof (Hall i ltac:(lia)) as Hi. unfold LLMModel.failed in Hi.
  simpl. destruct (_completion i) as [text|].
  - destruct (respond text) as [v|].
    + rewrite Hi. apply IH. intros j Hj. apply Hall. lia.
    + apply IH. intros j Hj. apply Hall. lia.
  - apply IH. intros j Hj. apply Hall. lia.
Qed.

Lemma attempts_first_response n : forall i k llm text v,
  (forall j, (i <= j < k)%nat -> failed j) ->
  (i <= k < i + n)%nat ->
  _completion k = Some text -> respond text = Some v -> is_none v = false ->
  (attempts n i llm).1 = v.
Proof.
  induction n as [|n IH]; intros i k llm text v Hbefore Hk Hc Hr Hv; [lia|].
  destruct (decide (i = k)) as [->|Hne].
  - simpl. rewrite Hc, Hr, Hv. reflexivity.
  - pose proof (Hbefore i ltac:(lia)) as Hi. unfold LLMModel.failed in Hi.
    assert (forall j, (S i <= j < k)%nat -> failed j) as Hb'
      by (intros j Hj; apply Hbefore; lia).
    simpl. destruct (_completion i) as [t0|].
    + destruct (respond t0) as [v0|].
      * rewrite Hi. eapply IH; eauto. lia.
      * eapply IH; eauto. lia.
    + eapply IH; eauto. lia.
Qed.

Lemma completion_value llm retry failsafe :
  (completion _completion callback caller llm retry failsafe).1
  = let r := (attempts (Z.to_nat retry) 0
                {| meta_responses := [];
                   summary := setdefault caller (summary llm) |}).1 in
    if truthy r then r else failsafe.
Proof.
  unfold completion. destruct (attempts _ _ _) as [r l1]. reflexivity.
Qed.

(** The part of the contract that holds: when every attempt failed the
    failsafe is returned. *)
Lemma completion_all_failed llm retry failsafe :
  (forall j, (j < Z.to_nat retry)%nat -> failed j) ->
  (completion _completion callback caller llm retry failsafe).1 = failsafe.
Proof.
  intros Hall. rewrite completion_value. cbv zeta.
  rewrite attempts_all_failed; [reflexivity|].
  intros j Hj. apply Hall. lia.
Qed.

(** ... and a truthy response of the first attempt that does not fail is
    returned unchanged. *)
Lemma completion_truthy llm retry failsafe k text v :
  (forall j, (j < k)%nat -> failed j) -> (k < Z.to_nat retry)%nat ->
  _completion k = Some text -> respond text = Some v -> truthy v = true ->
  (completion _completion callback caller llm retry failsafe).1 = v.
Proof.
  intros Hb Hk Hc Hr Hv. rewrite completion_value. cbv zeta.
  rewrite (attempts_first_response _ 0%nat k _ text v); auto.
  - by rewrite Hv.
  - intros j Hj. apply Hb. lia.
  - lia.
  - by destruct v.
Qed.

(** A response that is not [None] but falsy ([0], [False], [""], [[]])
    ends the retries as a success and is then replaced by the failsafe. *)
Lemma completion_falsy llm retry failsafe k text v :
  (forall j, (j < k)%nat -> failed j) -> (k < Z.to_nat retry)%nat ->
  _completion k = Some text -> respond text = Some v ->
  is_none v = false -> truthy v = false ->
  (completion _completion callback caller llm retry failsafe).1 = failsafe.
Proof.
  intros Hb Hk Hc Hr Hn Hv. rewrite completion_value. cbv zeta.
  rewrite (attempts_first_response _ 0%nat k _ text v); auto.
  - by rewrite Hv.
  - intros j Hj. apply Hb. lia.
  - lia.
Qed.
End completion_props.

(** C5 fails on the code: the value returned is [response or failsafe],
    so when the first attempt that does not fail yields a response that is
    not [None] but falsy, the failsafe is returned although an attempt
    succeeded. *)
Theorem completion_falsy_response_gets_failsafe
    (_completion : nat -> option string)
    (callback : option (string -> option LLMModel.value)) (caller : string)
    (llm : LLMModel.t) (retry : Z) (failsafe : LLMModel.value)
    (text : string) (v : LLMModel.value)
    (Hretry : 0 < retry)
    (Hfirst : _completion 0%nat = Some text)
    (Hparsed : LLMModel.respond callback text = Some v)
    (Hnot_none : LLMModel.is_none v = false)
    (Hfalsy : LLMModel.truthy v = false) :
  (LLMModel.completion _completion callback caller llm retry failsafe).1
  = failsafe.
Proof.
  apply (completion_falsy _ _ _ _ _ _ 0%nat text v); auto; lia.
Qed.

(** The wake-up hour 0 parsed from the first answer is replaced by the
    failsafe 6, while the counters record one attempt and one success. *)
Lemma completion_falsy_response_gets_failsafe_witness :
  (LLMModel.completion midnight_provider (Some wake_up_callback) "wake_up"
     LLMModel.init 10 (LLMModel.VInt 6)).1 = LLMModel.VInt 6 /\
  map_to_list
    (LLMModel.summary
       (LLMModel.completion midnight_provider (Some wake_up_callback) "wake_up"
          LLMModel.init 10 (LLMModel.VInt 6)).2)
  = [("wake_up", (1, 1, 0)); ("total", (1, 1, 0))].
Proof.
  split; [|vm_compute; reflexivity].
  apply (completion_falsy_response_gets_failsafe midnight_provider
           (Some wake_up_callback) "wake_up" LLMModel.init 10 (LLMModel.VInt 6)
           "0:00" (LLMModel.VInt 0)); [lia | reflexivity..].
Defined.

(* ===================================================================== *)
(** ** Properties: Associate.add_node *)
(* ===================================================================== *)

Section associate_props.
Implicit Types (a : Associate.t) (ix : LlamaIndex.t) (ty : node_type).

Lemma index_add_node_ok fails ix text md :
  (fails < LlamaIndex.max_retries)%nat ->
  let nd := {| LlamaIndex.id_ := "node_" +:+ pretty (LlamaIndex.max_nodes ix);
               LlamaIndex.text := text; LlamaIndex.meta := md |} in
  LlamaIndex.add_node fails ix text md
  = ({| LlamaIndex.max_nodes := LlamaIndex.max_nodes ix + Z.of_nat fails + 1;
        LlamaIndex.docs := <[LlamaIndex.id_ nd := nd]> (LlamaIndex.docs ix) |},
     Some nd).
Proof.
  intros Hf nd. subst nd. unfold LlamaIndex.max_retries in Hf.
  destruct fails as [|[|[|fails]]]; [| | |lia];
    unfold LlamaIndex.add_node; simpl; do 2 f_equal; lia.
Qed.

Lemma index_add_node_fail fails ix text md :
  (LlamaIndex.max_retries <= fails)%nat ->
  (LlamaIndex.add_node fails ix text md).2 = None.
Proof.
  unfold LlamaIndex.max_retries. intros Hf.
  destruct fails as [|[|[|fails]]]; [lia..|]. reflexivity.
Qed.

Lemma memory_store a ix ty l : Associate.memory (Associate.store a ix ty l) ty = l.
Proof. by destruct ty. Qed.

Lemma index_store a ix ty l : Associate.index (Associate.store a ix ty l) = ix.
Proof. reflexivity. Qed.

(** A successful insertion into the vector store always yields a
    concept. *)
Lemma add_node_inserted now fails a ty ev poignancy create expire :
  (fails < LlamaIndex.max_retries)%nat ->
  exists c, (Associate.add_node now fails a ty ev poignancy create expire).2 = Some c
            /\ Concept.poignancy c = poignancy
            /\ Concept.node_id c
               = "node_" +:+ pretty (LlamaIndex.max_nodes (Associate.index a)).
Proof.
  intros Hf. unfold Associate.add_node.
  rewrite index_add_node_ok by exact Hf. cbv zeta.
  destruct (_ && _); eexists; (split; [reflexivity|split; reflexivity]).
Qed.
End associate_props.

(** C4 fails on the code. With [0 < max_memory <= len(memory)] after the
    insertion, the vector store loses [memory[max_memory:]] but the list
    becomes [memory[:max_memory - 1]]: it keeps [max_memory - 1] entries,
    and the entry at position [max_memory - 1] leaves the list without
    being deleted from the vector store. *)
Theorem add_node_eviction_off_by_one (now : Z) (fails : nat) (a : Associate.t)
    (ty : node_type) (ev : Event.t) (poignancy : Z) (create expire : option Z)
    (x : string)
    (Hmax : 0 < Associate.max_memory a)
    (Hok : (fails < LlamaIndex.max_retries)%nat)
    (Hfull : Associate.max_memory a
             <= Z.of_nat (length (Associate.memory a ty)) + 1) :
  let id := "node_" +:+ pretty (LlamaIndex.max_nodes (Associate.index a)) in
  let mem := id :: Associate.memory a ty in
  let a' := (Associate.add_node now fails a ty ev poignancy create expire).1 in
  Associate.memory a' ty = take (Z.to_nat (Associate.max_memory a - 1)) mem /\
  Z.of_nat (length (Associate.memory a' ty)) = Associate.max_memory a - 1 /\
  (NoDup mem -> mem !! Z.to_nat (Associate.max_memory a - 1) = Some x ->
   (x ∉ Associate.memory a' ty) /\
   LlamaIndex.docs (Associate.index a') !! x
   = (<[id := {| LlamaIndex.id_ := id; LlamaIndex.text := Event.get_describe ev;
                LlamaIndex.meta :=
                  LlamaIndex.meta_of ty ev poignancy (default now create)
                    (default (default now create + days30) expire) |}]>
        (LlamaIndex.docs (Associate.index a))) !! x).
Proof.
  intros id mem a'. subst a'. unfold Associate.add_node.
  rewrite index_add_node_ok by exact Hok. cbv zeta.
  change (LlamaIndex.id_ _) with id. fold mem.
  assert (Z.of_nat (length mem) = Z.of_nat (length (Associate.memory a ty)) + 1)
    as Hlen by (subst mem; simpl length; lia).
  replace (Associate.max_memory a <=? Z.of_nat (length mem)) with true
    by (symmetry; apply Z.leb_le; lia).
  replace (0 <? Associate.max_memory a) with true
    by (symmetry; by apply Z.ltb_lt).
  simpl andb. cbv iota. simpl fst.
  rewrite memory_store, index_store. unfold Py.slice_to, Py.slice_from.
  split; [reflexivity|]. split; [rewrite length_take; lia|].
  intros Hnd Hx. split.
  - intros Hin. apply elem_of_take in Hin as (i & Hi & Hlt).
    pose proof (NoDup_lookup _ _ _ _ Hnd Hi Hx). lia.
  - simpl. apply lookup_foldr_delete_not_elem_of.
    intros Hin. apply list_elem_of_lookup in Hin as [i Hi].
    rewrite lookup_drop in Hi.
    pose proof (NoDup_lookup _ _ _ _ Hnd Hi Hx). lia.
Qed.

(** The reloaded store holds node_2, node_1, node_0 and the limit is 3.
    Inserting node_3 leaves the list with 2 entries; node_1 is no longer
    listed but is still in the vector store, only node_0 was deleted. *)
Lemma add_node_eviction_off_by_one_witness :
  Associate.mem_event store_reloaded = ["node_2"; "node_1"; "node_0"] /\
  let a' := (Associate.add_node 2800 0 store_reloaded NEvent dave_runs 2
               None None).1 in
  Associate.mem_event a' = ["node_3"; "node_2"] /\
  ("node_1" ∉ Associate.mem_event a') /\
  LlamaIndex.has_node (Associate.index a') "node_1" = true /\
  LlamaIndex.has_node (Associate.index a') "node_0" = false.
Proof.
  split; [vm_compute; reflexivity|]. intros a'.
  destruct (add_node_eviction_off_by_one 2800 0 store_reloaded NEvent dave_runs 2
              None None "node_1") as (Hmem & _ & Horphan).
  - reflexivity.
  - unfold LlamaIndex.max_retries. lia.
  - vm_compute. discriminate.
  - split; [exact Hmem|].
    destruct Horphan as [Hnotin _].
    + refine (bool_decide_unpack _ _). vm_compute. exact I.
    + vm_compute. reflexivity.
    + split; [exact Hnotin|]. split; vm_compute; reflexivity.
Defined.

(** The same defect on a store that never exceeded its limit: with
    [max_memory = 3] the third insertion already shortens the list to two
    entries and orphans node_0 in the vector store. *)
Example add_node_limit_three :
  Associate.mem_event (store_after_three 3) = ["node_2"; "node_1"] /\
  LlamaIndex.has_node (Associate.index (store_after_three 3)) "node_0" = true.
Proof. split; vm_compute; reflexivity. Qed.

(* ===================================================================== *)
(** ** Properties: Agent.percept *)
(* ===================================================================== *)

Section agent_props.
Implicit Types (w : Agent.env) (a : Agent.t) (ev : Event.t).

(** [_add_concept] has no [return concept] after a successful
    insertion: it answers [None] exactly when the node was stored. *)
Lemma add_concept_none_when_stored w mem ty ev :
  (Agent.index_fails w < LlamaIndex.max_retries)%nat ->
  (Agent._add_concept w mem ty ev).2 = None.
Proof.
  intros Hf. unfold Agent._add_concept. cbv zeta.
  destruct (add_node_inserted (Agent.now w) (Agent.index_fails w) mem ty ev
              (Agent.poignancy_of w ty ev) None None Hf) as (c & Hc & _).
  destruct (Associate.add_node _ _ _ _ _ _ _ _) as [mem' r].
  simpl in Hc. subst r. reflexivity.
Qed.

(** When the vector store gives up, a transient concept carrying the
    score is returned. *)
Lemma add_concept_tmp_when_failed w mem ty ev :
  (LlamaIndex.max_retries <= Agent.index_fails w)%nat ->
  exists c, (Agent._add_concept w mem ty ev).2 = Some c /\
            Concept.poignancy c = Agent.poignancy_of w ty ev.
Proof.
  intros Hf. unfold Agent._add_concept, Associate.add_node. cbv zeta.
  pose proof (index_add_node_fail (Agent.index_fails w) (Associate.index mem)
                (Event.get_describe ev)
                (LlamaIndex.meta_of ty ev (Agent.poignancy_of w ty ev)
                   (Agent.now w) (Agent.now w + days30)) Hf) as Hnone.
  simpl default. destruct (LlamaIndex.add_node _ _ _ _) as [ix r].
  simpl in Hnone. subst r. eexists. split; reflexivity.
Qed.
End agent_props.

(** C1 fails on the code. For a newly perceived non-idle event whose
    node is stored in the associate memory, [_add_concept] returns [None]
    (its [return concept] is missing), so percept takes the branch that
    skips the update: [status.poignancy] and the frame's concepts are left
    as they were, although the memory now holds a concept with the
    score. *)
Theorem percept_drops_poignancy_of_stored_event (w : Agent.env) (a : Agent.t)
    (idx : Z) (ev : Event.t) (recent_e recent_c : list Concept.t)
    (He : Associate.retrieve_events (Agent.associate a) = Some recent_e)
    (Hc : Associate.retrieve_chats (Agent.associate a) = Some recent_c)
    (Hnew : Event.get_describe ev ∉ Concept.describe <$> (recent_e ++ recent_c))
    (Hidle_en : Event.object ev <> "idle")
    (Hidle_cn : Event.object ev <> "空闲")
    (Hstored : (Agent.index_fails w < LlamaIndex.max_retries)%nat) :
  exists c mem',
    Associate.add_node (Agent.now w) (Agent.index_fails w) (Agent.associate a)
      (Agent.classify a ev) ev (Agent.poignancy_of w (Agent.classify a ev) ev)
      None None = (mem', Some c) /\
    Concept.poignancy c = Agent.poignancy_of w (Agent.classify a ev) ev /\
    Agent.percept_event w a idx ev
    = Some {| Agent.name := Agent.name a;
              Agent.status_poignancy := Agent.status_poignancy a;
              Agent.concepts := Agent.concepts a;
              Agent.associate := mem';
              Agent.att_bandwidth := Agent.att_bandwidth a |}.
Proof.
  destruct (add_node_inserted (Agent.now w) (Agent.index_fails w)
              (Agent.associate a) (Agent.classify a ev) ev
              (Agent.poignancy_of w (Agent.classify a ev) ev) None None Hstored)
    as (c & Hadd & Hp & _).
  destruct (Associate.add_node _ _ _ _ _ _ _ _) as [mem' r] eqn:Hnode.
  simpl in Hadd. subst r. exists c, mem'. split; [reflexivity|]. split; [exact Hp|].
  unfold Agent.percept_event. rewrite He, Hc. simpl.
  rewrite bool_decide_eq_false_2 by exact Hnew.
  rewrite (bool_decide_eq_false_2 _ Hidle_en), (bool_decide_eq_false_2 _ Hidle_cn).
  simpl. unfold Agent._add_concept. cbv zeta. rewrite Hnode. reflexivity.
Qed.

(** Alice sees Bob reading; the model scores the event 4 and the vector
    store takes the node at once. Her poignancy stays 0 and the frame
    stays empty, while node_0 is in her event memory. *)
Lemma percept_drops_poignancy_of_stored_event_witness :
  exists a', Agent.percept_event (scores_four 0) alice 0 bob_reads = Some a' /\
    Agent.status_poignancy a' = 0 /\ Agent.concepts a' = [] /\
    Associate.mem_event (Agent.associate a') = ["node_0"] /\
    (Concept.poignancy <$>
       (LlamaIndex.find_node (Associate.index (Agent.associate a')) "node_0"
          ≫= fun nd => Some (Concept.from_node nd))) = Some 4.
Proof.
  destruct (percept_drops_poignancy_of_stored_event (scores_four 0) alice 0
              bob_reads [] []) as (c & mem' & Hadd & Hp & Hper).
  - reflexivity.
  - reflexivity.
  - simpl. apply not_elem_of_nil.
  - discriminate.
  - discriminate.
  - unfold LlamaIndex.max_retries. simpl. lia.
  - eexists. split; [exact Hper|]. simpl.
    split; [reflexivity|]. split; [reflexivity|].
    injection Hadd as <- _. split; vm_compute; reflexivity.
Defined.

(** The reflection scenario: five new events scored 4 each. With a
    working vector store nothing is accumulated; when every insertion
    fails the transient concepts add up to 20. *)
Example percept_five_events :
  (Agent.status_poignancy <$>
     Agent.percept (fun _ => scores_four 0) alice
       [bob_reads; bob_cooks; carol_paints; dave_runs; erin_sings]) = Some 0 /\
  (Agent.status_poignancy <$>
     Agent.percept (fun _ => scores_four 3) alice
       [bob_reads; bob_cooks; carol_paints; dave_runs; erin_sings]) = Some 20.
Proof. split; vm_compute; reflexivity. Qed.

(* ===================================================================== *)
(** ** Properties: Maze.tile_at and Maze.get_around *)
(* ===================================================================== *)

Section maze_lookup.
Variable m : Maze.t.
Hypothesis Hwf : Maze.well_formed m.

Lemma row_width y row :
  Py.index (Maze.tiles m) y = Some row ->
  Z.of_nat (length row) = Maze.maze_width m.
Proof.
  intros Hrow. destruct Hwf as [_ Hrows].
  rewrite Forall_forall in Hrows. apply Hrows.
  unfold Py.index in Hrow. cbv zeta in Hrow.
  destruct (_ && _); [by eapply list_elem_of_lookup_2|].
  destruct (_ && _); [by eapply list_elem_of_lookup_2|discriminate].
Qed.

Lemma index_some {A} (l : list A) i :
  0 <= i < Z.of_nat (length l) -> exists x, Py.index l i = Some x.
Proof.
  intros H. rewrite index_nonneg by exact H.
  apply lookup_lt_is_Some_2. lia.
Qed.

(** Inside the grid the lookup succeeds. *)
Lemma tile_at_on_grid c : Maze.on_grid m c -> exists tile, Maze.tile_at m c = Some tile.
Proof.
  intros [Hx Hy]. unfold Maze.tile_at. destruct Hwf as [Hh _].
  destruct (index_some (Maze.tiles m) c.2) as [row Hrow]; [lia|].
  rewrite Hrow. simpl. apply index_some. rewrite (row_width _ _ Hrow). lia.
Qed.

(** A column index in [-width, 0) reads the tile [width] columns to the
    right: Python's negative indexing wraps around. *)
Lemma tile_at_wraps_x x y :
  - Maze.maze_width m <= x < 0 ->
  Maze.tile_at m (x, y) = Maze.tile_at m (x + Maze.maze_width m, y).
Proof.
  intros Hx. unfold Maze.tile_at. simpl.
  destruct (Py.index (Maze.tiles m) y) as [row|] eqn:Hrow; [|reflexivity].
  simpl. pose proof (row_width _ _ Hrow) as Hlen.
  rewrite index_neg by lia. rewrite index_nonneg by lia. f_equal. lia.
Qed.

(** The same for a row index in [-height, 0). *)
Lemma tile_at_wraps_y x y :
  - Maze.maze_height m <= y < 0 ->
  Maze.tile_at m (x, y) = Maze.tile_at m (x, y + Maze.maze_height m).
Proof.
  intros Hy. unfold Maze.tile_at. simpl. destruct Hwf as [Hh _].
  rewrite index_neg by lia. rewrite index_nonneg by lia.
  do 2 f_equal. lia.
Qed.

(** A column index equal to the width raises [IndexError]. *)
Lemma tile_at_past_width y :
  Maze.tile_at m (Maze.maze_width m, y) = None.
Proof.
  unfold Maze.tile_at. simpl.
  destruct (Py.index (Maze.tiles m) y) as [row|] eqn:Hrow; [|reflexivity].
  simpl. apply index_out. rewrite (row_width _ _ Hrow). lia.
Qed.
(** A row index equal to the height raises [IndexError]. *)
Lemma tile_at_past_height x :
  Maze.tile_at m (x, Maze.maze_height m) = None.
Proof.
  unfold Maze.tile_at. simpl. destruct Hwf as [Hh _].
  rewrite index_out by lia. reflexivity.
Qed.
End maze_lookup.

(** Without the collision filter no tile is looked up and all four
    neighbours are returned, on the grid or not. *)
Lemma get_around_unfiltered (m : Maze.t) (c : Z * Z) :
  Maze.get_around m c false = Some (Maze.around4 c).
Proof. reflexivity. Qed.

(** C7, as the claim states it, fails: at the top-left corner of an open
    3 x 3 maze all four neighbours are returned, two of them off the grid
    (their lookups wrapped around to the opposite edge), and at the
    bottom-right corner the lookup of (3,2) raises. *)
Lemma get_around_corner_unclamped :
  Maze.get_around open3 (0, 0) true = Some [(-1, 0); (1, 0); (0, -1); (0, 1)] /\
  Maze.get_around open3 (2, 2) true = None /\
  ~ (exists l, Maze.get_around open3 (0, 0) true = Some l /\ length l = 2%nat
               /\ Forall (Maze.on_grid open3) l).
Proof.
  split; [vm_compute; reflexivity|]. split; [vm_compute; reflexivity|].
  intros (l & Hl & Hlen & _).
  assert (Maze.get_around open3 (0, 0) true
          = Some [(-1, 0); (1, 0); (0, -1); (0, 1)]) as E
    by (vm_compute; reflexivity).
  rewrite E in Hl. injection Hl as <-. discriminate Hlen.
Qed.

(** One step of the collision filter. *)
Lemma no_collision_only_cons (m : Maze.t) (c : Z * Z) (cs : list (Z * Z))
    (tile : Tile.t) :
  Maze.tile_at m c = Some tile ->
  Maze.no_collision_only m (c :: cs)
  = rest ← Maze.no_collision_only m cs; Some (Maze.keep tile c ++ rest).
Proof.
  intros H. simpl. rewrite H. simpl. unfold Maze.keep.
  destruct (Maze.no_collision_only m cs); simpl; [|reflexivity].
  by destruct (Tile.collision tile).
Qed.

Lemma no_collision_only_raise (m : Maze.t) (c : Z * Z) (cs : list (Z * Z)) :
  Maze.tile_at m c = None -> Maze.no_collision_only m (c :: cs) = None.
Proof. intros H. simpl. by rewrite H. Qed.

(** C7, amended. [get_around] does not clamp: it proposes the four
    coordinates left, right, up, down of any coordinate. Without the
    collision filter all four are returned. With the filter every proposed
    coordinate is looked up by [tile_at] without a bounds check: at the
    top-left corner of a grid of at least 2 x 2 tiles, the lookups of
    (-1,0) and (0,-1) wrap around to the tiles (width-1,0) and
    (0,height-1), and the result keeps each of the four coordinates whose
    looked-up tile is not a collision tile; at the three other corners the
    lookup of the neighbour in column [width] or row [height] is out of
    range and the call raises. *)
Theorem get_around_corner_lookups (m : Maze.t)
    (Hwf : Maze.well_formed m)
    (Hw : 2 <= Maze.maze_width m) (Hh : 2 <= Maze.maze_height m) :
  (forall c, Maze.get_around m c false = Some (Maze.around4 c)) /\
  (exists tl tr tu td,
      Maze.tile_at m (Maze.maze_width m - 1, 0) = Some tl /\
      Maze.tile_at m (1, 0) = Some tr /\
      Maze.tile_at m (0, Maze.maze_height m - 1) = Some tu /\
      Maze.tile_at m (0, 1) = Some td /\
      Maze.get_around m (0, 0) true
      = Some (Maze.keep tl (-1, 0) ++ Maze.keep tr (1, 0)
              ++ Maze.keep tu (0, -1) ++ Maze.keep td (0, 1))) /\
  Maze.get_around m (Maze.maze_width m - 1, 0) true = None /\
  Maze.get_around m (0, Maze.maze_height m - 1) true = None /\
  Maze.get_around m (Maze.maze_width m - 1, Maze.maze_height m - 1) true = None.
Proof.
  split; [intros c; reflexivity|]. split; [|split; [|split]].
  - destruct (tile_at_on_grid m Hwf (Maze.maze_width m - 1, 0)) as [tl Hl];
      [split; simpl; lia|].
    destruct (tile_at_on_grid m Hwf (1, 0)) as [tr Hr]; [split; simpl; lia|].
    destruct (tile_at_on_grid m Hwf (0, Maze.maze_height m - 1)) as [tu Hu];
      [split; simpl; lia|].
    destruct (tile_at_on_grid m Hwf (0, 1)) as [td Hd]; [split; simpl; lia|].
    exists tl, tr, tu, td. repeat (split; [assumption|]).
    unfold Maze.get_around, Maze.around4. cbn [fst snd].
    replace (0 - 1) with (-1) by lia. replace (0 + 1) with 1 by lia.
    rewrite (no_collision_only_cons m _ _ tl)
      by (rewrite (tile_at_wraps_x m Hwf) by lia; rewrite <- Hl; f_equal; f_equal; lia).
    rewrite (no_collision_only_cons m _ _ tr Hr).
    rewrite (no_collision_only_cons m _ _ tu)
      by (rewrite (tile_at_wraps_y m Hwf) by lia; rewrite <- Hu; f_equal; f_equal; lia).
    rewrite (no_collision_only_cons m _ _ td Hd).
    simpl. by rewrite app_nil_r.
  - unfold Maze.get_around, Maze.around4. cbn [fst snd].
    destruct (tile_at_on_grid m Hwf (Maze.maze_width m - 1 - 1, 0)) as [t1 H1];
      [split; simpl; lia|].
    rewrite (no_collision_only_cons m _ _ t1 H1).
    rewrite no_collision_only_raise; [reflexivity|].
    replace (Maze.maze_width m - 1 + 1) with (Maze.maze_width m) by lia.
    apply (tile_at_past_width m Hwf).
  - unfold Maze.get_around, Maze.around4. cbn [fst snd].
    destruct (tile_at_on_grid m Hwf (Maze.maze_width m - 1, Maze.maze_height m - 1))
      as [t1 H1]; [split; simpl; lia|].
    destruct (tile_at_on_grid m Hwf (0 + 1, Maze.maze_height m - 1)) as [t2 H2];
      [split; simpl; lia|].
    destruct (tile_at_on_grid m Hwf (0, Maze.maze_height m - 1 - 1)) as [t3 H3];
      [split; simpl; lia|].
    rewrite (no_collision_only_cons m _ _ t1)
      by (rewrite (tile_at_wraps_x m Hwf) by lia; rewrite <- H1; f_equal; f_equal; lia).
    rewrite (no_collision_only_cons m _ _ t2 H2).
    rewrite (no_collision_only_cons m _ _ t3 H3).
    rewrite no_collision_only_raise; [reflexivity|].
    replace (Maze.maze_height m - 1 + 1) with (Maze.maze_height m) by lia.
    apply (tile_at_past_height m Hwf).
  - unfold Maze.get_around, Maze.around4. cbn [fst snd].
    destruct (tile_at_on_grid m Hwf
                (Maze.maze_width m - 1 - 1, Maze.maze_height m - 1)) as [t1 H1];
      [split; simpl; lia|].
    rewrite (no_collision_only_cons m _ _ t1 H1).
    rewrite no_collision_only_raise; [reflexivity|].
    replace (Maze.maze_width m - 1 + 1) with (Maze.maze_width m) by lia.
    apply (tile_at_past_width m Hwf).
Qed.

Lemma open3_well_formed : Maze.well_formed open3.
Proof. split; [reflexivity|]. repeat constructor. Qed.

(** The open 3 x 3 maze: four neighbours at (0,0), an exception at (2,2). *)
Lemma get_around_corner_lookups_witness :
  Maze.get_around open3 (0, 0) false = Some [(-1, 0); (1, 0); (0, -1); (0, 1)] /\
  Maze.get_around open3 (2, 2) true = None.
Proof.
  destruct (get_around_corner_lookups open3 open3_well_formed)
    as (Hall & _ & _ & _ & Hraise).
  - vm_compute. discriminate.
  - vm_compute. discriminate.
  - split; [exact (Hall (0, 0)) | exact Hraise].
Defined.

(* ===================================================================== *)
(** ** Properties: Maze.find_path *)
(* ===================================================================== *)

Section scratch_grid.
Variable m : Maze.t.
Implicit Types (g : list (list Z)) (c : Z * Z).

Lemma grid_row g c :
  Maze.grid_dims m g -> Maze.on_grid m c ->
  exists row, g !! Z.to_nat c.2 = Some row /\
              Z.of_nat (length row) = Maze.maze_width m /\
              Py.index g c.2 = Some row.
Proof.
  intros [Hh Hrows] [Hx Hy].
  destruct (lookup_lt_is_Some_2 g (Z.to_nat c.2)) as [row Hrow]; [lia|].
  exists row. split; [done|]. split.
  - rewrite Forall_forall in Hrows. apply Hrows.
    by eapply list_elem_of_lookup_2.
  - by rewrite index_nonneg by lia.
Qed.

Lemma grid_get_on_grid g c :
  Maze.grid_dims m g -> Maze.on_grid m c ->
  Maze.grid_get g c = g !! Z.to_nat c.2 ≫= fun row => row !! Z.to_nat c.1.
Proof.
  intros Hd Hc. destruct (grid_row g c Hd Hc) as (row & Hrow & Hlen & Hidx).
  unfold Maze.grid_get. rewrite Hidx, Hrow. simpl.
  destruct Hc as [Hx _]. by rewrite index_nonneg by lia.
Qed.

Lemma set_index_nonneg {A} (l : list A) i (v : A) :
  0 <= i < Z.of_nat (length l) ->
  Maze.set_index l i v = Some (<[Z.to_nat i := v]> l).
Proof.
  intros H. unfold Maze.set_index. cbv zeta.
  destruct (Z.leb_spec 0 i), (Z.ltb_spec i (Z.of_nat (length l)));
    simpl; try lia; reflexivity.
Qed.

Lemma grid_set_on_grid g c v :
  Maze.grid_dims m g -> Maze.on_grid m c ->
  exists row, g !! Z.to_nat c.2 = Some row /\
              Z.of_nat (length row) = Maze.maze_width m /\
              Maze.grid_set g c v
              = Some (<[Z.to_nat c.2 := <[Z.to_nat c.1 := v]> row]> g).
Proof.
  intros Hd Hc. destruct (grid_row g c Hd Hc) as (row & Hrow & Hlen & Hidx).
  exists row. split; [done|]. split; [done|].
  unfold Maze.grid_set. rewrite Hidx. simpl.
  destruct Hd as [Hh _]. destruct Hc as [Hx Hy].
  rewrite set_index_nonneg by lia. simpl.
  by rewrite set_index_nonneg by lia.
Qed.

Lemma grid_set_dims g c v g' :
  Maze.grid_dims m g -> Maze.on_grid m c ->
  Maze.grid_set g c v = Some g' -> Maze.grid_dims m g'.
Proof.
  intros Hd Hc Hset.
  destruct (grid_set_on_grid g c v Hd Hc) as (row & Hrow & Hlen & Heq).
  rewrite Heq in Hset. injection Hset as <-.
  destruct Hd as [Hh Hrows]. split.
  - by rewrite length_insert.
  - apply Forall_insert; [done|]. by rewrite length_insert.
Qed.

Lemma grid_get_set g c v g' c' :
  Maze.grid_dims m g -> Maze.on_grid m c -> Maze.on_grid m c' ->
  Maze.grid_set g c v = Some g' ->
  Maze.grid_get g' c' = if decide (c' = c) then Some v else Maze.grid_get g c'.
Proof.
  intros Hd Hc Hc' Hset.
  rewrite (grid_get_on_grid g' c') by (by eauto using grid_set_dims).
  rewrite (grid_get_on_grid g c') by done.
  destruct (grid_set_on_grid g c v Hd Hc) as (row & Hrow & Hlen & Heq).
  rewrite Heq in Hset. injection Hset as <-.
  destruct Hd as [Hh Hrows]. destruct Hc as [Hx Hy]. destruct Hc' as [Hx' Hy'].
  destruct c as [x y], c' as [x' y']. simpl in *.
  destruct (decide (y' = y)) as [->|Hny].
  - rewrite list_lookup_insert_eq by lia. simpl. rewrite Hrow. simpl.
    destruct (decide (x' = x)) as [->|Hnx].
    + rewrite decide_True by done. rewrite list_lookup_insert_eq by lia. done.
    + rewrite decide_False by congruence.
      rewrite list_lookup_insert_ne by lia. done.
  - rewrite decide_False by congruence.
    rewrite list_lookup_insert_ne by lia. done.
Qed.
End scratch_grid.

Section search_invariant.
Variable m : Maze.t.
Variable src : Z * Z.
Implicit Types (st : Maze.bfs_state) (c f : Z * Z).

Lemma no_collision_only_free cs : forall l,
  Maze.no_collision_only m cs = Some l ->
  forall c, In c l -> In c cs /\ Maze.free m c.
Proof.
  induction cs as [|c0 cs IH]; intros l Hl c Hin.
  - injection Hl as <-. destruct Hin.
  - simpl in Hl. destruct (Maze.tile_at m c0) as [tile|] eqn:Ht; [|discriminate].
    simpl in Hl. destruct (Maze.no_collision_only m cs) as [rest|]; [|discriminate].
    simpl in Hl. injection Hl as <-.
    destruct (Tile.collision tile) eqn:Hcol.
    + destruct (IH rest eq_refl c Hin). split; [by right|done].
    + destruct Hin as [<-|Hin].
      * split; [by left|]. by exists tile.
      * destruct (IH rest eq_refl c Hin). split; [by right|done].
Qed.

Lemma visit_inv f st c st' :
  Maze.bfs_inv m src st -> Maze.reachable m src f ->
  In c (Maze.around4 f) -> Maze.free m c ->
  Maze.visit m f st c = Some st' -> Maze.bfs_inv m src st'.
Proof.
  intros Hinv Hf Hin Hfree. pose proof Hinv as (Hd & Hmark & Hfr).
  destruct st as [[map nf] vis].
  unfold Maze.visit. simpl in Hd, Hmark, Hfr.
  destruct (_ && _ && _ && _) eqn:Hguard; [|by intros [= <-]].
  assert (Maze.on_grid m c) as Hc.
  { repeat (apply andb_prop in Hguard as [Hguard ?]).
    unfold Maze.on_grid. lia. }
  destruct (Maze.grid_get map c) as [v|]; [|discriminate]. simpl.
  destruct ((v =? 0) && bool_decide (c ∉ vis)); [|by intros [= <-]].
  destruct (Maze.grid_get map f) as [vf|]; [|discriminate]. simpl.
  destruct (Maze.grid_set map c (vf + 1)) as [map'|] eqn:Hset; [|discriminate].
  simpl. intros [= <-].
  assert (Maze.reachable m src c) as Hrc by (by eapply Maze.reach_step).
  split; [|split]; simpl.
  - by eapply grid_set_dims.
  - intros c' v' Hc' Hget Hnz.
    rewrite (grid_get_set m map c (vf + 1) map' c' Hd Hc Hc' Hset) in Hget.
    destruct (decide (c' = c)) as [->|]; [done|]. by eapply Hmark.
  - apply Forall_app. split; [done|]. by apply Forall_singleton.
Qed.

Lemma visit_all_inv f cs : forall st st',
  Maze.bfs_inv m src st -> Maze.reachable m src f ->
  (forall c, In c cs -> In c (Maze.around4 f) /\ Maze.free m c) ->
  Maze.visit_all m f st cs = Some st' -> Maze.bfs_inv m src st'.
Proof.
  induction cs as [|c cs IH]; intros st st' Hinv Hf Hcs; simpl.
  - by intros [= <-].
  - destruct (Maze.visit m f st c) as [st1|] eqn:Hv; [|discriminate]. simpl.
    destruct (Hcs c (or_introl eq_refl)) as [Hin Hfree].
    apply IH; [by eapply visit_inv|done|]. intros c' Hc'. apply Hcs. by right.
Qed.

Lemma expand_all_inv fs : forall st st',
  Maze.bfs_inv m src st -> Forall (Maze.reachable m src) fs ->
  Maze.expand_all m st fs = Some st' -> Maze.bfs_inv m src st'.
Proof.
  induction fs as [|f fs IH]; intros st st' Hinv Hfs; simpl.
  - by intros [= <-].
  - apply Forall_cons in Hfs as [Hf Hfs].
    destruct (Maze.expand m st f) as [st1|] eqn:He; [|discriminate]. simpl.
    apply IH; [|done]. unfold Maze.expand, Maze.get_around in He.
    destruct (Maze.no_collision_only m (Maze.around4 f)) as [cs|] eqn:Hcs;
      [|discriminate]. simpl in He.
    eapply visit_all_inv; [exact Hinv|exact Hf| |exact He].
    by apply no_collision_only_free.
Qed.

Lemma bfs_round_inv st st' :
  Maze.bfs_inv m src st -> Maze.bfs_round m st = Some st' ->
  Maze.bfs_inv m src st'.
Proof.
  destruct st as [[map frontier] vis]. intros (Hd & Hmark & Hfr). simpl in *.
  apply expand_all_inv; [|done]. split; [done|]. split; [done|]. constructor.
Qed.

(** If the search loop ends, the destination is reachable. *)
Lemma bfs_ret_reachable dst fuel : forall st g,
  Maze.on_grid m dst -> Maze.bfs_inv m src st ->
  Maze.bfs m dst fuel st = Ret g -> Maze.reachable m src dst.
Proof.
  induction fuel as [|fuel IH]; intros st g Hdst Hinv; simpl;
    destruct (Maze.grid_get st.1.1 dst) as [v|] eqn:Hget; try discriminate;
    destruct (Z.eqb_spec v 0) as [->|Hnz]; try discriminate.
  - intros _. destruct Hinv as (_ & Hmark & _). by eapply Hmark.
  - destruct (Maze.bfs_round m st) as [st'|] eqn:Hr; [|discriminate].
    eapply IH; [done|]. by eapply bfs_round_inv.
  - intros _. destruct Hinv as (_ & Hmark & _). by eapply Hmark.
Qed.

Lemma blank_grid_dims :
  0 <= Maze.maze_height m -> 0 <= Maze.maze_width m ->
  Maze.grid_dims m (replicate (Z.to_nat (Maze.maze_height m))
                      (replicate (Z.to_nat (Maze.maze_width m)) 0)).
Proof.
  intros Hh Hw. split.
  - rewrite length_replicate. lia.
  - apply Forall_replicate. rewrite length_replicate. lia.
Qed.

Lemma blank_grid_get c :
  Maze.on_grid m c ->
  Maze.grid_get (replicate (Z.to_nat (Maze.maze_height m))
                   (replicate (Z.to_nat (Maze.maze_width m)) 0)) c = Some 0.
Proof.
  intros Hc. pose proof Hc as [Hx Hy].
  assert (0 <= Maze.maze_height m) as Hh by lia.
  assert (0 <= Maze.maze_width m) as Hw by lia.
  rewrite (grid_get_on_grid m _ c (blank_grid_dims Hh Hw) Hc).
  rewrite lookup_replicate_2 by lia. simpl.
  by rewrite lookup_replicate_2 by lia.
Qed.
End search_invariant.

(** [find_path] returns a list only for a reachable destination. *)
Lemma find_path_ret_reachable (m : Maze.t) (fuel : nat) (src dst : Z * Z)
    (path : list (Z * Z)) :
  Maze.on_grid m src -> Maze.on_grid m dst ->
  Maze.find_path m fuel src dst = Ret path -> Maze.reachable m src dst.
Proof.
  intros Hsrc Hdst. unfold Maze.find_path. cbv zeta.
  set (map0 := replicate _ _).
  assert (Maze.grid_dims m map0) as Hd0
    by (apply blank_grid_dims; destruct Hsrc; lia).
  destruct (Maze.grid_set map0 src 1) as [map1|] eqn:Hset; [|discriminate].
  destruct (Maze.bfs m dst fuel (map1, [src], ∅)) as [g| |] eqn:Hbfs;
    try discriminate.
  intros _. eapply (bfs_ret_reachable m src dst fuel); [done| |exact Hbfs].
  split; [|split]; simpl.
  - exact (grid_set_dims m map0 src 1 map1 Hd0 Hsrc Hset).
  - intros c v Hc Hget Hnz.
    rewrite (grid_get_set m map0 src 1 map1 c Hd0 Hsrc Hc Hset) in Hget.
    destruct (decide (c = src)) as [->|]; [constructor|].
    unfold map0 in Hget. rewrite blank_grid_get in Hget by done. congruence.
  - apply Forall_singleton. constructor.
Qed.

Section search_fuel.
Variable m : Maze.t.
Variable dst : Z * Z.

(** More fuel does not change a result. *)
Lemma bfs_fuel_mono fuel : forall st g k,
  Maze.bfs m dst fuel st = Ret g -> Maze.bfs m dst (fuel + k) st = Ret g.
Proof.
  induction fuel as [|fuel IH]; intros st g k H.
  - destruct k as [|k]; [exact H|]. simpl in H |- *.
    destruct (Maze.grid_get st.1.1 dst) as [v|]; [|discriminate].
    destruct (v =? 0); [discriminate|exact H].
  - simpl in H |- *.
    destruct (Maze.grid_get st.1.1 dst) as [v|]; [|discriminate].
    destruct (v =? 0); [|exact H].
    destruct (Maze.bfs_round m st) as [st'|]; [|discriminate]. by apply IH.
Qed.

(** With an empty frontier and the destination unmarked, an iteration
    changes nothing: the loop spins. *)
Lemma bfs_stuck map visited :
  Maze.grid_get map dst = Some 0 ->
  forall fuel, Maze.bfs m dst fuel (map, [], visited) = OutOfFuel.
Proof.
  intros Hget fuel. induction fuel as [|fuel IH]; simpl; rewrite Hget; simpl;
    [reflexivity | exact IH].
Qed.

Lemma bfs_diverges n : forall st st_n,
  Maze.iter_rounds m dst n st = Some st_n ->
  st_n.1.2 = [] -> Maze.grid_get st_n.1.1 dst = Some 0 ->
  forall fuel, Maze.bfs m dst fuel st = OutOfFuel.
Proof.
  induction n as [|n IH]; intros st st_n Hn Hfr Hget fuel.
  - injection Hn as ->. destruct st_n as [[map fr] vis]. simpl in *. subst fr.
    by apply bfs_stuck.
  - simpl in Hn. destruct (Maze.grid_get st.1.1 dst) as [v|] eqn:Hv; [|discriminate].
    simpl in Hn. destruct (v =? 0) eqn:Hz; [|discriminate].
    destruct (Maze.bfs_round m st) as [st'|] eqn:Hr; [|discriminate].
    simpl in Hn. destruct fuel as [|fuel]; simpl; rewrite Hv, Hz; [reflexivity|].
    rewrite Hr. by eapply IH.
Qed.
End search_fuel.

Lemma find_path_fuel_mono (m : Maze.t) (fuel k : nat) (src dst : Z * Z)
    (path : list (Z * Z)) :
  Maze.find_path m fuel src dst = Ret path ->
  Maze.find_path m (fuel + k) src dst = Ret path.
Proof.
  unfold Maze.find_path. cbv zeta.
  destruct (Maze.grid_set _ src 1) as [map1|]; [|discriminate].
  destruct (Maze.bfs m dst fuel (map1, [src], ∅)) as [g| |] eqn:Hbfs;
    try discriminate.
  by rewrite (bfs_fuel_mono m dst fuel _ g k Hbfs).
Qed.

(** In the blocked corridor only (2,2) and (3,2) can be reached from
    (2,2). *)
Lemma corridor_blocked_reach (c : Z * Z) :
  Maze.reachable corridor_blocked (2, 2) c -> c = (2, 2) \/ c = (3, 2).
Proof.
  induction 1 as [|c c' Hr IH Hin Hgrid Hfree]; [by left|].
  destruct Hfree as (tile & Ht & Hcol).
  destruct IH as [-> | ->]; simpl in Hin;
    destruct Hin as [<-|[<-|[<-|[<-|[]]]]]; try (by left); try (by right);
    exfalso; vm_compute in Ht; injection Ht as <-; discriminate Hcol.
Qed.

(** The pathfinding scenario, first half: on the open corridor the walk
    from (2,2) to (6,2) is found as soon as four iterations are allowed,
    and every walk between two corridor tiles is the straight one. *)
Lemma find_path_corridor :
  (forall fuel, (4 <= fuel)%nat ->
     Maze.find_path corridor fuel (2, 2) (6, 2)
     = Ret [(2, 2); (3, 2); (4, 2); (5, 2); (6, 2)]) /\
  Forall (fun src => Forall (fun dst =>
            Maze.find_path corridor 4 src dst = Ret (straight src.1 dst.1))
          corridor_cells) corridor_cells.
Proof.
  split.
  - intros fuel Hfuel. replace fuel with (4 + (fuel - 4))%nat by lia.
    apply find_path_fuel_mono. vm_compute. reflexivity.
  - repeat constructor; vm_compute; reflexivity.
Qed.

(** Second half: with (4,2) blocked the search loop never ends, whatever
    number of iterations is allowed. *)
Lemma find_path_blocked_corridor_diverges (fuel : nat) :
  Maze.find_path corridor_blocked fuel (2, 2) (6, 2) = OutOfFuel.
Proof.
  unfold Maze.find_path. cbv zeta.
  destruct (Maze.grid_set _ (2, 2) 1) as [map1|] eqn:Hset;
    [|vm_compute in Hset; discriminate].
  vm_compute in Hset. injection Hset as <-.
  erewrite (bfs_diverges corridor_blocked (6, 2) 2); [reflexivity| | |].
  - vm_compute. reflexivity.
  - reflexivity.
  - vm_compute. reflexivity.
Qed.

(** C2 fails on the code. The search loop of [find_path] runs while the
    destination has no step number, and only reachable tiles ever get
    one: for a destination that cannot be reached the call never returns
    a list (it does not return the empty list either), whatever the
    number of iterations allowed. *)
Theorem find_path_unreachable_never_returns (m : Maze.t) (src dst : Z * Z)
    (Hsrc : Maze.on_grid m src) (Hdst : Maze.on_grid m dst)
    (Hun : ~ Maze.reachable m src dst) :
  forall (fuel : nat) (path : list (Z * Z)),
    Maze.find_path m fuel src dst <> Ret path.
Proof.
  intros fuel path Hret. apply Hun.
  by eapply find_path_ret_reachable.
Qed.

(** The corridor with (4,2) blocked: a hundred iterations return no list
    for the walk from (2,2) to (6,2), in particular not the empty one. *)
Lemma find_path_unreachable_never_returns_witness :
  Maze.on_grid corridor_blocked (2, 2) /\ Maze.on_grid corridor_blocked (6, 2) /\
  ~ Maze.reachable corridor_blocked (2, 2) (6, 2) /\
  ~ Maze.find_path corridor_blocked 100 (2, 2) (6, 2) = Ret [].
Proof.
  assert (Maze.on_grid corridor_blocked (2, 2)) as Hsrc.
  { unfold Maze.on_grid.
    change (Maze.maze_width corridor_blocked) with 9.
    change (Maze.maze_height corridor_blocked) with 5. simpl. lia. }
  assert (Maze.on_grid corridor_blocked (6, 2)) as Hdst.
  { unfold Maze.on_grid.
    change (Maze.maze_width corridor_blocked) with 9.
    change (Maze.maze_height corridor_blocked) with 5. simpl. lia. }
  assert (~ Maze.reachable corridor_blocked (2, 2) (6, 2)) as Hun.
  { intros Hr. apply corridor_blocked_reach in Hr as [H|H]; discriminate H. }
  split; [exact Hsrc|]. split; [exact Hdst|]. split; [exact Hun|].
  exact (find_path_unreachable_never_returns corridor_blocked (2, 2) (6, 2)
           Hsrc Hdst Hun 100%nat []).
Defined.

(* ===================================================================== *)
(** ** Further properties: Event *)
(* ===================================================================== *)

Lemma prefixb_app (s t : string) : Py.prefixb s (s +:+ t) = true.
Proof.
  induction s as [|a s IH]; [reflexivity|]. simpl.
  by rewrite Ascii.eqb_refl.
Qed.

Lemma str_in_app (s t : string) : Py.str_in s (s +:+ t) = true.
Proof.
  destruct s as [|a s]; [by destruct t|].
  change (Py.str_in (String a s) (String a s +:+ t))
    with (Py.prefixb (String a s) (String a s +:+ t)
          || Py.str_in (String a s) (s +:+ t)).
  by rewrite prefixb_app.
Qed.

Lemma truthy_app_r (s t : string) :
  Py.truthy_str t = true -> Py.truthy_str (s +:+ t) = true.
Proof. destruct s; [done|reflexivity]. Qed.

(** X1. [get_describe()] always mentions the subject and is never the empty
    string. *)
Theorem get_describe_mentions_subject (e : Event.t) :
  Py.str_in (Event.subject e) (Event.get_describe e) = true /\
  Py.truthy_str (Event.get_describe e) = true.
Proof.
  unfold Event.get_describe. cbv zeta.
  set (d := if Py.truthy_str (Event.describe e) then Event.describe e
            else Event.predicate e +:+ " " +:+ Event.object e).
  assert (Py.truthy_str d = true) as Hd.
  { subst d. destruct (Py.truthy_str (Event.describe e)) eqn:E; [done|].
    apply truthy_app_r. reflexivity. }
  destruct (Py.str_in (Event.subject e) d) eqn:Hin.
  - done.
  - split; [apply str_in_app|]. apply truthy_app_r. by apply truthy_app_r.
Qed.

Lemma or_str_some_truthy s d : Py.truthy_str s = true -> Py.or_str (Some s) d = s.
Proof. intros H. simpl. by rewrite H. Qed.

Lemma truthy_iff s : Py.truthy_str s = true <-> s <> "".
Proof. destruct s; simpl; split; congruence. Qed.

(** X2. Serialisation round trip: [Event.from_dict(e.to_dict())] gives back
    the event, emoji included, exactly when its predicate and object are
    not empty; an empty predicate or object comes back as the default. *)
Theorem from_dict_to_dict (e : Event.t) :
  Event.from_dict (Event.to_dict e) = e
  <-> Event.predicate e <> "" /\ Event.object e <> "".
Proof.
  destruct e as [s p o d a em]. unfold Event.from_dict, Event.to_dict, Event.init.
  simpl. split.
  - intros [= Hp Ho Hd Hem]. split.
    + destruct p; [discriminate Hp|discriminate].
    + destruct o; [discriminate Ho|discriminate].
  - intros [Hp Ho]. f_equal.
    + by destruct p.
    + by destruct o.
    + by destruct d.
    + by destruct em.
Qed.

Lemma round_trip_nonempty (e : Event.t) :
  Event.predicate e <> "" -> Event.object e <> "" ->
  Event.from_dict (Event.to_dict e) = e.
Proof.
  destruct e as [s p o d a em]. unfold Event.from_dict, Event.to_dict, Event.init.
  simpl. intros Hp Ho. f_equal.
  - by destruct p.
  - by destruct o.
  - by destruct d.
  - by destruct em.
Qed.

(** X3. Events made by the constructor or changed by [update] always have a
    predicate and an object, so they survive the round trip. *)
Theorem from_dict_to_dict_built (subject : string) (p o : option string)
    (a : option (list string)) (d em p' o' d' : option string) :
  let e := Event.init subject p o a d em in
  Event.from_dict (Event.to_dict e) = e /\
  Event.from_dict (Event.to_dict (Event.update e p' o' d'))
  = Event.update e p' o' d'.
Proof.
  assert (forall x dflt, dflt <> "" -> Py.or_str x dflt <> "") as Hne.
  { intros [[|c x]|] dflt H; simpl; congruence. }
  intros e. split; apply round_trip_nonempty; simpl; by apply Hne.
Qed.

(** X4. [Event.update] is idempotent: applying the same update twice is the
    same as applying it once. *)
Theorem update_idempotent (e : Event.t) (p o d : option string) :
  Event.update (Event.update e p o d) p o d = Event.update e p o d.
Proof.
  unfold Event.update. simpl. f_equal.
  destruct d as [[|c x]|]; reflexivity.
Qed.

(** X5. [Event.__eq__] is an equivalence relation that does not look at the
    emoji and sees the address only through its ":"-joined form. *)
Theorem event_eq_equivalence (a b c : Event.t) :
  Event.eqb a a = true /\
  Event.eqb a b = Event.eqb b a /\
  (Event.eqb a b = true -> Event.eqb b c = true -> Event.eqb a c = true) /\
  (Event.subject a = Event.subject b -> Event.predicate a = Event.predicate b ->
   Event.object a = Event.object b -> Event.describe a = Event.describe b ->
   Py.join ":" (Event.address a) = Py.join ":" (Event.address b) ->
   Event.eqb a b = true).
Proof.
  split; [apply eqb_refl|]. split; [apply eqb_sym|]. split.
  - unfold Event.eqb. rewrite !bool_decide_eq_true. congruence.
  - intros Hs Hp Ho Hd Ha. unfold Event.eqb, Event.key.
    apply bool_decide_eq_true. congruence.
Qed.

(** Two events that differ in emoji and in how the address is cut into
    components are equal. *)
Lemma event_eq_equivalence_witness :
  Event.eqb alice_sleeps
    (Event.init "Alice" (Some "正在") (Some "睡觉") (Some ["town:home"])
       (Some "Alice 正在 睡觉") None) = true.
Proof.
  destruct (event_eq_equivalence alice_sleeps
              (Event.init "Alice" (Some "正在") (Some "睡觉") (Some ["town:home"])
                 (Some "Alice 正在 睡觉") None) alice_sleeps)
    as (_ & _ & _ & H).
  apply H; reflexivity.
Defined.

(* ===================================================================== *)
(** ** Further properties: Tile *)
(* ===================================================================== *)

(** X6. [remove_events(subject=s)] with a non-empty [s] splits the event map
    in two: the tile keeps exactly the entries of other subjects, under
    their old keys, the returned dictionary holds exactly the entries of
    subject [s], and the counter is not touched. *)
Theorem remove_events_by_subject (tile : Tile.t) (s : string) (Hs : s <> "") :
  Tile.event_cnt (Tile.remove_events tile (Some s) None).1 = Tile.event_cnt tile /\
  (forall k e, Tile.events (Tile.remove_events tile (Some s) None).1 !! k = Some e
               <-> Tile.events tile !! k = Some e /\ Event.subject e <> s) /\
  (forall k e, (Tile.remove_events tile (Some s) None).2 !! k = Some e
               <-> Tile.events tile !! k = Some e /\ Event.subject e = s).
Proof.
  apply truthy_iff in Hs.
  assert (forall e, Tile.removed (Some s) None e = bool_decide (Event.subject e = s))
    as Hrem.
  { intros e. unfold Tile.removed. rewrite Hs. simpl. by rewrite orb_false_r. }
  split; [reflexivity|]. split; intros k e; simpl;
    rewrite map_lookup_filter_Some; simpl; rewrite Hrem.
  - rewrite bool_decide_eq_false. reflexivity.
  - rewrite bool_decide_eq_true. reflexivity.
Qed.

(** Alice leaves the tile that holds her idle and her chat event: both
    are removed and returned. *)
Lemma remove_events_by_subject_witness :
  Tile.events
    (Tile.remove_events (Tile.add_event tile_alice (Tile.Obj alice_chat)).1
       (Some "Alice") None).1 !! "e_0" = None /\
  (Tile.remove_events (Tile.add_event tile_alice (Tile.Obj alice_chat)).1
     (Some "Alice") None).2 !! "e_1" = Some alice_chat.
Proof.
  assert ("Alice" <> "") as Hs by discriminate.
  destruct (remove_events_by_subject
              (Tile.add_event tile_alice (Tile.Obj alice_chat)).1 "Alice" Hs)
    as (_ & Hkept & Hgone).
  split.
  - destruct (Tile.events _ !! "e_0") as [e|] eqn:E; [|reflexivity].
    apply Hkept in E as [E Hne]. vm_compute in E. injection E as <-.
    by destruct Hne.
  - apply Hgone. split; vm_compute; reflexivity.
Defined.

Lemma update_events_lookup (tile : Tile.t) (ev : Event.t) (k : string) (e : Event.t) :
  Tile.events tile !! k = Some e ->
  Tile.events (Tile.update_events tile ev "subject").1 !! k
  = Some (if decide (Event.subject e = Event.subject ev) then ev else e).
Proof.
  intros Hk. simpl. rewrite lookup_fmap, Hk. simpl.
  change (Tile.updated "subject" ev e)
    with (bool_decide (Event.subject e = Event.subject ev)).
  by destruct (decide (Event.subject e = Event.subject ev));
    [rewrite bool_decide_eq_true_2|rewrite bool_decide_eq_false_2].
Qed.

Lemma update_events_none (tile : Tile.t) (ev : Event.t) :
  (Tile.update_events tile ev "subject").2 = ∅
  <-> forall k e, Tile.events tile !! k = Some e ->
                  Event.subject e <> Event.subject ev.
Proof.
  assert (forall e, Tile.updated "subject" ev e
                    = bool_decide (Event.subject e = Event.subject ev)) as Hupd
    by (intros e; reflexivity).
  simpl. rewrite fmap_empty_iff, map_empty. split.
  - intros Hnone k e Hk Hs. specialize (Hnone k).
    apply map_lookup_filter_None in Hnone as [Hnone|Hnone]; [congruence|].
    apply (Hnone e Hk). simpl. rewrite Hupd. by apply bool_decide_eq_true.
  - intros Hall k. apply map_lookup_filter_None. right.
    intros e Hk. simpl. rewrite Hupd, bool_decide_eq_true. exact (Hall k e Hk).
Qed.

(** X7. [update_events(event)] never adds or removes an entry: every old
    entry stays under its key, replaced by [event] when its subject is the
    subject of [event] and untouched otherwise. The returned dictionary is
    empty exactly when the tile had no event of that subject, which is the
    test [Agent.move] uses to decide on [add_event]. *)
Theorem update_events_in_place (tile : Tile.t) (ev : Event.t) :
  Tile.event_cnt (Tile.update_events tile ev "subject").1 = Tile.event_cnt tile /\
  dom (Tile.events (Tile.update_events tile ev "subject").1)
  = dom (Tile.events tile) /\
  (forall k e, Tile.events tile !! k = Some e ->
     Tile.events (Tile.update_events tile ev "subject").1 !! k
     = Some (if decide (Event.subject e = Event.subject ev) then ev else e)) /\
  ((Tile.update_events tile ev "subject").2 = ∅
   <-> forall k e, Tile.events tile !! k = Some e ->
                   Event.subject e <> Event.subject ev).
Proof.
  split; [reflexivity|]. split; [simpl; apply dom_fmap_L|]. split.
  - apply update_events_lookup.
  - apply update_events_none.
Qed.

Lemma tag_inj (i j : Z) : Tile.tag i = Tile.tag j -> i = j.
Proof.
  unfold Tile.tag. intros H. simpl in H. injection H as H.
  by apply (inj pretty).
Qed.

(** X8. The counter makes keys fresh. A tile made by [__init__] has only keys
    ["e_i"] with [i] below its counter, and the three event operations
    keep it so; therefore [add_event] never overwrites an entry: all old
    entries stay, and an event equal to none of them is stored under the
    new key ["e_" + str(event_cnt)], growing the map by one. *)
Theorem add_event_never_overwrites (tile : Tile.t) (a : Tile.event_arg)
    (Hfresh : Tile.fresh_keys tile) :
  Tile.fresh_keys (Tile.add_event tile a).1 /\
  (forall ev match_, Tile.fresh_keys (Tile.update_events tile ev match_).1) /\
  (forall s oe, Tile.fresh_keys (Tile.remove_events tile s oe).1) /\
  (forall k e, Tile.events tile !! k = Some e ->
               Tile.events (Tile.add_event tile a).1 !! k = Some e) /\
  (Tile.all_differ (Tile.events tile) (Tile.to_event a) = true ->
   Tile.events tile !! Tile.tag (Tile.event_cnt tile) = None /\
   size (Tile.events (Tile.add_event tile a).1) = S (size (Tile.events tile))).
Proof.
  assert (Tile.events tile !! Tile.tag (Tile.event_cnt tile) = None) as Hnew.
  { destruct (Tile.events tile !! Tile.tag (Tile.event_cnt tile)) eqn:E; [|done].
    destruct (Hfresh _ (mk_is_Some _ _ E)) as (i & Hi & Heq).
    apply tag_inj in Heq. lia. }
  split; [|split; [|split; [|split]]].
  - unfold Tile.add_event.
    destruct (Tile.all_differ _ _); simpl; [|exact Hfresh].
    intros k [e Hk]. simpl in *. rewrite lookup_insert in Hk.
    destruct (decide (Tile.tag (Tile.event_cnt tile) = k)) as [<-|Hne].
    + exists (Tile.event_cnt tile). split; [lia|done].
    + destruct (Hfresh k (mk_is_Some _ _ Hk)) as (i & Hi & ->).
      exists i. split; [lia|done].
  - intros ev match_ k [e Hk]. simpl in *. rewrite lookup_fmap in Hk.
    destruct (Tile.events tile !! k) as [e0|] eqn:E; [|discriminate].
    exact (Hfresh k (mk_is_Some _ _ E)).
  - intros s oe k [e Hk]. simpl in *.
    apply map_lookup_filter_Some in Hk as [Hk _].
    exact (Hfresh k (mk_is_Some _ _ Hk)).
  - intros k e Hk. unfold Tile.add_event.
    destruct (Tile.all_differ _ _); simpl; [|exact Hk].
    rewrite lookup_insert_ne; [exact Hk|]. congruence.
  - intros Hd. split; [exact Hnew|]. unfold Tile.add_event. rewrite Hd. simpl.
    by apply map_size_insert_None.
Qed.

(** A tile as [__init__] makes it has fresh keys and at most one event
    per subject. *)
Lemma init_fresh_keys coord world keys addr collision :
  Tile.fresh_keys (Tile.init coord world keys addr collision) /\
  Tile.one_per_subject (Tile.events (Tile.init coord world keys addr collision)).
Proof.
  unfold Tile.init. cbv zeta.
  destruct (bool_decide (length (world :: addr) = 4%nat)).
  - unfold Tile.add_event. simpl.
    replace (Tile.all_differ ∅ _) with true
      by (symmetry; apply all_differ_true; intros k e; by rewrite lookup_empty).
    simpl. split.
    + intros k [e Hk]. simpl in Hk. apply lookup_insert_Some in Hk as [[<- _]|[_ Hk]].
      * exists 0. split; [simpl; lia|done].
      * by rewrite lookup_empty in Hk.
    + intros k1 k2 e1 e2 H1 H2 _.
      apply lookup_insert_Some in H1 as [[<- _]|[_ H1]];
        [|by rewrite lookup_empty in H1].
      apply lookup_insert_Some in H2 as [[<- _]|[_ H2]];
        [done|by rewrite lookup_empty in H2].
  - split.
    + intros k [e Hk]. simpl in Hk. by rewrite lookup_empty in Hk.
    + intros k1 k2 e1 e2 H1. simpl in H1. by rewrite lookup_empty in H1.
Qed.

(** Alice's tile, made by [__init__] and one [add_event]: Bob's event is
    stored under "e_1" next to hers. *)
Lemma add_event_never_overwrites_witness :
  Tile.events (Tile.add_event tile_alice (Tile.Obj bob_reads)).1 !! "e_0"
  = Some alice_idle /\
  size (Tile.events (Tile.add_event tile_alice (Tile.Obj bob_reads)).1) = 2%nat.
Proof.
  assert (Tile.fresh_keys tile_alice) as Hfresh.
  { unfold tile_alice, tile0.
    apply add_event_never_overwrites. apply init_fresh_keys. }
  destruct (add_event_never_overwrites tile_alice (Tile.Obj bob_reads) Hfresh)
    as (_ & _ & _ & Hold & Hnew).
  split.
  - apply Hold. vm_compute. reflexivity.
  - destruct Hnew as [_ Hsize]; [vm_compute; reflexivity|].
    rewrite Hsize. vm_compute. reflexivity.
Defined.

(** X9. The update-or-insert of [Agent.move] keeps "at most one event per
    subject": afterwards the tile holds the agent's event, and every
    event of that subject on the tile is this event. *)
Theorem update_or_add_one_per_subject (tile : Tile.t) (ev : Event.t)
    (Hinv : Tile.one_per_subject (Tile.events tile)) :
  Tile.one_per_subject (Tile.events (Agent.update_or_add tile ev)) /\
  (exists k, Tile.events (Agent.update_or_add tile ev) !! k = Some ev) /\
  (forall k e, Tile.events (Agent.update_or_add tile ev) !! k = Some e ->
               Event.subject e = Event.subject ev -> e = ev).
Proof.
  unfold Agent.update_or_add.
  pose proof (update_events_lookup tile ev) as Hupd.
  pose proof (update_events_none tile ev) as Hempty.
  pose proof (update_events_one_per_subject tile ev "subject" Hinv) as Hinv'.
  destruct (Tile.update_events tile ev "subject") as [tile' u] eqn:Hu.
  simpl in Hupd, Hempty, Hinv'.
  assert (forall k e, Tile.events tile' !! k = Some e ->
            exists e0, Tile.events tile !! k = Some e0 /\
              e = if decide (Event.subject e0 = Event.subject ev) then ev else e0)
    as Hback.
  { intros k e Hk. destruct (Tile.events tile !! k) as [e0|] eqn:E.
    - exists e0. split; [done|]. rewrite (Hupd k e0 E) in Hk. congruence.
    - assert (Tile.events tile' !! k = None) as Hn; [|congruence].
      injection Hu as <- _. simpl. by rewrite lookup_fmap, E. }
  case_bool_decide as Hnone.
  - pose proof (proj1 Hempty Hnone) as Hnone0. clear Hnone.
    rename Hnone0 into Hnone.
    assert (forall k e, Tile.events tile' !! k = Some e ->
                        Event.subject e <> Event.subject ev) as Hnone'.
    { intros k e Hk. destruct (Hback k e Hk) as (e0 & H0 & ->).
      pose proof (Hnone k e0 H0). by rewrite decide_False. }
    assert (Tile.all_differ (Tile.events tile') ev = true) as Hd.
    { apply all_differ_true. intros k e Hk. unfold Event.eqb.
      apply bool_decide_eq_false. intros Hkey. apply (Hnone' k e Hk).
      unfold Event.key in Hkey. congruence. }
    split; [|split].
    + apply (add_event_one_per_subject tile' (Tile.Obj ev) Hinv'). exact Hnone'.
    + unfold Tile.add_event. simpl. rewrite Hd. simpl.
      eexists. apply lookup_insert_eq.
    + unfold Tile.add_event. simpl. rewrite Hd. simpl. intros k e Hk Hs.
      apply lookup_insert_Some in Hk as [[_ <-]|[_ Hk]]; [done|].
      by destruct (Hnone' k e Hk).
  - split; [exact Hinv'|]. split.
    + assert (exists k e0, Tile.events tile !! k = Some e0 /\
                Event.subject e0 = Event.subject ev) as (k & e0 & H0 & Hs).
      { destruct (decide (u = ∅)) as [->|Hne]; [done|].
        apply map_choose in Hne as (k & e & Hk). injection Hu as _ <-.
        rewrite lookup_fmap in Hk.
        destruct (filter _ _ !! k) as [e0|] eqn:E; [|discriminate].
        apply map_lookup_filter_Some in E as [E Hp]. simpl in Hp.
        exists k, e0. split; [done|].
        unfold Tile.updated in Hp. simpl in Hp.
        by apply bool_decide_eq_true in Hp. }
      exists k. rewrite (Hupd k e0 H0). by rewrite decide_True.
    + intros k e Hk Hs. destruct (Hback k e Hk) as (e0 & H0 & ->).
      destruct (decide (Event.subject e0 = Event.subject ev)); [done|congruence].
Qed.

(** Alice, idle on her tile, starts to chat: her tile holds the chat
    event only. *)
Lemma update_or_add_one_per_subject_witness :
  map_to_list (Tile.events (Agent.update_or_add tile_alice alice_chat))
  = [("e_0", alice_chat)] /\
  Tile.one_per_subject (Tile.events (Agent.update_or_add tile_alice alice_chat)).
Proof.
  split; [vm_compute; reflexivity|].
  assert (Tile.one_per_subject (Tile.events tile_alice)) as Hinv.
  { unfold tile_alice, tile0.
    apply (add_event_one_per_subject _ (Tile.Obj alice_idle)).
    - apply init_fresh_keys.
    - intros k e Hk. vm_compute in Hk. discriminate. }
  destruct (update_or_add_one_per_subject tile_alice alice_chat Hinv) as [H _].
  exact H.
Defined.

(* ===================================================================== *)
(** ** Further properties: Maze *)
(* ===================================================================== *)





(** X11. [find_path(p, p)] is [[p]] for every coordinate of the grid, without
    a single iteration of the search loop. *)
Theorem find_path_same_tile (m : Maze.t) (p : Z * Z) (fuel : nat)
    (Hp : Maze.on_grid m p) :
  Maze.find_path m fuel p p = Ret [p].
Proof.
  unfold Maze.find_path. cbv zeta.
  set (map0 := replicate _ _).
  assert (Maze.grid_dims m map0) as Hd0
    by (apply blank_grid_dims; destruct Hp; lia).
  destruct (grid_set_on_grid m map0 p 1 Hd0 Hp) as (row & _ & _ & Hset).
  rewrite Hset. set (map1 := <[_ := _]> map0).
  assert (Maze.grid_get map1 p = Some 1) as Hget.
  { rewrite (grid_get_set m map0 p 1 map1 p Hd0 Hp Hp Hset).
    by rewrite decide_True. }
  assert (Maze.bfs m p fuel (map1, [p], ∅) = Ret map1) as ->.
  { destruct fuel; simpl; rewrite Hget; reflexivity. }
  rewrite Hget. reflexivity.
Qed.

Lemma find_path_same_tile_witness :
  Maze.find_path corridor 0 (4, 2) (4, 2) = Ret [(4, 2)].
Proof.
  apply find_path_same_tile. unfold Maze.on_grid.
  change (Maze.maze_width corridor) with 9.
  change (Maze.maze_height corridor) with 5. simpl. lia.
Defined.

Lemma backtrack_S (m : Maze.t) (map : list (list Z)) (n : nat) (step : Z)
    (path : list (Z * Z)) :
  Maze.backtrack m map (S n) step path
  = (last_c ← List.last (Some <$> path) None;
     cs ← Maze.get_around m last_c true;
     found ← Maze.first_at_step map (step - 1) cs;
     Maze.backtrack m map n (step - 1)
       (match found with Some c => path ++ [c] | None => path end)).
Proof. reflexivity. Qed.

Lemma backtrack_extends (m : Maze.t) (map : list (list Z)) (n : nat) :
  forall step path path',
    Maze.backtrack m map n step path = Some path' ->
    exists more, path' = path ++ more.
Proof.
  induction n as [|n IH]; intros step path path' H.
  - injection H as <-. exists []. by rewrite app_nil_r.
  - rewrite backtrack_S in H.
    destruct (List.last (Some <$> path) None) as [c|]; [|discriminate H].
    cbn [mbind option_bind] in H.
    destruct (Maze.get_around m c true) as [cs|]; [|discriminate H].
    cbn [mbind option_bind] in H.
    destruct (Maze.first_at_step map (step - 1) cs) as [found|];
      [|discriminate H].
    cbn [mbind option_bind] in H. apply IH in H as [more ->].
    destruct found as [c'|]; [|by exists more].
    exists (c' :: more). by rewrite <- app_assoc.
Qed.

(** X12. [find_path] never returns the empty list: whatever it returns ends
    with the destination. *)
Theorem find_path_ends_at_destination (m : Maze.t) (fuel : nat)
    (src dst : Z * Z) (path : list (Z * Z))
    (Hret : Maze.find_path m fuel src dst = Ret path) :
  path <> [] /\ last path = Some dst.
Proof.
  unfold Maze.find_path in Hret. cbv zeta in Hret.
  destruct (Maze.grid_set _ src 1) as [map1|]; [|discriminate Hret].
  destruct (Maze.bfs m dst fuel (map1, [src], ∅)) as [g| |];
    [|discriminate Hret..].
  destruct (Maze.grid_get g dst) as [step|]; [|discriminate Hret].
  destruct (Maze.backtrack m g _ step [dst]) as [p|] eqn:Hb;
    [|discriminate Hret].
  injection Hret as <-. apply backtrack_extends in Hb as [more ->].
  rewrite rev_app_distr. simpl. split.
  - intros H. by apply app_eq_nil in H as [_ H].
  - by rewrite last_snoc.
Qed.

Lemma find_path_ends_at_destination_witness :
  last [(2, 2); (3, 2); (4, 2); (5, 2); (6, 2)] = Some (6, 2).
Proof.
  apply (find_path_ends_at_destination corridor 4 (2, 2) (6, 2)).
  vm_compute. reflexivity.
Defined.

Section step_numbers.
Variable m : Maze.t.
Variable src : Z * Z.
Implicit Types (g : list (list Z)) (c f : Z * Z).

Lemma around4_sym c f : In c (Maze.around4 f) -> In f (Maze.around4 c).
Proof.
  destruct c as [x y], f as [u v]. unfold Maze.around4. simpl.
  intros [H|[H|[H|[H|[]]]]]; injection H as <- <-.
  - right; left. f_equal; lia.
  - left. f_equal; lia.
  - right; right; right; left. f_equal; lia.
  - right; right; left. f_equal; lia.
Qed.

Lemma interior_on_grid c : Maze.interior m c -> Maze.on_grid m c.
Proof. unfold Maze.interior, Maze.on_grid. lia. Qed.

Lemma interior_around c c' :
  Maze.interior m c -> In c' (Maze.around4 c) -> Maze.on_grid m c'.
Proof.
  unfold Maze.interior, Maze.on_grid, Maze.around4.
  intros Hc [H|[H|[H|[H|[]]]]]; subst c'; simpl; lia.
Qed.

Lemma keeps_refl g : Maze.keeps m g g.
Proof. by intros c k. Qed.

Lemma keeps_trans g1 g2 g3 :
  Maze.keeps m g1 g2 -> Maze.keeps m g2 g3 -> Maze.keeps m g1 g3.
Proof. intros H12 H23 c k Hc Hg Hk. apply H23; [done| |done]. by apply H12. Qed.

Lemma keeps_marked g g' c :
  Maze.keeps m g g' -> Maze.marked m g c -> Maze.marked m g' c.
Proof.
  intros Hk [Hc (k & Hg & Hnz)]. split; [done|]. exists k. split; [|done].
  by apply Hk.
Qed.

(** One neighbour visited: the meaning of the step numbers is kept, no
    step number changes, and a tile put on the new frontier is marked. *)
Lemma visit_steps f g nf vis c g' nf' vis' :
  Maze.grid_dims m g -> Maze.steps_ok m src g -> Maze.marked m g f ->
  In c (Maze.around4 f) -> Maze.free m c ->
  Maze.visit m f (g, nf, vis) c = Some (g', nf', vis') ->
  Maze.grid_dims m g' /\ Maze.steps_ok m src g' /\ Maze.keeps m g g' /\
  (nf' = nf \/ (nf' = nf ++ [c] /\ Maze.marked m g' c)).
Proof.
  intros Hd Hok [Hf (vf & Hvf & Hvfnz)] Hin Hfree. unfold Maze.visit.
  destruct (_ && _ && _ && _) eqn:Hguard;
    [|intros [= <- <- <-]; split; [done|]; split; [done|];
      split; [apply keeps_refl|by left]].
  assert (Maze.interior m c) as Hint.
  { repeat (apply andb_prop in Hguard as [Hguard ?]).
    unfold Maze.interior. lia. }
  pose proof (interior_on_grid c Hint) as Hc.
  destruct (Maze.grid_get g c) as [v|] eqn:Hv; [|discriminate].
  cbn [mbind option_bind].
  destruct ((v =? 0) && bool_decide (c ∉ vis)) eqn:Hcond;
    [|intros [= <- <- <-]; split; [done|]; split; [done|];
      split; [apply keeps_refl|by left]].
  apply andb_prop in Hcond as [Hz _]. apply Z.eqb_eq in Hz. subst v.
  rewrite Hvf. cbn [mbind option_bind].
  destruct (Maze.grid_set g c (vf + 1)) as [g1|] eqn:Hset; [|discriminate].
  cbn [mbind option_bind]. intros [= <- <- <-].
  assert (forall c', Maze.on_grid m c' ->
            Maze.grid_get g1 c'
            = if decide (c' = c) then Some (vf + 1) else Maze.grid_get g c')
    as Hget by (intros c' Hc'; by eapply grid_get_set).
  assert (Maze.keeps m g g1) as Hkeep.
  { intros c' k Hc' Hg Hk. rewrite (Hget c' Hc').
    destruct (decide (c' = c)) as [->|]; [congruence|done]. }
  destruct (Hok f vf Hf Hvf Hvfnz) as (Hvf1 & _ & _).
  split; [by eapply grid_set_dims|]. split; [|split; [done|]].
  - intros c' k Hc' Hg Hk. rewrite (Hget c' Hc') in Hg.
    destruct (decide (c' = c)) as [->|Hne].
    + injection Hg as <-. split; [lia|]. split; [lia|]. intros _.
      split; [done|]. split; [done|]. exists f.
      split; [by apply around4_sym|]. split; [done|].
      replace (vf + 1 - 1) with vf by lia. by apply Hkeep.
    + destruct (Hok c' k Hc' Hg Hk) as (H1 & H2 & H3).
      split; [done|]. split; [done|]. intros Hk1.
      destruct (H3 Hk1) as (Hfr & Hi & f0 & Hf0 & Hg0 & Hv0).
      split; [done|]. split; [done|]. exists f0.
      split; [done|]. split; [done|]. apply Hkeep; [done|done|lia].
  - right. split; [done|]. split; [done|]. exists (vf + 1).
    split; [|lia]. rewrite (Hget c Hc). by rewrite decide_True.
Qed.

Lemma visit_all_steps f cs : forall g nf vis g' nf' vis',
  Maze.grid_dims m g -> Maze.steps_ok m src g -> Maze.marked m g f ->
  Forall (Maze.marked m g) nf ->
  (forall c, In c cs -> In c (Maze.around4 f) /\ Maze.free m c) ->
  Maze.visit_all m f (g, nf, vis) cs = Some (g', nf', vis') ->
  Maze.grid_dims m g' /\ Maze.steps_ok m src g' /\ Maze.keeps m g g' /\
  Forall (Maze.marked m g') nf'.
Proof.
  induction cs as [|c cs IH]; intros g nf vis g' nf' vis' Hd Hok Hf Hnf Hcs;
    cbn [Maze.visit_all].
  - intros [= <- <- <-].
    split; [done|]. split; [done|]. split; [apply keeps_refl|done].
  - destruct (Maze.visit m f (g, nf, vis) c) as [[[g1 nf1] vis1]|] eqn:Hv;
      [|discriminate].
    cbn [mbind option_bind]. intros Hrest.
    destruct (Hcs c (or_introl eq_refl)) as [Hin Hfree].
    destruct (visit_steps f g nf vis c g1 nf1 vis1 Hd Hok Hf Hin Hfree Hv)
      as (Hd1 & Hok1 & Hk1 & Hnf1).
    assert (Forall (Maze.marked m g1) nf1) as Hnf1'.
    { assert (Forall (Maze.marked m g1) nf) as Hold
        by (eapply Forall_impl; [exact Hnf|intros x; by apply keeps_marked]).
      destruct Hnf1 as [->|[-> Hc]]; [done|].
      apply Forall_app. split; [done|]. by apply Forall_singleton. }
    destruct (IH g1 nf1 vis1 g' nf' vis' Hd1 Hok1 (keeps_marked _ _ _ Hk1 Hf)
                Hnf1' (fun x Hx => Hcs x (or_intror Hx)) Hrest)
      as (Hd' & Hok' & Hk' & Hnf').
    split; [done|]. split; [done|]. split; [by eapply keeps_trans|done].
Qed.

Lemma expand_all_steps fs : forall g nf vis g' nf' vis',
  Maze.grid_dims m g -> Maze.steps_ok m src g ->
  Forall (Maze.marked m g) fs -> Forall (Maze.marked m g) nf ->
  Maze.expand_all m (g, nf, vis) fs = Some (g', nf', vis') ->
  Maze.grid_dims m g' /\ Maze.steps_ok m src g' /\ Maze.keeps m g g' /\
  Forall (Maze.marked m g') nf'.
Proof.
  induction fs as [|f fs IH]; intros g nf vis g' nf' vis' Hd Hok Hfs Hnf;
    cbn [Maze.expand_all].
  - intros [= <- <- <-].
    split; [done|]. split; [done|]. split; [apply keeps_refl|done].
  - apply Forall_cons in Hfs as [Hf Hfs].
    destruct (Maze.expand m (g, nf, vis) f) as [[[g1 nf1] vis1]|] eqn:He;
      [|discriminate].
    cbn [mbind option_bind]. intros Hrest.
    unfold Maze.expand, Maze.get_around in He.
    destruct (Maze.no_collision_only m (Maze.around4 f)) as [cs|] eqn:Hcs;
      [|discriminate].
    cbn [mbind option_bind] in He.
    destruct (visit_all_steps f cs g nf vis g1 nf1 vis1 Hd Hok Hf Hnf
                (no_collision_only_free m _ cs Hcs) He)
      as (Hd1 & Hok1 & Hk1 & Hnf1).
    assert (Forall (Maze.marked m g1) fs) as Hfs1
      by (eapply Forall_impl; [exact Hfs|intros x; by apply keeps_marked]).
    destruct (IH g1 nf1 vis1 g' nf' vis' Hd1 Hok1 Hfs1 Hnf1 Hrest)
      as (Hd' & Hok' & Hk' & Hnf').
    split; [done|]. split; [done|]. split; [by eapply keeps_trans|done].
Qed.

(** The map the search loop ends with has meaningful step numbers. *)
Lemma bfs_steps dst fuel : forall g fr vis g',
  Maze.grid_dims m g -> Maze.steps_ok m src g -> Forall (Maze.marked m g) fr ->
  Maze.bfs m dst fuel (g, fr, vis) = Ret g' ->
  Maze.grid_dims m g' /\ Maze.steps_ok m src g'.
Proof.
  induction fuel as [|fuel IH]; intros g fr vis g' Hd Hok Hfr;
    cbn [Maze.bfs fst snd];
    destruct (Maze.grid_get g dst) as [v|]; try discriminate;
    destruct (v =? 0); try discriminate; try (by intros [= <-]).
  destruct (Maze.bfs_round m (g, fr, vis)) as [[[g1 nf1] vis1]|] eqn:He;
    [|discriminate]. unfold Maze.bfs_round in He.
  destruct (expand_all_steps fr g [] vis g1 nf1 vis1 Hd Hok Hfr (Forall_nil_2 _) He)
    as (Hd1 & Hok1 & _ & Hnf1).
  by apply IH.
Qed.
End step_numbers.

Section backtracking.
Variable m : Maze.t.
Variable src : Z * Z.
Variable g : list (list Z).
Hypothesis Hok : Maze.steps_ok m src g.
Hypothesis Hsrc_free : Maze.free m src.
Implicit Types (c : Z * Z) (path : list (Z * Z)).

Lemma list_last_default path :
  List.last (Some <$> path) None = last path.
Proof.
  induction path as [|a [|b l] IH]; [reflexivity..|].
  rewrite last_cons_cons. rewrite <- IH. reflexivity.
Qed.

Lemma no_collision_only_complete cs : forall l c,
  Maze.no_collision_only m cs = Some l -> In c cs -> Maze.free m c -> In c l.
Proof.
  induction cs as [|c0 cs IH]; intros l c Hl Hin Hfree; [destruct Hin|].
  simpl in Hl. destruct (Maze.tile_at m c0) as [tile|] eqn:Ht; [|discriminate].
  simpl in Hl. destruct (Maze.no_collision_only m cs) as [rest|]; [|discriminate].
  simpl in Hl. injection Hl as <-. destruct Hin as [->|Hin].
  - destruct Hfree as (tile' & Ht' & Hcol). rewrite Ht in Ht'.
    injection Ht' as <-. rewrite Hcol. by left.
  - pose proof (IH rest c eq_refl Hin Hfree).
    destruct (Tile.collision tile); [done|by right].
Qed.

Lemma first_at_step_found target cs : forall found,
  Maze.first_at_step g target cs = Some found ->
  match found with
  | Some c => In c cs /\ Maze.grid_get g c = Some target
  | None => forall c, In c cs -> Maze.grid_get g c <> Some target
  end.
Proof.
  induction cs as [|c0 cs IH]; intros found H; simpl in H.
  - injection H as <-. by intros c [].
  - destruct (Maze.grid_get g c0) as [v|] eqn:Hv; [|discriminate].
    simpl in H. destruct (Z.eqb_spec v target) as [->|Hne].
    + injection H as <-. split; [by left|done].
    + specialize (IH found H). destruct found as [c|].
      * destruct IH. split; [by right|done].
      * intros c [<-|Hin]; [congruence|by apply IH].
Qed.

Lemma walk_snoc path c c' :
  Maze.walk path -> last path = Some c -> Maze.adjacent c c' ->
  Maze.walk (path ++ [c']).
Proof.
  induction path as [|a [|b l] IH]; intros Hw Hl Hadj; [discriminate| |].
  - injection Hl as ->. simpl. done.
  - destruct Hw as [Hab Hw]. split; [done|].
    apply IH; [done| |done]. by rewrite last_cons_cons in Hl.
Qed.

Lemma walk_rev path : Maze.walk path -> Maze.walk (rev path).
Proof.
  induction path as [|a l IH]; intros Hw; [done|].
  destruct l as [|b l]; [done|]. destruct Hw as [Hab Hw].
  change (rev (a :: b :: l)) with (rev (b :: l) ++ [a]).
  apply (walk_snoc _ b); [by apply IH| |by apply around4_sym].
  simpl. apply last_snoc.
Qed.

(** The walk back from a tile with step number [step] reaches [src] in
    [step - 1] moves over walkable tiles. *)
Lemma backtrack_walk n : forall step path c path',
  last path = Some c -> Maze.on_grid m c -> Maze.grid_get g c = Some step ->
  Z.of_nat n = step - 1 -> Maze.walk path ->
  Forall (fun x => Maze.free m x /\ Maze.on_grid m x) path ->
  Maze.backtrack m g n step path = Some path' ->
  last path' = Some src /\ Maze.walk path' /\
  Forall (fun x => Maze.free m x /\ Maze.on_grid m x) path'.
Proof.
  induction n as [|n IH]; intros step path c path' Hl Hc Hg Hn Hw Hall Hb.
  - injection Hb as <-. assert (step = 1) as -> by lia.
    destruct (Hok c 1 Hc Hg ltac:(lia)) as (_ & Hone & _).
    rewrite Hl, (Hone eq_refl). done.
  - rewrite backtrack_S, list_last_default, Hl in Hb.
    cbn [mbind option_bind] in Hb.
    destruct (Maze.get_around m c true) as [cs|] eqn:Hcs; [|discriminate Hb].
    cbn [mbind option_bind] in Hb.
    destruct (Maze.first_at_step g (step - 1) cs) as [found|] eqn:Hfound;
      [|discriminate Hb].
    cbn [mbind option_bind] in Hb.
    destruct (Hok c step Hc Hg ltac:(lia)) as (_ & _ & Hbig).
    destruct (Hbig ltac:(lia)) as (Hfree & Hint & f & Hf & Hfg & Hfv).
    assert (Maze.free m f) as Hffree.
    { destruct (Hok f (step - 1) Hfg Hfv ltac:(lia)) as (_ & Hone & Hmore).
      destruct (decide (step - 1 = 1)) as [E|E].
      - by rewrite (Hone E).
      - apply Hmore. lia. }
    unfold Maze.get_around in Hcs.
    pose proof (no_collision_only_complete _ _ f Hcs Hf Hffree) as Hfin.
    apply first_at_step_found in Hfound. destruct found as [c'|].
    + destruct Hfound as [Hin Hv'].
      destruct (no_collision_only_free m _ _ Hcs c' Hin) as [Hadj Hfree'].
      pose proof (interior_around m c c' Hint Hadj) as Hc'.
      apply (IH (step - 1) (path ++ [c']) c' path'); try done.
      * apply last_snoc.
      * lia.
      * by apply (walk_snoc _ c).
      * apply Forall_app. split; [done|]. by apply Forall_singleton.
    + by destruct (Hfound f Hfin).
Qed.
End backtracking.

Lemma bfs_ret_marked (m : Maze.t) (dst : Z * Z) (fuel : nat) :
  forall st g, Maze.bfs m dst fuel st = Ret g ->
  exists v, Maze.grid_get g dst = Some v /\ v <> 0.
Proof.
  induction fuel as [|fuel IH]; intros st g; simpl;
    destruct (Maze.grid_get st.1.1 dst) as [v|] eqn:Hv; try discriminate;
    destruct (Z.eqb_spec v 0) as [->|Hnz]; try discriminate;
    try (intros [= <-]; by exists v).
  destruct (Maze.bfs_round m st) as [st'|]; [|discriminate]. apply IH.
Qed.

(** X13. Whatever [find_path] returns from a walkable start is a walk from
    [src] to [dst]: it starts at [src], ends at [dst], every move goes to
    one of the four neighbours, and every tile on it lies on the grid and
    is not a collision tile. *)
Theorem find_path_is_walk (m : Maze.t) (fuel : nat) (src dst : Z * Z)
    (path : list (Z * Z))
    (Hsrc : Maze.on_grid m src) (Hdst : Maze.on_grid m dst)
    (Hfree : Maze.free m src)
    (Hret : Maze.find_path m fuel src dst = Ret path) :
  head path = Some src /\ last path = Some dst /\ Maze.walk path /\
  Forall (fun c => Maze.free m c /\ Maze.on_grid m c) path.
Proof.
  unfold Maze.find_path in Hret. cbv zeta in Hret.
  set (map0 := replicate _ _) in Hret.
  assert (Maze.grid_dims m map0) as Hd0
    by (apply blank_grid_dims; destruct Hsrc; lia).
  destruct (Maze.grid_set map0 src 1) as [map1|] eqn:Hset; [|discriminate Hret].
  assert (forall c, Maze.on_grid m c ->
            Maze.grid_get map1 c = if decide (c = src) then Some 1 else Some 0)
    as Hget1.
  { intros c Hc. rewrite (grid_get_set m map0 src 1 map1 c Hd0 Hsrc Hc Hset).
    destruct (decide (c = src)); [done|]. by apply blank_grid_get. }
  destruct (Maze.bfs m dst fuel (map1, [src], ∅)) as [g| |] eqn:Hbfs;
    [|discriminate Hret..].
  destruct (bfs_steps m src dst fuel map1 [src] ∅ g) as [Hd Hok]; [..|exact Hbfs|].
  { exact (grid_set_dims m map0 src 1 map1 Hd0 Hsrc Hset). }
  { intros c k Hc Hg Hk. rewrite (Hget1 c Hc) in Hg.
    destruct (decide (c = src)) as [->|]; [|congruence].
    injection Hg as <-. split; [lia|]. split; [done|lia]. }
  { apply Forall_singleton. split; [done|]. exists 1.
    split; [|lia]. rewrite (Hget1 src Hsrc). by rewrite decide_True. }
  destruct (bfs_ret_marked m dst fuel _ g Hbfs) as (step & Hstep & Hnz).
  rewrite Hstep in Hret.
  destruct (Maze.backtrack m g _ step [dst]) as [p|] eqn:Hb; [|discriminate Hret].
  injection Hret as <-.
  assert (last (rev p) = Some dst) as Hlast.
  { pose proof Hb as Hext. apply backtrack_extends in Hext as [more ->].
    rewrite rev_app_distr. simpl. by rewrite last_snoc. }
  destruct (Hok dst step Hdst Hstep Hnz) as (H1 & Hone & Hmore).
  assert (Maze.free m dst) as Hdfree.
  { destruct (decide (step = 1)) as [E|E]; [by rewrite (Hone E)|].
    apply Hmore. lia. }
  destruct (backtrack_walk m src g Hok Hfree (Z.to_nat (step - 1)) step [dst]
              dst p) as (Hlastp & Hwalk & Hall); try done.
  - lia.
  - by apply Forall_singleton.
  - split; [|split; [done|split]].
    + apply last_Some in Hlastp as [l ->]. by rewrite rev_app_distr.
    + by apply walk_rev.
    + apply Forall_forall. intros c Hc. rewrite Forall_forall in Hall.
      apply Hall. apply list_elem_of_In. apply list_elem_of_In in Hc.
      by apply in_rev.
Qed.

(** The corridor walk from (6,2) back to (3,2). *)
Lemma find_path_is_walk_witness :
  Maze.find_path corridor 3 (6, 2) (3, 2) = Ret [(6, 2); (5, 2); (4, 2); (3, 2)] /\
  Maze.walk [(6, 2); (5, 2); (4, 2); (3, 2)] /\
  Forall (fun c => Maze.free corridor c /\ Maze.on_grid corridor c)
    [(6, 2); (5, 2); (4, 2); (3, 2)].
Proof.
  assert (Maze.find_path corridor 3 (6, 2) (3, 2)
          = Ret [(6, 2); (5, 2); (4, 2); (3, 2)]) as Hret
    by (vm_compute; reflexivity).
  split; [exact Hret|].
  assert (forall x y, 0 <= x < 9 -> 0 <= y < 5 -> Maze.on_grid corridor (x, y))
    as Hgrid.
  { intros x y Hx Hy. unfold Maze.on_grid.
    change (Maze.maze_width corridor) with 9.
    change (Maze.maze_height corridor) with 5. simpl. lia. }
  destruct (find_path_is_walk corridor 3 (6, 2) (3, 2)
              [(6, 2); (5, 2); (4, 2); (3, 2)]
              (Hgrid 6 2 ltac:(lia) ltac:(lia))
              (Hgrid 3 2 ltac:(lia) ltac:(lia))) as (_ & _ & Hw & Hall).
  - eexists. split; vm_compute; reflexivity.
  - exact Hret.
  - split; [exact Hw | exact Hall].
Defined.

(* ===================================================================== *)
(** ** Further properties: Schedule *)
(* ===================================================================== *)

Section schedule_contiguous.
Import Schedule.

Lemma contiguous_from_snoc plans : forall t i p,
  contiguous_from t i plans ->
  idx p = i + Z.of_nat (length plans) ->
  start p = match last plans with
            | Some l => start l + duration l
            | None => t
            end ->
  contiguous_from t i (plans ++ [p]).
Proof.
  induction plans as [|q plans IH]; intros t i p Hc Hidx Hstart.
  - simpl in *. split; [lia|]. split; [done|done].
  - destruct Hc as (Hi & Ht & Hc). split; [done|]. split; [done|].
    apply IH; [done|simpl length in Hidx; lia|].
    destruct plans as [|q' plans]; [exact Hstart|].
    rewrite last_cons_cons in Hstart.
    destruct (last (q' :: plans)) eqn:E; [exact Hstart|].
    apply last_None in E. discriminate E.
Qed.

Lemma scan_contiguous plans : forall t i now,
  contiguous_from t i plans -> t <= now ->
  (exists p, In p plans /\ now < start p + duration p) ->
  exists p q, scan_plans now plans = Some (p, q) /\ In p plans /\
              start p <= now < start p + duration p.
Proof.
  induction plans as [|p0 plans IH]; intros t i now Hc Ht (p & Hin & Hp).
  - destruct Hin.
  - destruct Hc as (_ & Hs & Hc). simpl.
    destruct (Z.leb_spec (start p0 + duration p0) now) as [Hend|Hend].
    + destruct (IH _ _ now Hc Hend) as (p1 & q & Hscan & Hin1 & Hnow).
      * destruct Hin as [<-|Hin]; [lia|]. by exists p.
      * exists p1, q. split; [done|]. split; [by right|done].
    + eexists _, _. split; [reflexivity|]. split; [by left|lia].
Qed.
End schedule_contiguous.

Lemma add_plan_keeps_contiguous (plans : list Schedule.plan) (describe : string)
    (duration : Z) (decompose : list Schedule.plan) :
  Schedule.contiguous plans ->
  Schedule.contiguous (Schedule.add_plan plans describe duration decompose).1.
Proof.
  intros Hc. unfold Schedule.add_plan. cbv zeta. simpl.
  apply contiguous_from_snoc; [done|simpl; lia|]. simpl.
  rewrite index_minus_one. by destruct (last plans).
Qed.

(** X14. [add_plan] keeps a schedule gap-free: on a schedule whose plans are
    numbered 0, 1, ... and follow each other from minute 0 without gap,
    the new plan gets the next number and starts where the last one ends,
    and the schedule with it is again of that kind. *)
Theorem add_plan_contiguous (plans : list Schedule.plan) (describe : string)
    (duration : Z) (decompose : list Schedule.plan)
    (Hc : Schedule.contiguous plans) :
  Schedule.contiguous (Schedule.add_plan plans describe duration decompose).1 /\
  last (Schedule.add_plan plans describe duration decompose).1
  = Some (Schedule.add_plan plans describe duration decompose).2 /\
  Schedule.idx (Schedule.add_plan plans describe duration decompose).2
  = Z.of_nat (length plans).
Proof.
  split; [by apply add_plan_keeps_contiguous|].
  unfold Schedule.add_plan. cbv zeta. simpl. split.
  - apply last_snoc.
  - reflexivity.
Qed.

Lemma morning_contiguous : Schedule.contiguous morning.
Proof.
  unfold morning. cbv zeta.
  repeat (apply add_plan_keeps_contiguous). exact I.
Qed.

Lemma add_plan_contiguous_witness :
  Schedule.contiguous (Schedule.add_plan morning "午饭" 60 []).1 /\
  Schedule.start (Schedule.add_plan morning "午饭" 60 []).2 = 720.
Proof.
  destruct (add_plan_contiguous morning "午饭" 60 [] morning_contiguous)
    as [H _].
  split; [exact H|reflexivity].
Defined.

(** X15. On a gap-free schedule, at a minute of the day that some plan has
    not yet passed, [current_plan] returns the plan that is running:
    the one whose span [start, start + duration) contains the minute. *)
Theorem current_plan_is_running (plans : list Schedule.plan) (now : Z)
    (Hc : Schedule.contiguous plans) (Hnow : 0 <= now)
    (Hopen : exists p, In p plans /\
                       now < Schedule.start p + Schedule.duration p) :
  exists p q, Schedule.current_plan now plans = Some (p, q) /\ In p plans /\
              Schedule.start p <= now < Schedule.start p + Schedule.duration p.
Proof.
  destruct (scan_contiguous plans 0 0 now Hc Hnow Hopen)
    as (p & q & Hscan & Hin & Hspan).
  exists p, q. unfold Schedule.current_plan. by rewrite Hscan.
Qed.

(** At 07:30 the morning schedule is at breakfast. *)
Lemma current_plan_is_running_witness :
  exists p q, Schedule.current_plan 450 morning = Some (p, q) /\
              Schedule.describe p = "吃早饭" /\
              Schedule.start p <= 450 < Schedule.start p + Schedule.duration p.
Proof.
  destruct (current_plan_is_running morning 450 morning_contiguous ltac:(lia))
    as (p & q & Hcur & _ & Hspan).
  - eexists. split; [right; left; reflexivity|]. vm_compute. reflexivity.
  - exists p, q. split; [exact Hcur|]. split; [|exact Hspan].
    vm_compute in Hcur. injection Hcur as <- _. reflexivity.
Defined.

(** X16. The whole answer of [Schedule.decompose]: a plan is refused exactly
    when it is already decomposed or its describe has both an English
    keyword ("sleep" or "bed") and a Chinese one ("睡" or "床"); the
    duration of the plan never plays a part. *)
Theorem decompose_characterised (p : Schedule.plan) :
  Schedule.decompose p
  = bool_decide (Schedule.decompose_of p = [])
    && negb ((Py.str_in "sleep" (Schedule.describe p)
              || Py.str_in "bed" (Schedule.describe p))
             && (Py.str_in "睡" (Schedule.describe p)
                 || Py.str_in "床" (Schedule.describe p))).
Proof.
  unfold Schedule.decompose. cbv zeta.
  destruct (Schedule.decompose_of p) as [|d l]; [|reflexivity].
  simpl length. change (0 <? Z.of_nat 0) with false. cbv iota.
  rewrite bool_decide_eq_true_2 by reflexivity.
  destruct (Py.str_in "sleep" _), (Py.str_in "bed" _), (Py.str_in "睡" _),
    (Py.str_in "床" _), (Py.str_in "sleeping" _), (Py.str_in "asleep" _),
    (Py.str_in "in bed" _); reflexivity.
Qed.

(* ===================================================================== *)
(** ** Further properties: LLMModel *)
(* ===================================================================== *)

Section embedding_props.
Import LLMModel.
Variable _embedding : nat -> option value.

Lemma embed_attempts_none n : forall i r,
  truthy r = false ->
  (forall j, (i <= j < i + n)%nat -> no_vector _embedding j) ->
  truthy (embed_attempts _embedding n i r) = false.
Proof.
  induction n as [|n IH]; intros i r Hr Hall; [done|]. simpl.
  pose proof (Hall i ltac:(lia)) as Hi. unfold no_vector in Hi.
  destruct (_embedding i) as [r'|].
  - rewrite Hi. apply IH; [done|]. intros j Hj. apply Hall. lia.
  - apply IH; [done|]. intros j Hj. apply Hall. lia.
Qed.

Lemma embed_attempts_first n : forall i k r v,
  (forall j, (i <= j < k)%nat -> no_vector _embedding j) ->
  (i <= k < i + n)%nat -> _embedding k = Some v -> truthy v = true ->
  embed_attempts _embedding n i r = v.
Proof.
  induction n as [|n IH]; intros i k r v Hbefore Hk Hv Ht; [lia|]. simpl.
  destruct (decide (i = k)) as [->|Hne].
  - by rewrite Hv, Ht.
  - pose proof (Hbefore i ltac:(lia)) as Hi. unfold no_vector in Hi.
    assert (forall j, (S i <= j < k)%nat -> no_vector _embedding j) as Hb'
      by (intros j Hj; apply Hbefore; lia).
    destruct (_embedding i) as [r'|].
    + rewrite Hi. apply (IH (S i) k); auto. lia.
    + apply (IH (S i) k); auto. lia.
Qed.
End embedding_props.

(** X17. [LLMModel.embedding] returns the first non-empty result among the
    first [retry] attempts, whatever raised or came back empty before it;
    when no attempt gives one, what it returns is falsy ([None] or an
    empty result). *)
Theorem embedding_first_vector (_embedding : nat -> option LLMModel.value)
    (retry : Z) :
  (forall k v, (k < Z.to_nat retry)%nat ->
     (forall j, (j < k)%nat -> LLMModel.no_vector _embedding j) ->
     _embedding k = Some v -> LLMModel.truthy v = true ->
     LLMModel.embedding _embedding retry = v) /\
  ((forall j, (j < Z.to_nat retry)%nat -> LLMModel.no_vector _embedding j) ->
   LLMModel.truthy (LLMModel.embedding _embedding retry) = false).
Proof.
  split.
  - intros k v Hk Hbefore Hv Ht. unfold LLMModel.embedding.
    apply (embed_attempts_first _embedding _ 0%nat k); auto; [|lia].
    intros j Hj. apply Hbefore. lia.
  - intros Hall. unfold LLMModel.embedding.
    apply embed_attempts_none; [done|]. intros j Hj. apply Hall. lia.
Qed.

(** The fourth attempt of the shaky provider gives the vector; with only
    three attempts the empty vector of the second attempt is what comes
    back. *)
Lemma embedding_first_vector_witness :
  LLMModel.embedding shaky_embedding 10
  = LLMModel.VList [LLMModel.VInt 7; LLMModel.VInt 9] /\
  LLMModel.embedding shaky_embedding 3 = LLMModel.VList [].
Proof.
  destruct (embedding_first_vector shaky_embedding 10) as [Hfirst _].
  split; [|reflexivity].
  apply (Hfirst 3%nat); [simpl; lia| |reflexivity|reflexivity].
  intros [|[|[|j]]] Hj; try lia; exact I || reflexivity.
Defined.

Section completion_stats.
Import LLMModel.
Variable _completion : nat -> option string.
Variable callback : option (string -> option value).
Variable caller : string.
Hypothesis Hcaller : caller <> "total".

Lemma bump_same pos key (sm : gmap string counters) a s f :
  sm !! key = Some (a, s, f) ->
  bump pos key sm !! key
  = Some (if pos =? 0 then (a + 1, s, f)
          else if pos =? 1 then (a, s + 1, f) else (a, s, f + 1)).
Proof. intros H. unfold bump. rewrite H. apply lookup_insert_eq. Qed.

Lemma bump_other pos key key' (sm : gmap string counters) :
  key <> key' -> bump pos key sm !! key' = sm !! key'.
Proof.
  intros Hne. unfold bump. destruct (sm !! key) as [[[a s] f]|]; [|done].
  by rewrite lookup_insert_ne.
Qed.

Lemma attempts_counts n : forall i llm r llm1 ta ts tf ca cs cf,
  attempts _completion callback caller n i llm = (r, llm1) ->
  summary llm !! "total" = Some (ta, ts, tf) ->
  summary llm !! caller = Some (ca, cs, cf) ->
  exists k : nat, (k <= n)%nat /\
    length (meta_responses llm1) = (length (meta_responses llm) + k)%nat /\
    summary llm1 !! "total" = Some (ta + Z.of_nat k, ts, tf) /\
    summary llm1 !! caller = Some (ca + Z.of_nat k, cs, cf).
Proof.
  induction n as [|n IH]; intros i llm r llm1 ta ts tf ca cs cf Ha Ht Hc.
  - injection Ha as <- <-. exists 0%nat.
    split; [lia|]. split; [lia|]. rewrite !Z.add_0_r. done.
  - simpl in Ha. destruct (_completion i) as [meta|].
    + set (llm' := {| meta_responses := meta_responses llm ++ [meta];
                      summary := bump 0 caller (bump 0 "total" (summary llm)) |})
        in Ha.
      assert (summary llm' !! "total" = Some (ta + 1, ts, tf)) as Ht'.
      { simpl. rewrite bump_other by done. by rewrite (bump_same 0 _ _ ta ts tf). }
      assert (summary llm' !! caller = Some (ca + 1, cs, cf)) as Hc'.
      { simpl. apply (bump_same 0). by rewrite bump_other by done. }
      assert (length (meta_responses llm') = S (length (meta_responses llm)))
        as Hlen by (simpl; rewrite length_app; simpl; lia).
      assert (forall r llm1,
                attempts _completion callback caller n (S i) llm' = (r, llm1) ->
                exists k : nat, (k <= S n)%nat /\
                  length (meta_responses llm1)
                  = (length (meta_responses llm) + k)%nat /\
                  summary llm1 !! "total" = Some (ta + Z.of_nat k, ts, tf) /\
                  summary llm1 !! caller = Some (ca + Z.of_nat k, cs, cf))
        as Hrest.
      { intros r' l1 Hr.
        destruct (IH _ _ _ _ _ _ _ _ _ _ Hr Ht' Hc') as (k & Hk & Hl & H1 & H2).
        exists (S k). split; [lia|]. split; [lia|].
        rewrite H1, H2. split; do 3 f_equal; lia. }
      destruct (respond callback meta) as [v|]; [|exact (Hrest _ _ Ha)].
      destruct (is_none v); [exact (Hrest _ _ Ha)|].
      injection Ha as <- <-. exists 1%nat.
      split; [lia|]. split; [lia|]. done.
    + destruct (IH _ _ _ _ _ _ _ _ _ _ Ha Ht Hc) as (k & Hk & Hl & H1 & H2).
      exists k. split; [lia|]. done.
Qed.
End completion_stats.

(** X18. The statistics of one [completion] call: the attempts counters of
    the caller and of "total" grow by the number of raw responses kept in
    [meta_responses], which is at most [retry], and exactly one of the
    success and failure counters grows by one; when it is the failure
    counter, the failsafe was returned. *)
Theorem completion_counters (_completion : nat -> option string)
    (callback : option (string -> option LLMModel.value)) (caller : string)
    (llm : LLMModel.t) (retry : Z) (failsafe : LLMModel.value) (ta ts tf : Z)
    (Hcaller : caller <> "total")
    (Htotal : LLMModel.summary llm !! "total" = Some (ta, ts, tf)) :
  let out := LLMModel.completion _completion callback caller llm retry failsafe in
  let n := Z.of_nat (length (LLMModel.meta_responses out.2)) in
  let '(ca, cs, cf) := default (0, 0, 0) (LLMModel.summary llm !! caller) in
  n <= Z.max 0 retry /\
  exists x, (x = 0 \/ x = 1) /\
    LLMModel.summary out.2 !! "total" = Some (ta + n, ts + x, tf + (1 - x)) /\
    LLMModel.summary out.2 !! caller = Some (ca + n, cs + x, cf + (1 - x)) /\
    (x = 0 -> out.1 = failsafe).
Proof.
  cbv zeta. unfold LLMModel.completion.
  set (sm0 := LLMModel.setdefault caller (LLMModel.summary llm)).
  assert (sm0 !! "total" = Some (ta, ts, tf)) as Ht0.
  { subst sm0. unfold LLMModel.setdefault.
    destruct (LLMModel.summary llm !! caller); [done|].
    by rewrite lookup_insert_ne. }
  assert (sm0 !! caller
          = Some (default (0, 0, 0) (LLMModel.summary llm !! caller))) as Hc0.
  { subst sm0. unfold LLMModel.setdefault.
    destruct (LLMModel.summary llm !! caller) eqn:E; [exact E|].
    simpl. apply lookup_insert_eq. }
  destruct (default (0, 0, 0) (LLMModel.summary llm !! caller)) as [[ca cs] cf].
  destruct (LLMModel.attempts _completion callback caller (Z.to_nat retry) 0
              {| LLMModel.meta_responses := []; LLMModel.summary := sm0 |})
    as [r llm1] eqn:Ha.
  destruct (attempts_counts _completion callback caller Hcaller _ _ _ _ _
              ta ts tf ca cs cf Ha Ht0 Hc0) as (k & Hk & Hlen & H1 & H2).
  simpl in Hlen. cbn [fst snd LLMModel.meta_responses LLMModel.summary].
  rewrite Hlen. split; [lia|].
  exists (if LLMModel.is_none r then 0 else 1).
  split; [destruct (LLMModel.is_none r); auto|].
  destruct (LLMModel.is_none r) eqn:Hr.
  - split; [|split].
    + rewrite bump_other by done.
      etrans; [apply (bump_same 2 _ _ _ _ _ H1)|].
      cbn [Z.eqb]. do 3 f_equal; lia.
    + etrans; [apply (bump_same 2 _ _ (ca + Z.of_nat k) cs cf)|].
      * by rewrite bump_other by done.
      * cbn [Z.eqb]. do 3 f_equal; lia.
    + intros _. by destruct r.
  - split; [|split].
    + rewrite bump_other by done.
      etrans; [apply (bump_same 1 _ _ _ _ _ H1)|].
      cbn [Z.eqb Pos.eqb]. do 3 f_equal; lia.
    + etrans; [apply (bump_same 1 _ _ (ca + Z.of_nat k) cs cf)|].
      * by rewrite bump_other by done.
      * cbn [Z.eqb Pos.eqb]. do 3 f_equal; lia.
    + intros H. discriminate H.
Qed.

(** The midnight answer of the wake-up prompt: one raw response, one
    attempt and one success counted. *)
Lemma completion_counters_witness :
  exists x,
    LLMModel.summary
      (LLMModel.completion midnight_provider (Some wake_up_callback) "wake_up"
         LLMModel.init 10 (LLMModel.VInt 6)).2 !! "wake_up"
    = Some (0 + 1, 0 + x, 0 + (1 - x)).
Proof.
  assert ("wake_up" <> "total") as Hne by discriminate.
  pose proof (completion_counters midnight_provider (Some wake_up_callback)
                "wake_up" LLMModel.init 10 (LLMModel.VInt 6) 0 0 0 Hne eq_refl)
    as H.
  cbv zeta in H. change (LLMModel.summary LLMModel.init !! "wake_up") with
    (@None LLMModel.counters) in H. simpl default in H.
  destruct H as (_ & x & _ & _ & Hc & _). exists x.
  rewrite Hc. do 3 f_equal.
Defined.

(* ===================================================================== *)
(** ** Further properties: Associate *)
(* ===================================================================== *)

Section associate_consistent.
Implicit Types (a : Associate.t) (ix : LlamaIndex.t) (ty : node_type).

Lemma memory_store_ne a ix ty ty' l :
  ty' <> ty -> Associate.memory (Associate.store a ix ty l) ty' = Associate.memory a ty'.
Proof. by destruct ty, ty'. Qed.

Lemma node_id_inj (i j : Z) : "node_" +:+ pretty i = "node_" +:+ pretty j -> i = j.
Proof. intros H. simpl in H. injection H as H. by apply (inj pretty). Qed.

Lemma init_consistent retention max_memory :
  Associate.consistent (Associate.init retention max_memory).
Proof.
  split; [|split; [|split]].
  - intros []; constructor.
  - intros ty1 ty2 id H. destruct ty1; by apply elem_of_nil in H.
  - intros ty id H. destruct ty; by apply elem_of_nil in H.
  - intros id nd H. simpl in H. by rewrite lookup_empty in H.
Qed.

Lemma take_sub {A} (l : list A) n x : x ∈ take n l -> x ∈ l.
Proof. intros H. apply elem_of_take in H as (i & Hi & _). by eapply list_elem_of_lookup_2. Qed.

(** [add_node] keeps the store consistent, whether the insertion
    succeeds or not and whatever is evicted. *)
Lemma add_node_consistent now fails a ty ev poignancy create expire :
  Associate.consistent a ->
  Associate.consistent
    (Associate.add_node now fails a ty ev poignancy create expire).1.
Proof.
  intros (Hnd & Hdisj & Hlisted & Hkeyed). unfold Associate.add_node. cbv zeta.
  set (md := LlamaIndex.meta_of _ _ _ _ _).
  destruct (le_lt_dec LlamaIndex.max_retries fails) as [Hfail|Hsucc].
  - (* the vector store gave up: only the counter moved *)
    unfold LlamaIndex.max_retries in Hfail.
    destruct fails as [|[|[|fails]]]; [lia..|].
    unfold LlamaIndex.add_node. cbn [LlamaIndex.add_node_loop LlamaIndex.max_retries].
    cbn [LlamaIndex.max_nodes LlamaIndex.docs fst].
    set (ix' := LlamaIndex.mk _ _).
    assert (forall ty', Associate.memory
              (Associate.store a ix' ty (Associate.memory a ty)) ty'
            = Associate.memory a ty') as E.
    { intros ty'. destruct (decide (ty' = ty)) as [->|Hne];
        [by rewrite memory_store|by rewrite memory_store_ne]. }
    split; [|split; [|split]].
    + intros ty'. rewrite E. apply Hnd.
    + intros ty1 ty2 id. rewrite !E. apply Hdisj.
    + intros ty' id. rewrite E. intros Hin.
      destruct (Hlisted ty' id Hin) as (Hs & j & Hj & ->).
      split; [exact Hs|]. exists j. split; [simpl; lia|done].
    + exact Hkeyed.
  - (* the node is stored under a fresh id *)
    rewrite index_add_node_ok by exact Hsucc. cbv zeta.
    set (id := "node_" +:+ pretty (LlamaIndex.max_nodes (Associate.index a))).
    set (nd := {| LlamaIndex.id_ := id; LlamaIndex.text := Event.get_describe ev;
                  LlamaIndex.meta := md |}).
    change (LlamaIndex.id_ nd) with id.
    set (old := Associate.memory a ty).
    assert (forall ty', id ∉ Associate.memory a ty') as Hfresh.
    { intros ty' Hin. destruct (Hlisted ty' id Hin) as (_ & j & Hj & Heq).
      apply node_id_inj in Heq. lia. }
    assert (NoDup (id :: old)) as Hndm by (constructor; [apply Hfresh|apply Hnd]).
    set (docs1 := <[id := nd]> (LlamaIndex.docs (Associate.index a))).
    assert (forall i n0, docs1 !! i = Some n0 -> LlamaIndex.id_ n0 = i) as Hkeyed1.
    { intros i n0 H. subst docs1. apply lookup_insert_Some in H as [[<- <-]|[_ H]];
        [done|by apply Hkeyed]. }
    assert (forall ty' i, i ∈ Associate.memory a ty' -> is_Some (docs1 !! i))
      as Hlisted1.
    { intros ty' i Hin. subst docs1. rewrite lookup_insert.
      destruct (decide (id = i)); [done|]. by apply (Hlisted ty' i). }
    assert (forall l ixd mx,
              (forall i, i ∈ l -> i ∈ id :: old) -> NoDup l ->
              LlamaIndex.max_nodes (Associate.index a) < mx ->
              (forall i n0, ixd !! i = Some n0 -> docs1 !! i = Some n0) ->
              (forall i, i ∈ l -> is_Some (ixd !! i)) ->
              (forall ty' i, ty' <> ty -> i ∈ Associate.memory a ty' ->
                             is_Some (ixd !! i)) ->
              Associate.consistent
                (Associate.store a {| LlamaIndex.max_nodes := mx;
                                      LlamaIndex.docs := ixd |} ty l)) as Hgen.
    { intros l ixd mx Hsub Hndl Hmx Hdocs Hl Hother.
      split; [|split; [|split]].
      - intros ty'. destruct (decide (ty' = ty)) as [->|Hne];
          [by rewrite memory_store|rewrite memory_store_ne by done; apply Hnd].
      - intros ty1 ty2 i H1 H2.
        destruct (decide (ty1 = ty)) as [->|Hne1];
          destruct (decide (ty2 = ty)) as [->|Hne2]; [done| | |].
        + rewrite memory_store in H1. rewrite memory_store_ne in H2 by done.
          apply Hsub in H1. apply elem_of_cons in H1 as [->|H1].
          * by destruct (Hfresh ty2).
          * symmetry. by apply (Hdisj ty2 ty i).
        + rewrite memory_store in H2. rewrite memory_store_ne in H1 by done.
          apply Hsub in H2. apply elem_of_cons in H2 as [->|H2].
          * by destruct (Hfresh ty1).
          * by apply (Hdisj ty1 ty i).
        + rewrite memory_store_ne in H1, H2 by done. by apply (Hdisj ty1 ty2 i).
      - intros ty' i Hin. simpl.
        destruct (decide (ty' = ty)) as [->|Hne].
        + rewrite memory_store in Hin. split; [by apply Hl|].
          apply Hsub in Hin. apply elem_of_cons in Hin as [->|Hin].
          * eexists. split; [exact Hmx|done].
          * destruct (Hlisted ty i Hin) as (_ & j & Hj & ->).
            exists j. split; [lia|done].
        + rewrite memory_store_ne in Hin by done. split; [by apply (Hother ty')|].
          destruct (Hlisted ty' i Hin) as (_ & j & Hj & ->).
          exists j. split; [lia|done].
      - intros i n0 H. simpl in H. apply Hkeyed1. by apply Hdocs. }
    destruct (_ && _) eqn:Hevict; simpl.
    + (* eviction *)
      unfold Py.slice_to, Py.slice_from.
      set (M := Associate.max_memory a).
      apply Hgen.
      * intros i Hi. by eapply take_sub.
      * exact (sublist_NoDup _ _ Hndm (sublist_take _ _)).
      * simpl; lia.
      * intros i n0 H. by apply lookup_foldr_delete_Some in H as [_ H].
      * intros i Hi. rewrite lookup_foldr_delete_not_elem_of;
          cbn [LlamaIndex.docs].
        -- apply take_sub in Hi as Hi'. apply elem_of_cons in Hi' as [->|Hi'].
           ++ subst docs1. by rewrite lookup_insert_eq.
           ++ by apply (Hlisted1 ty).
        -- intros Hdrop. apply elem_of_take in Hi as (p1 & Hp1 & Hlt).
           apply list_elem_of_lookup in Hdrop as [p2 Hp2].
           rewrite lookup_drop in Hp2.
           pose proof (NoDup_lookup _ _ _ _ Hndm Hp1 Hp2). 
           apply andb_prop in Hevict as [_ HM]. apply Z.ltb_lt in HM.
           subst M. lia.
      * intros ty' i Hne Hin. rewrite lookup_foldr_delete_not_elem_of;
          cbn [LlamaIndex.docs].
        -- by apply (Hlisted1 ty').
        -- intros Hdrop. apply list_elem_of_lookup in Hdrop as [p2 Hp2].
           rewrite lookup_drop in Hp2. apply list_elem_of_lookup_2 in Hp2.
           apply elem_of_cons in Hp2 as [->|Hp2]; [by destruct (Hfresh ty')|].
           by destruct (Hne (Hdisj ty' ty i Hin Hp2)).
    + apply Hgen; try done.
      * simpl; lia.
      * intros i Hi. apply elem_of_cons in Hi as [->|Hi].
        -- subst docs1. by rewrite lookup_insert_eq.
        -- by apply (Hlisted1 ty).
      * intros ty' i _ Hin. by apply (Hlisted1 ty').
Qed.
End associate_consistent.

Section associate_reached.
Implicit Types (a : Associate.t) (ix : LlamaIndex.t) (ty : node_type).

Lemma cleanup_ids now ix id :
  id ∈ (LlamaIndex.cleanup now ix).2 <->
  exists nd, LlamaIndex.docs ix !! id = Some nd /\ LlamaIndex.stale now nd = true.
Proof.
  unfold LlamaIndex.cleanup. cbn [snd]. rewrite list_elem_of_fmap. split.
  - intros ([i nd] & -> & Hin). apply elem_of_map_to_list in Hin.
    apply map_lookup_filter_Some in Hin as [Hl Hs]. by exists nd.
  - intros (nd & Hl & Hs). exists (id, nd). split; [done|].
    apply elem_of_map_to_list. by apply map_lookup_filter_Some.
Qed.

Lemma cleanup_docs now ix id nd :
  LlamaIndex.docs (LlamaIndex.cleanup now ix).1 !! id = Some nd <->
  LlamaIndex.docs ix !! id = Some nd /\ LlamaIndex.stale now nd = false.
Proof.
  pose proof (cleanup_ids now ix id) as Hids.
  unfold LlamaIndex.cleanup in *. cbn [fst snd] in *.
  unfold LlamaIndex.remove_nodes. cbn [LlamaIndex.docs].
  rewrite lookup_foldr_delete_Some. split.
  - intros [Hnot Hl]. split; [done|].
    destruct (LlamaIndex.stale now nd) eqn:E; [|done].
    destruct Hnot. apply Hids. by exists nd.
  - intros [Hl Hs]. split; [|done]. intros Hin. apply Hids in Hin as (nd' & Hl' & Hs').
    congruence.
Qed.

Lemma cleanup_memory now a ty :
  Associate.memory (Associate.cleanup_index now a) ty
  = filter (fun n => n ∉ (LlamaIndex.cleanup now (Associate.index a)).2)
      (Associate.memory a ty).
Proof. by destruct ty. Qed.

Lemma cleanup_index_consistent now a :
  Associate.consistent a -> Associate.consistent (Associate.cleanup_index now a).
Proof.
  intros (Hnd & Hdisj & Hlisted & Hkeyed). split; [|split; [|split]].
  - intros ty. rewrite cleanup_memory. apply NoDup_filter, Hnd.
  - intros ty1 ty2 id. rewrite !cleanup_memory, !list_elem_of_filter.
    intros [_ H1] [_ H2]. by apply (Hdisj ty1 ty2 id).
  - intros ty id. rewrite cleanup_memory, list_elem_of_filter. intros [Hnot Hin].
    destruct (Hlisted ty id Hin) as ([nd Hl] & j & Hj & ->). split.
    + exists nd. apply (cleanup_docs now (Associate.index a)). split; [done|].
      destruct (LlamaIndex.stale now nd) eqn:E; [|done].
      destruct Hnot. apply cleanup_ids. by exists nd.
    + exists j. by split.
  - intros id nd H. apply (cleanup_docs now (Associate.index a)) in H as [H _].
    by apply Hkeyed.
Qed.

Lemma reached_consistent r m a :
  Associate.reached r m a ->
  Associate.consistent a /\ Associate.retention a = r /\ Associate.max_memory a = m.
Proof.
  induction 1 as [|now fails a ty ev p cr ex _ (IH & Hr & Hm)|now a _ (IH & Hr & Hm)].
  - split; [apply init_consistent|done].
  - split; [by apply add_node_consistent|].
    unfold Associate.add_node. cbv zeta.
    destruct (LlamaIndex.add_node _ _ _ _) as [ix [nd|]]; [|done].
    by destruct (_ && _).
  - split; [by apply cleanup_index_consistent|done].
Qed.

Lemma retrieve_nodes_spec a ty :
  Associate.consistent a ->
  exists nodes,
    Forall2 (fun id nd => LlamaIndex.docs (Associate.index a) !! id = Some nd
                          /\ LlamaIndex.id_ nd = id)
      (Associate.memory a ty) nodes /\
    Associate.retrieve_nodes a ty
    = Some (Concept.from_node <$> take (Z.to_nat (Associate.retention a)) nodes).
Proof.
  intros (_ & _ & Hlisted & Hkeyed).
  destruct (mapM (LlamaIndex.find_node (Associate.index a)) (Associate.memory a ty))
    as [nodes|] eqn:E.
  - exists nodes. split.
    + apply mapM_Some in E. eapply Forall2_impl; [exact E|].
      intros id nd H. split; [exact H|by apply Hkeyed].
    + unfold Associate.retrieve_nodes. by rewrite E.
  - exfalso. apply mapM_None in E. apply Exists_exists in E as (id & Hin & Hnone).
    destruct (Hlisted ty id Hin) as [[nd Hl] _].
    unfold LlamaIndex.find_node in Hnone. congruence.
Qed.
End associate_reached.

(** X19. Every store that [add_node] and [cleanup_index] can produce from a
    fresh one is consistent (no id listed twice or under two types, every
    listed id a node of the vector store filed under its own id), and
    with a positive [max_memory] no memory type ever lists [max_memory]
    ids or more. *)
Theorem reached_store_invariant (r m : Z) (a : Associate.t)
    (Hreached : Associate.reached r m a) :
  Associate.consistent a /\
  (0 < m -> forall ty, Z.of_nat (length (Associate.memory a ty)) < m).
Proof.
  split; [by apply (reached_consistent r m)|]. intros Hm.
  induction Hreached as [|now fails a ty ev p cr ex Hre IH|now a Hre IH]; intros ty'.
  - destruct ty'; simpl; lia.
  - destruct (reached_consistent r m a Hre) as (_ & _ & HM).
    unfold Associate.add_node. cbv zeta.
    destruct (LlamaIndex.add_node _ _ _ _) as [ix [nd|]]; cbn [fst].
    + destruct ((Associate.max_memory a
                 <=? Z.of_nat (length (LlamaIndex.id_ nd :: Associate.memory a ty)))
                && (0 <? Associate.max_memory a)) eqn:E; cbn [fst].
      * destruct (decide (ty' = ty)) as [->|Hne];
          [rewrite memory_store|by rewrite memory_store_ne].
        unfold Py.slice_to. rewrite length_take. lia.
      * destruct (decide (ty' = ty)) as [->|Hne];
          [rewrite memory_store|by rewrite memory_store_ne].
        apply andb_false_iff in E as [E|E]; [apply Z.leb_gt in E|apply Z.ltb_ge in E]; lia.
    + destruct (decide (ty' = ty)) as [->|Hne];
        [by rewrite memory_store|by rewrite memory_store_ne].
  - rewrite cleanup_memory. pose proof (IH ty').
    pose proof (length_filter (fun n => n ∉ (LlamaIndex.cleanup now (Associate.index a)).2)
                  (Associate.memory a ty')). lia.
Qed.

Lemma reached_store_invariant_witness :
  Associate.consistent (store_after_three 3) /\
  (0 < 3 ->
   forall ty, Z.of_nat (length (Associate.memory (store_after_three 3) ty)) < 3).
Proof.
  apply (reached_store_invariant 8 3 (store_after_three 3)).
  unfold store_after_three. cbv zeta. repeat apply Associate.reached_add_node.
  apply Associate.reached_init.
Defined.

(** X20. [cleanup_index] removes exactly the stale nodes: a node stays in
    the vector store iff it was there and is neither expired nor dated in
    the future, and each memory list keeps, in their order, exactly the
    ids that do not name a stale node. *)
Theorem cleanup_index_removes_exactly_stale (now : Z) (a : Associate.t) :
  let a' := Associate.cleanup_index now a in
  (forall id nd,
     LlamaIndex.docs (Associate.index a') !! id = Some nd <->
     LlamaIndex.docs (Associate.index a) !! id = Some nd /\
     LlamaIndex.m_create (LlamaIndex.meta nd) <= now
       <= LlamaIndex.m_expire (LlamaIndex.meta nd)) /\
  (forall ty,
     Associate.memory a' ty `sublist_of` Associate.memory a ty /\
     forall id, id ∈ Associate.memory a' ty <->
       id ∈ Associate.memory a ty /\
       ~ exists nd, LlamaIndex.docs (Associate.index a) !! id = Some nd /\
                    LlamaIndex.stale now nd = true).
Proof.
  intros a'. split.
  - intros id nd. subst a'.
    change (Associate.index (Associate.cleanup_index now a))
      with (LlamaIndex.cleanup now (Associate.index a)).1.
    rewrite cleanup_docs. unfold LlamaIndex.stale.
    rewrite orb_false_iff, !Z.ltb_ge. tauto.
  - intros ty. subst a'. rewrite cleanup_memory. split; [apply sublist_filter|].
    intros id. rewrite list_elem_of_filter, cleanup_ids. tauto.
Qed.

(** X21. On a store built from a fresh one by [add_node] and
    [cleanup_index], retrieving the recent events, thoughts or chats never
    hits a missing node: it returns the concepts of the first [retention]
    ids of that memory list, newest first. *)
Theorem retrieve_nodes_newest_first (r m : Z) (a : Associate.t) (ty : node_type)
    (Hreached : Associate.reached r m a) (Hr : 0 <= r) :
  exists cs,
    Associate.retrieve_nodes a ty = Some cs /\
    Concept.node_id <$> cs = take (Z.to_nat r) (Associate.memory a ty) /\
    Z.of_nat (length cs) <= r.
Proof.
  destruct (reached_consistent r m a Hreached) as (Hc & Hret & _).
  destruct (retrieve_nodes_spec a ty Hc) as (nodes & Hall & ->).
  rewrite Hret. eexists. split; [reflexivity|].
  assert (LlamaIndex.id_ <$> nodes = Associate.memory a ty) as Hids.
  { clear -Hall. induction Hall as [|id nd l k [_ Hid] _ IH]; [done|].
    cbn [fmap list_fmap]. by rewrite Hid, IH. }
  split.
  - rewrite <- list_fmap_compose, <- Hids, fmap_take. reflexivity.
  - rewrite length_fmap, length_take. lia.
Qed.

Lemma retrieve_nodes_newest_first_witness :
  exists cs,
    Associate.retrieve_nodes (store_after_three (-1)) NEvent = Some cs /\
    Concept.node_id <$> cs
    = take (Z.to_nat 8) (Associate.memory (store_after_three (-1)) NEvent) /\
    Z.of_nat (length cs) <= 8.
Proof.
  apply (retrieve_nodes_newest_first 8 (-1) (store_after_three (-1)) NEvent);
    [|lia].
  unfold store_after_three. cbv zeta. repeat apply Associate.reached_add_node.
  apply Associate.reached_init.
Defined.

Lemma get_describe_fixpoint (e e' : Event.t) :
  Event.subject e' = Event.subject e ->
  Event.describe e' = Event.get_describe e ->
  Event.get_describe e' = Event.get_describe e.
Proof.
  intros Hs Hd. unfold Event.get_describe at 1. cbv zeta. rewrite Hs, Hd.
  unfold Event.get_describe. cbv zeta.
  set (d := if Py.truthy_str (Event.describe e) then Event.describe e
            else Event.predicate e +:+ " " +:+ Event.object e).
  assert (Py.truthy_str d = true) as Ht.
  { subst d. destruct (Py.truthy_str (Event.describe e)) eqn:E; [done|].
    apply truthy_app_r. reflexivity. }
  destruct (Py.str_in (Event.subject e) d) eqn:Hin.
  - by rewrite Ht, Hin.
  - assert (Py.truthy_str (Event.subject e +:+ " " +:+ d) = true) as Ht'
      by (apply truthy_app_r; by apply truthy_app_r).
    by rewrite Ht', str_in_app.
Qed.

Lemma describe_from_node (ev : Event.t) (ty : node_type) (p cr ex : Z) (id : string) :
  Concept.describe
    (Concept.from_node {| LlamaIndex.id_ := id;
                          LlamaIndex.text := Event.get_describe ev;
                          LlamaIndex.meta := LlamaIndex.meta_of ty ev p cr ex |})
  = Event.get_describe ev.
Proof.
  unfold Concept.describe. apply get_describe_fixpoint; [reflexivity|].
  cbn. set (D := Event.get_describe ev).
  assert (Py.truthy_str D = true) as Ht.
  { subst D. unfold Event.get_describe. cbv zeta.
    assert (Py.truthy_str (if Py.truthy_str (Event.describe ev)
                           then Event.describe ev
                           else Event.predicate ev +:+ " " +:+ Event.object ev)
            = true) as Hd.
    { destruct (Py.truthy_str (Event.describe ev)) eqn:E; [done|].
      apply truthy_app_r. reflexivity. }
    destruct (Py.str_in _ _); [exact Hd|].
    apply truthy_app_r. by apply truthy_app_r. }
  by rewrite Ht.
Qed.

(** X22. A concept keeps the wording of its event: whether it is rebuilt
    from the node that [Associate.add_node] stored or made directly by
    [Concept.from_event], its [describe] is the event's
    [get_describe()]. *)
Theorem concept_describe_round_trip (ev : Event.t) (ty : node_type)
    (p cr ex now : Z) (id : string) :
  Concept.describe
    (Concept.from_node {| LlamaIndex.id_ := id;
                          LlamaIndex.text := Event.get_describe ev;
                          LlamaIndex.meta := LlamaIndex.meta_of ty ev p cr ex |})
  = Event.get_describe ev /\
  Concept.describe (Concept.from_event now id ty ev p) = Event.get_describe ev.
Proof.
  split; [apply describe_from_node|].
  exact (describe_from_node ev ty p now (now + days30) id).
Qed.

Section percept_again.
Implicit Types (a : Associate.t) (ty : node_type).

Lemma add_node_retention now fails a ty ev p cr ex :
  Associate.retention (Associate.add_node now fails a ty ev p cr ex).1
  = Associate.retention a.
Proof.
  unfold Associate.add_node. cbv zeta.
  destruct (LlamaIndex.add_node _ _ _ _) as [ix [nd|]]; [|done].
  by destruct (_ && _).
Qed.

(** After a successful [add_node] the new id heads its memory list and
    names the new node, unless [max_memory] is 1. *)
Lemma add_node_head now fails a ty ev p cr ex :
  Associate.consistent a ->
  (fails < LlamaIndex.max_retries)%nat ->
  Associate.max_memory a <= 0 \/ 2 <= Associate.max_memory a ->
  let a' := (Associate.add_node now fails a ty ev p cr ex).1 in
  exists id rest c e,
    Associate.memory a' ty = id :: rest /\
    LlamaIndex.docs (Associate.index a') !! id
    = Some {| LlamaIndex.id_ := id; LlamaIndex.text := Event.get_describe ev;
              LlamaIndex.meta := LlamaIndex.meta_of ty ev p c e |}.
Proof.
  intros (Hnd & Hdisj & Hlisted & Hkeyed) Hf Hmax a'. subst a'.
  unfold Associate.add_node. cbv zeta.
  rewrite index_add_node_ok by exact Hf. cbv zeta.
  set (id := "node_" +:+ pretty (LlamaIndex.max_nodes (Associate.index a))).
  set (md := LlamaIndex.meta_of _ _ _ _ _).
  set (nd := LlamaIndex.mk_node _ _ _).
  change (LlamaIndex.id_ nd) with id.
  assert (id ∉ Associate.memory a ty) as Hfresh.
  { intros Hin. destruct (Hlisted ty id Hin) as (_ & j & Hj & Heq).
    apply node_id_inj in Heq. lia. }
  destruct ((Associate.max_memory a
             <=? Z.of_nat (length (id :: Associate.memory a ty)))
            && (0 <? Associate.max_memory a)) eqn:E; cbn [fst].
  - apply andb_prop in E as [_ HM]. apply Z.ltb_lt in HM.
    rewrite memory_store, index_store. unfold Py.slice_to, Py.slice_from.
    destruct (Z.to_nat (Associate.max_memory a - 1)) as [|k] eqn:Ek; [lia|].
    exists id, (take k (Associate.memory a ty)), (default now cr),
      (default (default now cr + days30) ex). split; [reflexivity|].
    unfold LlamaIndex.remove_nodes. cbn [LlamaIndex.docs].
    rewrite lookup_foldr_delete_not_elem_of.
    + by rewrite lookup_insert_eq.
    + replace (Z.to_nat (Associate.max_memory a)) with (S (S k)) by lia.
      cbn [drop]. intros Hin. apply Hfresh.
      apply list_elem_of_lookup in Hin as [i Hi]. rewrite lookup_drop in Hi.
      by eapply list_elem_of_lookup_2.
  - rewrite memory_store, index_store.
    exists id, (Associate.memory a ty), (default now cr),
      (default (default now cr + days30) ex). split; [reflexivity|].
    cbn [LlamaIndex.docs]. by rewrite lookup_insert_eq.
Qed.

Lemma retrieve_nodes_head a ty ev p c e id rest :
  Associate.consistent a ->
  1 <= Associate.retention a ->
  Associate.memory a ty = id :: rest ->
  LlamaIndex.docs (Associate.index a) !! id
  = Some {| LlamaIndex.id_ := id; LlamaIndex.text := Event.get_describe ev;
            LlamaIndex.meta := LlamaIndex.meta_of ty ev p c e |} ->
  exists cs, Associate.retrieve_nodes a ty = Some cs /\
             Event.get_describe ev ∈ Concept.describe <$> cs.
Proof.
  intros Hc Hr Hmem Hdoc.
  destruct (retrieve_nodes_spec a ty Hc) as (nodes & Hall & ->).
  eexists. split; [reflexivity|]. rewrite Hmem in Hall.
  apply Forall2_cons_inv_l in Hall as (nd & nodes' & [Hnd _] & _ & ->).
  rewrite Hdoc in Hnd. injection Hnd as <-.
  destruct (Z.to_nat (Associate.retention a)) as [|k] eqn:Ek; [lia|].
  cbn [take fmap list_fmap]. rewrite describe_from_node. apply elem_of_cons. by left.
Qed.
End percept_again.

(** X23. [percept] does not store the same sight twice: an event whose
    node has just been stored as an event or chat memory is found among
    the recent memories by the next [percept], which then leaves the
    agent as it is (with at least one memory retrieved per type, and a
    memory limit other than 1). *)
Theorem percept_skips_stored_event (w : Agent.env) (a : Agent.t) (idx : Z)
    (ev : Event.t) (mem : Associate.t) (ty : node_type) (p now : Z)
    (fails : nat) (cr ex : option Z)
    (Hmem : Associate.consistent mem)
    (Hfails : (fails < LlamaIndex.max_retries)%nat)
    (Hret : 1 <= Associate.retention mem)
    (Hmax : Associate.max_memory mem <= 0 \/ 2 <= Associate.max_memory mem)
    (Hty : ty <> NThought)
    (Ha : Agent.associate a = (Associate.add_node now fails mem ty ev p cr ex).1) :
  Agent.percept_event w a idx ev = Some a.
Proof.
  pose proof (add_node_consistent now fails mem ty ev p cr ex Hmem) as Hc.
  destruct (add_node_head now fails mem ty ev p cr ex Hmem Hfails Hmax)
    as (id & rest & c & e & Hhead & Hdoc).
  pose proof (add_node_retention now fails mem ty ev p cr ex) as Hr.
  rewrite <- Ha in Hc, Hhead, Hdoc, Hr.
  assert (1 <= Associate.retention (Agent.associate a)) as Hret' by lia.
  destruct (retrieve_nodes_head _ ty ev p c e id rest Hc Hret' Hhead Hdoc)
    as (cs & Hcs & Hin).
  destruct (retrieve_nodes_spec (Agent.associate a) NEvent Hc) as (ne & _ & He).
  destruct (retrieve_nodes_spec (Agent.associate a) NChat Hc) as (nc & _ & Hch).
  unfold Agent.percept_event, Associate.retrieve_events, Associate.retrieve_chats.
  rewrite He, Hch. cbn [mbind option_bind].
  rewrite bool_decide_eq_true_2; [reflexivity|].
  rewrite fmap_app, elem_of_app.
  destruct ty; [left|done|right]; congruence.
Qed.

Lemma percept_skips_stored_event_witness :
  let mem := (Associate.add_node 1000 0 (Associate.init 8 (-1)) NEvent bob_reads 4
                None None).1 in
  let a := {| Agent.name := "Alice"; Agent.status_poignancy := 0;
              Agent.concepts := []; Agent.associate := mem;
              Agent.att_bandwidth := 8 |} in
  Agent.percept_event
    {| Agent.now := 1060; Agent.clock_ms := 0;
       Agent.llm_poignancy := fun _ _ => 4; Agent.index_fails := 0 |}
    a 0 bob_reads = Some a.
Proof.
  intros mem a.
  apply (percept_skips_stored_event _ a 0 bob_reads (Associate.init 8 (-1)) NEvent 4
           1000 0 None None).
  - apply init_consistent.
  - unfold LlamaIndex.max_retries; lia.
  - simpl; lia.
  - left; simpl; lia.
  - discriminate.
  - reflexivity.
Defined.

(* ===================================================================== *)
(** ** Further properties: Tile addresses *)
(* ===================================================================== *)

Section tile_address.

Lemma fmap_fst_rev {A B} (l : list (A * B)) : (rev l).*1 = rev (l.*1).
Proof.
  induction l as [|x l IH]; [done|]. simpl. by rewrite fmap_app, IH.
Qed.

Lemma list_index_NoDup (l : list string) (i : nat) (x : string) :
  NoDup l -> l !! i = Some x -> Tile.list_index x l = Some i.
Proof.
  intros Hnd. revert i. induction Hnd as [|y l Hy Hnd IH]; intros i Hi; [done|].
  destruct i as [|i]; simpl in *.
  - injection Hi as ->. by rewrite bool_decide_eq_true_2.
  - rewrite bool_decide_eq_false_2.
    + by rewrite (IH i Hi).
    + intros ->. apply Hy. by eapply list_elem_of_lookup_2.
Qed.

Lemma address_map_lookup (tile : Tile.t) (key v : string) :
  NoDup (Tile.address_keys tile) ->
  Tile.address_map tile !! key = Some v <->
  exists i, Tile.address_keys tile !! i = Some key /\ Tile.address tile !! i = Some v.
Proof.
  intros Hnd. unfold Tile.address_map.
  set (ks := take (length (Tile.address tile)) (Tile.address_keys tile)).
  assert (NoDup ks) as Hks by exact (sublist_NoDup _ _ Hnd (sublist_take _ _)).
  assert ((zip ks (Tile.address tile)).*1 = ks) as Hfst.
  { apply fst_zip. subst ks. rewrite length_take. lia. }
  rewrite <- elem_of_list_to_map
    by (rewrite fmap_fst_rev, Hfst; apply NoDup_ListNoDup, List.NoDup_rev;
        by apply NoDup_ListNoDup).
  rewrite list_elem_of_In, <- in_rev, <- list_elem_of_In.
  rewrite (elem_of_lookup_zip_with pair). split.
  - intros (i & x & y & [= -> ->] & Hx & Hy). exists i. split; [|done].
    subst ks. by apply lookup_take_Some in Hx as [Hx _].
  - intros (i & Hk & Ha). exists i, key, v. split; [done|]. split; [|done].
    subst ks. apply lookup_take_Some. split; [done|].
    by apply lookup_lt_Some in Ha.
Qed.
End tile_address.

(** X24. The two views of a tile's address agree: when the address keys
    are distinct and the tile has the level [key], [get_address(key)]
    succeeds, is a prefix of the tile's address, and ends with the value
    that [address_map] holds for [key]. *)
Theorem get_address_ends_with_level (tile : Tile.t) (key : string)
    (Hkeys : NoDup (Tile.address_keys tile))
    (Hkey : key <> "")
    (Hhas : Tile.has_address tile key = true) :
  exists addr,
    Tile.get_address tile (Some key) = Some addr /\
    addr `prefix_of` Tile.address tile /\
    last addr = Tile.address_map tile !! key.
Proof.
  unfold Tile.has_address in Hhas. apply bool_decide_eq_true in Hhas as [v Hv].
  pose proof (proj1 (address_map_lookup tile key v Hkeys) Hv) as (i & Hk & Ha).
  exists (take (S i) (Tile.address tile)). split; [|split].
  - unfold Tile.get_address.
    assert (Py.truthy_str key = true) as -> by (by destruct key).
    cbn [mbind option_bind]. by rewrite (list_index_NoDup _ i key Hkeys Hk).
  - apply prefix_take.
  - rewrite Hv, (take_S_r _ _ _ Ha). apply last_snoc.
Qed.

Lemma get_address_ends_with_level_witness :
  exists addr,
    Tile.get_address tile_desk (Some "arena") = Some addr /\
    addr `prefix_of` Tile.address tile_desk /\
    last addr = Tile.address_map tile_desk !! "arena".
Proof.
  apply (get_address_ends_with_level tile_desk "arena").
  - refine (bool_decide_unpack _ _). vm_compute. exact I.
  - discriminate.
  - vm_compute. reflexivity.
Defined.

(* ===================================================================== *)
(** ** Further properties: Spatial *)
(* ===================================================================== *)

Section spatial.
Context {V : Type}.
Implicit Types (d : list (string * V)) (k : string) (v : V).

Lemma get_set_eq k v d : Spatial.get k (Spatial.set k v d) = Some v.
Proof.
  induction d as [|[k' v'] d IH]; simpl.
  - by rewrite bool_decide_eq_true_2.
  - destruct (bool_decide (k' = k)) eqn:E; simpl.
    + by rewrite bool_decide_eq_true_2.
    + by rewrite E.
Qed.

Lemma get_set_ne k k' v d :
  k' <> k -> Spatial.get k' (Spatial.set k v d) = Spatial.get k' d.
Proof.
  intros Hne. induction d as [|[k0 v0] d IH]; simpl.
  - by rewrite bool_decide_eq_false_2.
  - destruct (bool_decide (k0 = k)) eqn:E; simpl.
    + apply bool_decide_eq_true in E as ->.
      by rewrite !bool_decide_eq_false_2.
    + by rewrite IH.
Qed.

Lemma set_set k v d : Spatial.set k v (Spatial.set k v d) = Spatial.set k v d.
Proof.
  induction d as [|[k' v'] d IH]; simpl.
  - by rewrite bool_decide_eq_true_2.
  - destruct (bool_decide (k' = k)) eqn:E; simpl.
    + by rewrite bool_decide_eq_true_2.
    + by rewrite E, IH.
Qed.

Lemma set_get k v d : Spatial.get k d = Some v -> Spatial.set k v d = d.
Proof.
  induction d as [|[k' v'] d IH]; simpl; [done|].
  destruct (bool_decide (k' = k)) eqn:E.
  - apply bool_decide_eq_true in E as ->. by intros [= ->].
  - intros H. by rewrite IH.
Qed.

Lemma keys_set k v d : d.*1 `prefix_of` (Spatial.set k v d).*1.
Proof.
  induction d as [|[k' v'] d IH]; simpl.
  - apply prefix_nil.
  - destruct (bool_decide (k' = k)) eqn:E; simpl.
    + apply bool_decide_eq_true in E as ->. done.
    + by apply prefix_cons.
Qed.
End spatial.

Section add_leaf.
Import Spatial.

Lemma _add_leaf_more a c e rest t :
  _add_leaf (a :: c :: e :: rest) t
  = match t with
    | Dict d =>
        sub ← _add_leaf (c :: e :: rest) (default (Dict []) (get a d));
        Some (Dict (set a sub d))
    | Leaves _ => None
    end.
Proof. reflexivity. Qed.

Lemma _add_leaf_two a b t :
  _add_leaf [a; b] t
  = match t with
    | Dict d =>
        match default (Leaves []) (get a d) with
        | Leaves l =>
            Some (Dict (set a (Leaves (if bool_decide (b ∈ l) then l
                                       else l ++ [b])) d))
        | Dict d' => if bool_decide (b ∈ d'.*1) then Some t else None
        end
    | Leaves _ => None
    end.
Proof. reflexivity. Qed.

Lemma add_leaf_get_leaves_tree (prefix : list string) (leaf : string) (t t' : tree) :
  prefix <> [] ->
  _add_leaf (prefix ++ [leaf]) t = Some t' ->
  exists ls, _get_tree prefix t' = Some ls /\ leaf ∈ ls.
Proof.
  revert t t'. induction prefix as [|a prefix IH]; intros t t' Hne Hadd; [done|].
  destruct prefix as [|c prefix].
  - (* two levels left *)
    change ([a] ++ [leaf]) with [a; leaf] in Hadd. rewrite _add_leaf_two in Hadd.
    destruct t as [l|d]; [done|].
    destruct (get a d) as [[l|d']|] eqn:Hget; cbn [default from_option id] in Hadd.
    + injection Hadd as <-. cbn [_get_tree]. rewrite get_set_eq.
      eexists. split; [reflexivity|].
      case_bool_decide; [done|]. apply elem_of_app. right. by apply list_elem_of_singleton.
    + destruct (bool_decide (leaf ∈ d'.*1)) eqn:Hin; [|done].
      apply bool_decide_eq_true in Hin. injection Hadd as <-.
      cbn [_get_tree]. rewrite Hget. by eexists.
    + injection Hadd as <-. cbn [_get_tree]. rewrite get_set_eq.
      eexists. split; [reflexivity|].
      apply list_elem_of_singleton. reflexivity.
  - (* deeper *)
    assert (exists e rest, (c :: prefix) ++ [leaf] = c :: e :: rest) as (e & rest & Heq).
    { destruct prefix as [|e prefix]; simpl; eauto. }
    change ((a :: c :: prefix) ++ [leaf]) with (a :: ((c :: prefix) ++ [leaf])) in Hadd.
    rewrite Heq, _add_leaf_more, <- Heq in Hadd.
    destruct t as [l|d]; [done|].
    destruct (_add_leaf ((c :: prefix) ++ [leaf]) (default (Dict []) (get a d)))
      as [sub|] eqn:Hsub; [|done].
    cbn [mbind option_bind] in Hadd. injection Hadd as <-.
    cbn [_get_tree]. rewrite get_set_eq.
    exact (IH _ sub ltac:(done) Hsub).
Qed.

Lemma add_leaf_idempotent_tree (addr : list string) (t t' : tree) :
  _add_leaf addr t = Some t' -> _add_leaf addr t' = Some t'.
Proof.
  revert t t'. induction addr as [|a addr IH]; intros t t' Hadd;
    [by injection Hadd as <-|].
  destruct addr as [|c [|e rest]].
  - by injection Hadd as <-.
  - rewrite _add_leaf_two in *. destruct t as [l|d]; [done|].
    destruct (default (Leaves []) (get a d)) as [l|d'] eqn:Hget.
    + injection Hadd as <-. rewrite get_set_eq. cbn [default from_option id].
      assert (c ∈ (if bool_decide (c ∈ l) then l else l ++ [c])) as Hin.
      { case_bool_decide; [done|]. apply elem_of_app. right.
        by apply list_elem_of_singleton. }
      by rewrite (bool_decide_eq_true_2 _ Hin), set_set.
    + destruct (bool_decide (c ∈ d'.*1)) eqn:Hin; [|done]. injection Hadd as <-.
      by rewrite Hget, Hin.
  - rewrite _add_leaf_more in *. destruct t as [l|d]; [done|].
    destruct (_add_leaf (c :: e :: rest) (default (Dict []) (get a d)))
      as [sub|] eqn:Hsub; [|done].
    cbn [mbind option_bind] in Hadd. injection Hadd as <-.
    rewrite get_set_eq. cbn [default from_option id]. rewrite (IH _ _ Hsub).
    cbn [mbind option_bind]. by rewrite set_set.
Qed.

Lemma add_leaf_keeps_tree (addr p : list string) (t t' : tree) (ls ls' : list string) :
  _add_leaf addr t = Some t' ->
  _get_tree p t = Some ls -> _get_tree p t' = Some ls' ->
  ls `prefix_of` ls'.
Proof.
  revert t t' p ls ls'. induction addr as [|a addr IH]; intros t t' p ls ls' Hadd H1 H2.
  { injection Hadd as <-. rewrite H1 in H2. by injection H2 as <-. }
  destruct addr as [|c [|e rest]].
  - injection Hadd as <-. rewrite H1 in H2. by injection H2 as <-.
  - rewrite _add_leaf_two in Hadd. destruct t as [l|d]; [done|].
    destruct (default (Leaves []) (get a d)) as [l|d'] eqn:Hget.
    + injection Hadd as <-. destruct p as [|a' p].
      * injection H1 as <-. injection H2 as <-. apply keys_set.
      * cbn [_get_tree] in H1, H2. destruct (decide (a' = a)) as [->|Hne].
        -- rewrite get_set_eq in H2.
           destruct (get a d) as [sub|] eqn:Hsub.
           ++ cbn [default from_option id] in Hget. subst sub. destruct p as [|x p].
              ** injection H1 as <-. injection H2 as <-.
                 case_bool_decide; [done|]. by apply prefix_app_r.
              ** cbn [_get_tree] in H1, H2.
                 destruct (bool_decide (x ∈ l)); [done|].
                 injection H1 as <-. apply prefix_nil.
           ++ injection H1 as <-. apply prefix_nil.
        -- rewrite get_set_ne in H2 by done. rewrite H1 in H2. by injection H2 as <-.
    + destruct (bool_decide (c ∈ d'.*1)) eqn:Hin; [|done]. injection Hadd as <-.
      rewrite H1 in H2. by injection H2 as <-.
  - rewrite _add_leaf_more in Hadd. destruct t as [l|d]; [done|].
    destruct (_add_leaf (c :: e :: rest) (default (Dict []) (get a d)))
      as [sub|] eqn:Hsub; [|done].
    cbn [mbind option_bind] in Hadd. injection Hadd as <-.
    destruct p as [|a' p].
    + injection H1 as <-. injection H2 as <-. apply keys_set.
    + cbn [_get_tree] in H1, H2. destruct (decide (a' = a)) as [->|Hne].
      * rewrite get_set_eq in H2. destruct (get a d) as [sub0|] eqn:Hsub0.
        -- cbn [default from_option id] in Hsub. by apply (IH _ _ _ _ _ Hsub H1 H2).
        -- injection H1 as <-. apply prefix_nil.
      * rewrite get_set_ne in H2 by done. rewrite H1 in H2. by injection H2 as <-.
Qed.
End add_leaf.

(** X25. What [add_leaf] files, [get_leaves] finds: after a successful
    [add_leaf] of an address of two or more levels, [get_leaves] of the
    address without its last level succeeds and lists that last level. *)
Theorem add_leaf_then_get_leaves (s s' : Spatial.t) (prefix : list string)
    (leaf : string)
    (Hprefix : prefix <> [])
    (Hadd : Spatial.add_leaf s (prefix ++ [leaf]) = Some s') :
  exists ls, Spatial.get_leaves s' prefix = Some ls /\ leaf ∈ ls.
Proof.
  unfold Spatial.add_leaf in Hadd.
  destruct (Spatial._add_leaf (prefix ++ [leaf]) (Spatial.tree_of s))
    as [tr|] eqn:E; [|done].
  injection Hadd as <-. unfold Spatial.get_leaves. cbn [Spatial.tree_of].
  by apply (add_leaf_get_leaves_tree prefix leaf (Spatial.tree_of s)).
Qed.

Lemma add_leaf_then_get_leaves_witness :
  exists ls,
    Spatial.get_leaves alice_spatial_shelf ["town"; "campus"; "library"] = Some ls /\
    "shelf" ∈ ls.
Proof.
  apply (add_leaf_then_get_leaves alice_spatial alice_spatial_shelf
           ["town"; "campus"; "library"] "shelf").
  - discriminate.
  - vm_compute. reflexivity.
Defined.

(** X26. [add_leaf] is idempotent: filing the same address a second time
    succeeds and changes nothing. *)
Theorem add_leaf_idempotent (s s' : Spatial.t) (addr : list string)
    (Hadd : Spatial.add_leaf s addr = Some s') :
  Spatial.add_leaf s' addr = Some s'.
Proof.
  unfold Spatial.add_leaf in *.
  destruct (Spatial._add_leaf addr (Spatial.tree_of s)) as [tr|] eqn:E; [|done].
  injection Hadd as <-. cbn [Spatial.tree_of Spatial.address].
  by rewrite (add_leaf_idempotent_tree addr _ _ E).
Qed.

Lemma add_leaf_idempotent_witness :
  Spatial.add_leaf alice_spatial_shelf ["town"; "campus"; "library"; "shelf"]
  = Some alice_spatial_shelf.
Proof.
  apply (add_leaf_idempotent alice_spatial alice_spatial_shelf
           ["town"; "campus"; "library"; "shelf"]).
  vm_compute. reflexivity.
Defined.

(** X27. [add_leaf] never forgets: whatever [get_leaves] listed for an
    address before, it lists afterwards in the same order, new names
    coming last; and the address book is untouched. *)
Theorem add_leaf_keeps_leaves (s s' : Spatial.t) (addr p : list string)
    (ls ls' : list string)
    (Hadd : Spatial.add_leaf s addr = Some s')
    (Hbefore : Spatial.get_leaves s p = Some ls)
    (Hafter : Spatial.get_leaves s' p = Some ls') :
  ls `prefix_of` ls' /\ Spatial.address s' = Spatial.address s.
Proof.
  unfold Spatial.add_leaf in Hadd.
  destruct (Spatial._add_leaf addr (Spatial.tree_of s)) as [tr|] eqn:E; [|done].
  injection Hadd as <-. split; [|done].
  exact (add_leaf_keeps_tree addr p _ _ ls ls' E Hbefore Hafter).
Qed.

Lemma add_leaf_keeps_leaves_witness :
  ["desk"] `prefix_of` ["desk"; "shelf"] /\
  Spatial.address alice_spatial_shelf = Spatial.address alice_spatial.
Proof.
  apply (add_leaf_keeps_leaves alice_spatial alice_spatial_shelf
           ["town"; "campus"; "library"; "shelf"] ["town"; "campus"; "library"]
           ["desk"] ["desk"; "shelf"]); vm_compute; reflexivity.
Defined.

Lemma find_in_set (hint k : string) (v : list string)
    (address : list (string * list string)) :
  (forall key, key ∈ address.*1 -> Py.str_in key hint = false) ->
  Py.str_in k hint = true ->
  Spatial.find_in hint (Spatial.set k v address) = v.
Proof.
  intros Hno Hk. induction address as [|[k' v'] address IH]; simpl.
  - by rewrite Hk.
  - assert (Py.str_in k' hint = false) as Hk'
      by (apply Hno; simpl; apply elem_of_cons; by left).
    destruct (bool_decide (k' = k)) eqn:E.
    + apply bool_decide_eq_true in E as ->. congruence.
    + simpl. rewrite Hk'. apply IH. intros key Hin. apply Hno. simpl.
      apply elem_of_cons. by right.
Qed.

(** X28. An agent finds its bed: when the address book has a living area
    and none of its keys occurs in the hint, the book made by [__init__]
    answers [find_address] for the sleeping hint with the living area
    followed by the bed. *)
Theorem init_sleep_address (tr : Spatial.tree)
    (address : list (string * list string)) (living : list string)
    (Hliving : Spatial.get "living_area" address = Some living)
    (Hkeys : forall key, key ∈ address.*1 -> Py.str_in key "睡觉" = false)
    (Hsleeping : "sleeping" ∉ address.*1) :
  Spatial.find_address (Spatial.init tr (Some address)) "睡觉"
  = living ++ ["床"].
Proof.
  unfold Spatial.find_address, Spatial.init. cbn [default from_option id Spatial.address].
  rewrite Hliving.
  assert ("睡觉" ∉ address.*1) as Hno.
  { intros Hin. apply Hkeys in Hin. vm_compute in Hin. discriminate Hin. }
  rewrite !bool_decide_eq_true_2 by done. cbn [andb].
  apply find_in_set; [exact Hkeys|]. vm_compute. reflexivity.
Qed.

Lemma init_sleep_address_witness :
  Spatial.find_address alice_spatial "睡觉" = ["town"; "dorm"; "room 1"] ++ ["床"].
Proof.
  apply (init_sleep_address _ [("living_area", ["town"; "dorm"; "room 1"])]).
  - reflexivity.
  - intros key Hin. apply list_elem_of_singleton in Hin as ->. vm_compute. reflexivity.
  - intros Hin. apply list_elem_of_singleton in Hin. discriminate Hin.
Defined.

(* ===================================================================== *)
(** ** Further properties: find_path finds a shortest route *)
(* ===================================================================== *)

Section levels.
Variable m : Maze.t.
Variable src : Z * Z.
Variable L : Z.
Hypothesis HL : 1 <= L.
Implicit Types (g : list (list Z)) (c f : Z * Z).

Lemma only_new_refl g : Maze.only_new m L g g.
Proof. by intros c k. Qed.

Lemma only_new_trans g1 g2 g3 :
  Maze.only_new m L g1 g2 -> Maze.only_new m L g2 g3 -> Maze.only_new m L g1 g3.
Proof. intros H12 H23 c k Hc Hg Hk. apply H12; [done| |done]. by apply H23. Qed.

Lemma closed_keeps g g' c k :
  Maze.keeps m g g' -> Maze.closed m g c k -> Maze.closed m g' c k.
Proof.
  intros Hk Hcl c' Hin Hfree Hint.
  destruct (Hcl c' Hin Hfree Hint) as (k' & Hg & Hb). exists k'.
  split; [|done]. apply Hk; [by apply interior_on_grid|done|lia].
Qed.

(** One neighbour visited while the tiles with step number [L] are
    expanded. *)
Lemma visit_level f g nf vis c g' nf' vis' :
  Maze.grid_dims m g -> Maze.steps_ok m src g ->
  Maze.on_grid m f -> Maze.grid_get g f = Some L ->
  Maze.level_inv m L g nf vis ->
  Maze.visit m f (g, nf, vis) c = Some (g', nf', vis') ->
  Maze.level_inv m L g' nf' vis' /\ Maze.only_new m L g g' /\
  (Maze.interior m c ->
   exists k', Maze.grid_get g' c = Some k' /\ 1 <= k' <= L + 1).
Proof.
  intros Hd Hok Hf Hvf (Hbound & Hvis & Hcomp & Hnf). unfold Maze.visit.
  destruct ((0 <? c.1) && (c.1 <? Maze.maze_width m - 1)
            && (0 <? c.2) && (c.2 <? Maze.maze_height m - 1)) eqn:Hguard.
  2:{ intros [= <- <- <-]. split; [done|]. split; [apply only_new_refl|].
      intros [Hx Hy]. exfalso.
      assert ((0 <? c.1) = true) as E1 by (apply Z.ltb_lt; lia).
      assert ((c.1 <? Maze.maze_width m - 1) = true) as E2 by (apply Z.ltb_lt; lia).
      assert ((0 <? c.2) = true) as E3 by (apply Z.ltb_lt; lia).
      assert ((c.2 <? Maze.maze_height m - 1) = true) as E4 by (apply Z.ltb_lt; lia).
      rewrite E1, E2, E3, E4 in Hguard. discriminate Hguard. }
  assert (Maze.interior m c) as Hint.
  { repeat (apply andb_prop in Hguard as [Hguard ?]).
    unfold Maze.interior. lia. }
  pose proof (interior_on_grid m c Hint) as Hc.
  destruct (Maze.grid_get g c) as [v|] eqn:Hv; [|discriminate].
  cbn [mbind option_bind].
  destruct ((v =? 0) && bool_decide (c ∉ vis)) eqn:Hcond.
  2:{ intros [= <- <- <-]. split; [done|]. split; [apply only_new_refl|].
      intros _. exists v. split; [done|].
      destruct (decide (v = 0)) as [->|Hnz].
      - apply andb_false_iff in Hcond as [Hcond|Hcond]; [discriminate Hcond|].
        apply bool_decide_eq_false in Hcond.
        assert (c ∈ vis) as Hin by (destruct (decide (c ∈ vis)); [done|by destruct Hcond]).
        destruct (Hvis c Hin) as [_ (k & Hk & Hknz)]. congruence.
      - destruct (Hok c v Hc Hv Hnz) as [H1 _]. pose proof (Hbound c v Hc Hv). lia. }
  apply andb_prop in Hcond as [Hz Hnv]. apply Z.eqb_eq in Hz. subst v.
  apply bool_decide_eq_true in Hnv.
  rewrite Hvf. cbn [mbind option_bind].
  destruct (Maze.grid_set g c (L + 1)) as [g1|] eqn:Hset; [|discriminate].
  cbn [mbind option_bind]. intros [= <- <- <-].
  assert (forall c', Maze.on_grid m c' ->
            Maze.grid_get g1 c'
            = if decide (c' = c) then Some (L + 1) else Maze.grid_get g c')
    as Hget by (intros c' Hc'; by eapply grid_get_set).
  split; [|split].
  - split; [|split; [|split]].
    + intros c' k Hc' Hg. rewrite (Hget c' Hc') in Hg.
      destruct (decide (c' = c)); [injection Hg as <-; lia|by apply (Hbound c')].
    + intros c' Hin. apply elem_of_union in Hin as [Hin|Hin].
      * apply elem_of_singleton in Hin as ->. split; [done|]. exists (L + 1).
        split; [|lia]. rewrite (Hget c Hc). by rewrite decide_True.
      * destruct (Hvis c' Hin) as [Hc' (k & Hk & Hknz)]. split; [done|].
        rewrite (Hget c' Hc'). destruct (decide (c' = c)); [|by exists k].
        exists (L + 1). split; [done|lia].
    + intros c' Hc' Hg. rewrite (Hget c' Hc') in Hg. apply in_or_app.
      destruct (decide (c' = c)) as [->|]; [right; by left|].
      left. by apply Hcomp.
    + apply Forall_app. split.
      * eapply Forall_impl; [exact Hnf|]. intros c' [Hc' Hg]. split; [done|].
        rewrite (Hget c' Hc'). by destruct (decide (c' = c)).
      * apply Forall_singleton. split; [done|]. rewrite (Hget c Hc).
        by rewrite decide_True.
  - intros c' k Hc' Hg Hk. rewrite (Hget c' Hc') in Hg.
    destruct (decide (c' = c)); [congruence|done].
  - intros _. exists (L + 1). split; [|lia]. rewrite (Hget c Hc).
    by rewrite decide_True.
Qed.

Lemma visit_all_level f cs : forall g nf vis g' nf' vis',
  Maze.grid_dims m g -> Maze.steps_ok m src g ->
  Maze.on_grid m f -> Maze.grid_get g f = Some L ->
  (forall c, In c cs -> In c (Maze.around4 f) /\ Maze.free m c) ->
  Maze.level_inv m L g nf vis ->
  Maze.visit_all m f (g, nf, vis) cs = Some (g', nf', vis') ->
  Maze.grid_dims m g' /\ Maze.steps_ok m src g' /\ Maze.keeps m g g' /\
  Maze.only_new m L g g' /\ Maze.level_inv m L g' nf' vis' /\
  (forall c, In c cs -> Maze.interior m c ->
     exists k', Maze.grid_get g' c = Some k' /\ 1 <= k' <= L + 1).
Proof.
  induction cs as [|c cs IH]; intros g nf vis g' nf' vis' Hd Hok Hf Hvf Hcs Hinv;
    cbn [Maze.visit_all].
  - intros [= <- <- <-]. split; [done|]. split; [done|].
    split; [apply keeps_refl|]. split; [apply only_new_refl|].
    split; [done|]. by intros c [].
  - destruct (Maze.visit m f (g, nf, vis) c) as [[[g1 nf1] vis1]|] eqn:Hv;
      [|discriminate].
    cbn [mbind option_bind]. intros Hrest.
    destruct (Hcs c (or_introl eq_refl)) as [Hin Hfree].
    assert (Maze.marked m g f) as Hmf by (split; [done|]; exists L; split; [done|lia]).
    destruct (visit_steps m src f g nf vis c g1 nf1 vis1 Hd Hok Hmf Hin Hfree Hv)
      as (Hd1 & Hok1 & Hk1 & _).
    destruct (visit_level f g nf vis c g1 nf1 vis1 Hd Hok Hf Hvf Hinv Hv)
      as (Hinv1 & Hnew1 & Hc1).
    assert (Maze.grid_get g1 f = Some L) as Hvf1 by (apply Hk1; [done|done|lia]).
    destruct (IH g1 nf1 vis1 g' nf' vis' Hd1 Hok1 Hf Hvf1
                (fun x Hx => Hcs x (or_intror Hx)) Hinv1 Hrest)
      as (Hd' & Hok' & Hk' & Hnew' & Hinv' & Hall').
    split; [done|]. split; [done|]. split; [by eapply keeps_trans|].
    split; [by eapply only_new_trans|]. split; [done|].
    intros x [<-|Hx] Hint; [|by apply Hall'].
    destruct (Hc1 Hint) as (k' & Hg & Hb). exists k'. split; [|done].
    apply Hk'; [by apply interior_on_grid|done|lia].
Qed.

Lemma expand_all_level fs : forall g nf vis g' nf' vis',
  Maze.grid_dims m g -> Maze.steps_ok m src g ->
  Forall (fun f => Maze.on_grid m f /\ Maze.grid_get g f = Some L) fs ->
  Maze.level_inv m L g nf vis ->
  Maze.expand_all m (g, nf, vis) fs = Some (g', nf', vis') ->
  Maze.grid_dims m g' /\ Maze.steps_ok m src g' /\ Maze.keeps m g g' /\
  Maze.only_new m L g g' /\ Maze.level_inv m L g' nf' vis' /\
  Forall (fun f => Maze.closed m g' f L) fs.
Proof.
  induction fs as [|f fs IH]; intros g nf vis g' nf' vis' Hd Hok Hfs Hinv;
    cbn [Maze.expand_all].
  - intros [= <- <- <-]. split; [done|]. split; [done|].
    split; [apply keeps_refl|]. split; [apply only_new_refl|]. by split.
  - apply Forall_cons in Hfs as [[Hf Hvf] Hfs].
    destruct (Maze.expand m (g, nf, vis) f) as [[[g1 nf1] vis1]|] eqn:He;
      [|discriminate].
    cbn [mbind option_bind]. intros Hrest.
    unfold Maze.expand, Maze.get_around in He.
    destruct (Maze.no_collision_only m (Maze.around4 f)) as [cs|] eqn:Hcs;
      [|discriminate].
    cbn [mbind option_bind] in He.
    destruct (visit_all_level f cs g nf vis g1 nf1 vis1 Hd Hok Hf Hvf
                (no_collision_only_free m _ cs Hcs) Hinv He)
      as (Hd1 & Hok1 & Hk1 & Hnew1 & Hinv1 & Hall1).
    assert (Forall (fun f => Maze.on_grid m f /\ Maze.grid_get g1 f = Some L) fs)
      as Hfs1.
    { eapply Forall_impl; [exact Hfs|]. intros x [Hx Hgx]. split; [done|].
      apply Hk1; [done|done|lia]. }
    destruct (IH g1 nf1 vis1 g' nf' vis' Hd1 Hok1 Hfs1 Hinv1 Hrest)
      as (Hd' & Hok' & Hk' & Hnew' & Hinv' & Hcl').
    split; [done|]. split; [done|]. split; [by eapply keeps_trans|].
    split; [by eapply only_new_trans|]. split; [done|].
    apply Forall_cons. split; [|done].
    apply (closed_keeps g1 g' f L Hk'). intros c' Hin Hfree Hint.
    apply Hall1; [|done].
    exact (no_collision_only_complete m _ _ c' Hcs Hin Hfree).
Qed.
End levels.

Section shortest.
Variable m : Maze.t.
Variable src : Z * Z.
Hypothesis Hsrc_grid : Maze.on_grid m src.
Implicit Types (g : list (list Z)) (c f : Z * Z).

(** A round of the search turns the invariant of level [L] into that of
    level [L + 1]. *)
Lemma bfs_round_front L g fr vis g' fr' vis' :
  Maze.front_inv m src L g fr vis ->
  Maze.bfs_round m (g, fr, vis) = Some (g', fr', vis') ->
  Maze.front_inv m src (L + 1) g' fr' vis'.
Proof.
  intros (HL & Hd & Hok & Hsrc & Hbound & Hvis & Hcomp & Hfr & Hclosed) Hround.
  unfold Maze.bfs_round in Hround.
  assert (Maze.level_inv m L g [] vis) as Hinv.
  { split; [|split; [done|split; [|done]]].
    - intros c k Hc Hg. pose proof (Hbound c k Hc Hg). lia.
    - intros c Hc Hg. pose proof (Hbound c _ Hc Hg). lia. }
  destruct (expand_all_level m src L HL fr g [] vis g' fr' vis' Hd Hok Hfr Hinv Hround)
    as (Hd' & Hok' & Hk' & Hnew' & (Hb' & Hvis' & Hcomp' & Hnf') & Hcl').
  split; [lia|]. split; [done|]. split; [done|].
  split; [apply Hk'; [done|done|lia]|].
  split; [done|]. split; [done|]. split; [done|]. split; [done|].
  intros c k Hc Hg Hk.
  pose proof (Hnew' c k Hc Hg ltac:(lia)) as Hold.
  destruct (decide (k = L)) as [->|Hne].
  - pose proof (Hcomp c Hc Hold) as Hin.
    rewrite Forall_forall in Hcl'. apply Hcl'. by apply list_elem_of_In.
  - apply (closed_keeps m g g' c k Hk'). apply (Hclosed c k Hc Hold). lia.
Qed.
End shortest.

Section shortest_route.
Variable m : Maze.t.
Variable src : Z * Z.
Hypothesis Hsrc_grid : Maze.on_grid m src.
Implicit Types (g : list (list Z)) (c f : Z * Z).

(** The invariant holds for the map the search loop ends with, at some
    level. *)
Lemma bfs_front dst fuel : forall L g fr vis g',
  Maze.front_inv m src L g fr vis ->
  Maze.bfs m dst fuel (g, fr, vis) = Ret g' ->
  exists L' fr' vis', Maze.front_inv m src L' g' fr' vis'.
Proof.
  induction fuel as [|fuel IH]; intros L g fr vis g' Hinv;
    cbn [Maze.bfs fst snd];
    destruct (Maze.grid_get g dst) as [v|]; try discriminate;
    destruct (v =? 0); try discriminate;
    try (intros [= <-]; by exists L, fr, vis).
  destruct (Maze.bfs_round m (g, fr, vis)) as [[[g1 fr1] vis1]|] eqn:He;
    [|discriminate].
  apply (IH (L + 1)). by apply (bfs_round_front m src Hsrc_grid L g fr vis).
Qed.

Lemma route_on_grid c n : Maze.route m src c n -> Maze.on_grid m c.
Proof. destruct 1; [done|by apply interior_on_grid]. Qed.

(** A tile that a route reaches in [n] moves has a step number of at most
    [n + 1], unless the search stopped before that level. *)
Lemma route_bound L g fr vis c n :
  Maze.front_inv m src L g fr vis -> Maze.route m src c n ->
  (exists k, Maze.grid_get g c = Some k /\ 1 <= k <= Z.of_nat n + 1) \/
  L <= Z.of_nat n + 1.
Proof.
  intros (HL & Hd & Hok & Hsrc & Hbound & Hvis & Hcomp & Hfr & Hclosed).
  induction 1 as [|b c n Hroute IH Hin Hfree Hint].
  - left. exists 1. split; [done|lia].
  - destruct IH as [(kb & Hkb & Hb)|Hstop]; [|right; lia].
    destruct (decide (kb < L)) as [Hlt|Hge]; [|right; lia].
    left. pose proof (route_on_grid b n Hroute) as Hbg.
    destruct (Hclosed b kb Hbg Hkb ltac:(lia) c Hin Hfree Hint) as (k' & Hk' & Hb').
    exists k'. split; [done|lia].
Qed.
End shortest_route.

Section backtrack_length.
Variable m : Maze.t.
Variable src : Z * Z.
Variable g : list (list Z).
Hypothesis Hok : Maze.steps_ok m src g.
Hypothesis Hsrc_free : Maze.free m src.

(** Every iteration of the walk back adds one tile to the path. *)
Lemma backtrack_adds n : forall step path c path',
  last path = Some c -> Maze.on_grid m c -> Maze.grid_get g c = Some step ->
  Z.of_nat n = step - 1 ->
  Maze.backtrack m g n step path = Some path' ->
  length path' = (length path + n)%nat.
Proof.
  induction n as [|n IH]; intros step path c path' Hl Hc Hg Hn Hb.
  - injection Hb as <-. lia.
  - rewrite backtrack_S, list_last_default, Hl in Hb.
    cbn [mbind option_bind] in Hb.
    destruct (Maze.get_around m c true) as [cs|] eqn:Hcs; [|discriminate Hb].
    cbn [mbind option_bind] in Hb.
    destruct (Maze.first_at_step g (step - 1) cs) as [found|] eqn:Hfound;
      [|discriminate Hb].
    cbn [mbind option_bind] in Hb.
    destruct (Hok c step Hc Hg ltac:(lia)) as (_ & _ & Hbig).
    destruct (Hbig ltac:(lia)) as (Hfree & Hint & f & Hf & Hfg & Hfv).
    assert (Maze.free m f) as Hffree.
    { destruct (Hok f (step - 1) Hfg Hfv ltac:(lia)) as (_ & Hone & Hmore).
      destruct (decide (step - 1 = 1)) as [E|E].
      - by rewrite (Hone E).
      - apply Hmore. lia. }
    unfold Maze.get_around in Hcs.
    pose proof (no_collision_only_complete m _ _ f Hcs Hf Hffree) as Hfin.
    apply first_at_step_found in Hfound. destruct found as [c'|].
    + destruct Hfound as [Hin Hv'].
      destruct (no_collision_only_free m _ _ Hcs c' Hin) as [Hadj Hfree'].
      pose proof (interior_around m c c' Hint Hadj) as Hc'.
      rewrite (IH (step - 1) (path ++ [c']) c' path' (last_snoc _ _) Hc' Hv'
                 ltac:(lia) Hb).
      rewrite length_app. simpl. lia.
    + by destruct (Hfound f Hfin).
Qed.
End backtrack_length.

(** X29. [find_path] finds a shortest route: from a walkable start, the
    path it returns has no more moves than any route from [src] to [dst]
    that enters only walkable tiles off the border of the grid (the only
    tiles the search ever enters). *)
Theorem find_path_shortest (m : Maze.t) (fuel n : nat) (src dst : Z * Z)
    (path : list (Z * Z))
    (Hsrc : Maze.on_grid m src) (Hdst : Maze.on_grid m dst)
    (Hfree : Maze.free m src)
    (Hret : Maze.find_path m fuel src dst = Ret path)
    (Hroute : Maze.route m src dst n) :
  (length path <= S n)%nat.
Proof.
  unfold Maze.find_path in Hret. cbv zeta in Hret.
  set (map0 := replicate _ _) in Hret.
  assert (Maze.grid_dims m map0) as Hd0
    by (apply blank_grid_dims; destruct Hsrc; lia).
  destruct (Maze.grid_set map0 src 1) as [map1|] eqn:Hset; [|discriminate Hret].
  assert (forall c, Maze.on_grid m c ->
            Maze.grid_get map1 c = if decide (c = src) then Some 1 else Some 0)
    as Hget1.
  { intros c Hc. rewrite (grid_get_set m map0 src 1 map1 c Hd0 Hsrc Hc Hset).
    destruct (decide (c = src)); [done|]. by apply blank_grid_get. }
  assert (Maze.grid_get map1 src = Some 1) as Hsrc1
    by (rewrite (Hget1 src Hsrc); by rewrite decide_True).
  destruct (Maze.bfs m dst fuel (map1, [src], ∅)) as [g| |] eqn:Hbfs;
    [|discriminate Hret..].
  assert (Maze.front_inv m src 1 map1 [src] ∅) as Hinv.
  { split; [lia|]. 
    split; [exact (grid_set_dims m map0 src 1 map1 Hd0 Hsrc Hset)|].
    split.
    { intros c k Hc Hg Hk. rewrite (Hget1 c Hc) in Hg.
      destruct (decide (c = src)) as [->|]; [|congruence].
      injection Hg as <-. split; [lia|]. split; [done|lia]. }
    split; [done|]. split.
    { intros c k Hc Hg. rewrite (Hget1 c Hc) in Hg.
      destruct (decide (c = src)); injection Hg as <-; lia. }
    split; [intros c Hc; by apply elem_of_empty in Hc|]. split.
    { intros c Hc Hg. rewrite (Hget1 c Hc) in Hg.
      destruct (decide (c = src)) as [->|]; [by left|congruence]. }
    split; [by apply Forall_singleton|].
    intros c k _ _ Hk. lia. }
  destruct (bfs_front m src Hsrc dst fuel 1 map1 [src] ∅ g Hinv Hbfs)
    as (L' & fr' & vis' & Hinv').
  destruct (bfs_ret_marked m dst fuel _ g Hbfs) as (step & Hstep & Hnz).
  rewrite Hstep in Hret.
  destruct (Maze.backtrack m g _ step [dst]) as [p|] eqn:Hb; [|discriminate Hret].
  injection Hret as <-.
  pose proof Hinv' as (_ & _ & Hok & _ & Hbound & _).
  destruct (Hok dst step Hdst Hstep Hnz) as (H1 & _ & _).
  rewrite length_rev.
  rewrite (backtrack_adds m src g Hok Hfree (Z.to_nat (step - 1)) step [dst] dst p
             eq_refl Hdst Hstep ltac:(lia) Hb).
  simpl.
  destruct (route_bound m src Hsrc L' g fr' vis' dst n Hinv' Hroute)
    as [(k & Hk & Hkb)|Hstop].
  - rewrite Hstep in Hk. injection Hk as <-. lia.
  - pose proof (Hbound dst step Hdst Hstep). lia.
Qed.

Lemma find_path_shortest_witness :
  (length corridor_cells <= S 4)%nat.
Proof.
  apply (find_path_shortest corridor 10 4 (2, 2) (6, 2) corridor_cells).
  - unfold Maze.on_grid. vm_compute. repeat split; discriminate.
  - unfold Maze.on_grid. vm_compute. repeat split; discriminate.
  - eexists. split; vm_compute; reflexivity.
  - vm_compute. reflexivity.
  - apply (Maze.route_move corridor (2, 2) (5, 2) (6, 2) 3);
      [apply (Maze.route_move corridor (2, 2) (4, 2) (5, 2) 2);
        [apply (Maze.route_move corridor (2, 2) (3, 2) (4, 2) 1);
          [apply (Maze.route_move corridor (2, 2) (2, 2) (3, 2) 0);
            [apply Maze.route_start|..]|..]|..]|..];
      try (simpl; tauto);
      try (eexists; split; vm_compute; reflexivity);
      try (unfold Maze.interior; vm_compute; repeat split; discriminate).
Defined.

(* ===================================================================== *)
(** ** Further properties: Maze.__init__ *)
(* ===================================================================== *)

Section maze_init.
Variables (world : string) (address_keys : list string).
Implicit Types (grid : list (list Tile.t)) (tc : Maze.tile_config).

Lemma tile_init_coord c address collision :
  Tile.coord (Tile.init c world address_keys address collision) = c.
Proof.
  unfold Tile.init. cbv zeta. case_bool_decide; [|reflexivity].
  unfold Tile.add_event. cbv zeta. by destruct (Tile.all_differ _ _).
Qed.

Lemma blank_shaped h w :
  0 <= h -> 0 <= w -> Maze.shaped h w (Maze.blank_tiles h w world address_keys).
Proof.
  intros Hh Hw. unfold Maze.blank_tiles. split.
  - rewrite length_fmap, length_seqZ. lia.
  - apply Forall_fmap, Forall_forall. intros y _. simpl.
    rewrite length_fmap, length_seqZ. lia.
Qed.

Lemma blank_placed h w : Maze.placed (Maze.blank_tiles h w world address_keys).
Proof.
  intros x y row tile Hrow Htile. unfold Maze.blank_tiles in Hrow.
  apply list_lookup_fmap_Some in Hrow as (y' & -> & Hy).
  apply list_lookup_fmap_Some in Htile as (x' & -> & Hx).
  apply lookup_seqZ in Hy as [-> _]. apply lookup_seqZ in Hx as [-> _].
  rewrite tile_init_coord. f_equal; lia.
Qed.

Lemma set_index_length {A} (l l' : list A) i v :
  Maze.set_index l i v = Some l' -> length l' = length l.
Proof.
  unfold Maze.set_index. cbv zeta.
  destruct (_ && _); [intros [= <-]; apply length_insert|].
  destruct (_ && _); [intros [= <-]; apply length_insert|discriminate].
Qed.

Lemma index_elem {A} (l : list A) i x : Py.index l i = Some x -> x ∈ l.
Proof.
  unfold Py.index. cbv zeta.
  destruct (_ && _); [apply list_elem_of_lookup_2|].
  destruct (_ && _); [apply list_elem_of_lookup_2|discriminate].
Qed.

Lemma set_index_Forall {A} (P : A -> Prop) (l l' : list A) i v :
  Forall P l -> P v -> Maze.set_index l i v = Some l' -> Forall P l'.
Proof.
  intros Hl Hv. unfold Maze.set_index. cbv zeta.
  destruct (_ && _); [intros [= <-]; by apply Forall_insert|].
  destruct (_ && _); [intros [= <-]; by apply Forall_insert|discriminate].
Qed.

(** Placing a tile never changes the shape of the grid, wherever it
    lands. *)
Lemma place_shaped h w grid tc grid' :
  Maze.shaped h w grid ->
  Maze.place world address_keys grid tc = Some grid' ->
  Maze.shaped h w grid'.
Proof.
  intros [Hh Hrows] Hplace. unfold Maze.place in Hplace.
  destruct (Py.index grid (Maze.tc_coord tc).2) as [row|] eqn:Hrow;
    [|discriminate Hplace].
  cbn [mbind option_bind] in Hplace.
  destruct (Maze.set_index row _ _) as [row'|] eqn:Hset; [|discriminate Hplace].
  cbn [mbind option_bind] in Hplace.
  assert (Z.of_nat (length row') = w) as Hlen.
  { rewrite (set_index_length _ _ _ _ Hset).
    rewrite Forall_forall in Hrows. apply Hrows. by eapply index_elem. }
  split.
  - by rewrite (set_index_length _ _ _ _ Hplace).
  - by eapply set_index_Forall.
Qed.

Lemma place_all_shaped h w cfg : forall grid grid',
  Maze.shaped h w grid ->
  Maze.place_all world address_keys grid cfg = Some grid' ->
  Maze.shaped h w grid'.
Proof.
  induction cfg as [|tc cfg IH]; intros grid grid' Hs; cbn [Maze.place_all].
  - by intros [= <-].
  - destruct (Maze.place world address_keys grid tc) as [g1|] eqn:Hp;
      [|discriminate].
    cbn [mbind option_bind]. apply IH. by eapply place_shaped.
Qed.

(** A tile placed at a coordinate of the grid lands there, and the
    placement cannot fail. *)
Lemma place_on_grid h w grid tc :
  Maze.shaped h w grid -> Maze.placed grid ->
  0 <= (Maze.tc_coord tc).1 < w -> 0 <= (Maze.tc_coord tc).2 < h ->
  exists grid', Maze.place world address_keys grid tc = Some grid' /\
                Maze.placed grid'.
Proof.
  intros [Hh Hrows] Hpl Hx Hy. unfold Maze.place.
  destruct (lookup_lt_is_Some_2 grid (Z.to_nat (Maze.tc_coord tc).2))
    as [row Hrow]; [lia|].
  assert (Z.of_nat (length row) = w) as Hlen.
  { rewrite Forall_forall in Hrows. apply Hrows. by eapply list_elem_of_lookup_2. }
  rewrite index_nonneg by lia. rewrite Hrow. cbn [mbind option_bind].
  rewrite set_index_nonneg by lia. cbn [mbind option_bind].
  rewrite set_index_nonneg by lia. eexists. split; [reflexivity|].
  intros x y row0 tile Hrow0 Htile.
  destruct (decide (y = Z.to_nat (Maze.tc_coord tc).2)) as [->|Hney].
  - rewrite list_lookup_insert_eq in Hrow0 by lia. injection Hrow0 as <-.
    destruct (decide (x = Z.to_nat (Maze.tc_coord tc).1)) as [->|Hnex].
    + rewrite list_lookup_insert_eq in Htile by lia. injection Htile as <-.
      rewrite tile_init_coord. destruct (Maze.tc_coord tc) as [cx cy].
      simpl in *. f_equal; lia.
    + rewrite list_lookup_insert_ne in Htile by done. by apply (Hpl x _ row).
  - rewrite list_lookup_insert_ne in Hrow0 by done. by apply (Hpl x y row0).
Qed.

Lemma place_all_on_grid h w cfg : forall grid,
  Maze.shaped h w grid -> Maze.placed grid ->
  Forall (fun tc => 0 <= (Maze.tc_coord tc).1 < w /\
                    0 <= (Maze.tc_coord tc).2 < h) cfg ->
  exists grid', Maze.place_all world address_keys grid cfg = Some grid' /\
                Maze.placed grid'.
Proof.
  induction cfg as [|tc cfg IH]; intros grid Hs Hpl Hcfg; cbn [Maze.place_all].
  - by exists grid.
  - apply Forall_cons in Hcfg as [[Hx Hy] Hcfg].
    destruct (place_on_grid h w grid tc Hs Hpl Hx Hy) as (g1 & Hp & Hpl1).
    rewrite Hp. cbn [mbind option_bind].
    apply IH; [by eapply place_shaped|done|done].
Qed.
End maze_init.

(** X30. The grid [Maze.__init__] builds is well formed: whenever the
    constructor returns, the maze has [height] rows of [width] tiles,
    wherever the configured tiles landed; and when every configured
    coordinate lies on the grid the constructor does return, and each
    tile of the grid carries the coordinate it is stored at. *)
Theorem init_well_formed (height width : Z) (world : string)
    (address_keys : list string) (cfg : list Maze.tile_config)
    (Hh : 0 <= height) (Hw : 0 <= width) :
  (forall m, Maze.init height width world address_keys cfg = Some m ->
     Maze.well_formed m /\ Maze.maze_height m = height /\
     Maze.maze_width m = width) /\
  (Forall (fun tc => 0 <= (Maze.tc_coord tc).1 < width /\
                     0 <= (Maze.tc_coord tc).2 < height) cfg ->
   exists m, Maze.init height width world address_keys cfg = Some m /\
     forall c, Maze.on_grid m c ->
       exists tile, Maze.tile_at m c = Some tile /\ Tile.coord tile = c).
Proof.
  pose proof (blank_shaped world address_keys height width Hh Hw) as Hs0.
  pose proof (blank_placed world address_keys height width) as Hp0.
  assert (forall m, Maze.init height width world address_keys cfg = Some m ->
            Maze.well_formed m /\ Maze.maze_height m = height /\
            Maze.maze_width m = width) as Hwf.
  { intros m Hinit. unfold Maze.init in Hinit.
    destruct (Maze.place_all _ _ _ cfg) as [grid|] eqn:Hall; [|discriminate Hinit].
    injection Hinit as <-. split; [|done].
    exact (place_all_shaped world address_keys height width cfg _ grid Hs0 Hall). }
  split; [exact Hwf|]. intros Hcfg.
  destruct (place_all_on_grid world address_keys height width cfg _ Hs0 Hp0 Hcfg)
    as (grid & Hall & Hpl).
  set (m := {| Maze.maze_height := height; Maze.maze_width := width;
               Maze.tiles := grid |}).
  assert (Maze.init height width world address_keys cfg = Some m) as Hinit
    by (unfold Maze.init; by rewrite Hall).
  exists m. split; [exact Hinit|]. intros c Hc.
  destruct (Hwf m Hinit) as (Hwfm & _ & _).
  destruct (tile_at_on_grid m Hwfm c Hc) as [tile Htile]. exists tile.
  split; [exact Htile|]. destruct Hc as [Hx Hy]. unfold Maze.tile_at in Htile.
  destruct Hwfm as [Hlen Hrows]. cbn [Maze.tiles Maze.maze_height Maze.maze_width m] in *.
  rewrite index_nonneg in Htile by lia.
  destruct (grid !! Z.to_nat c.2) as [row|] eqn:Hrow; [|discriminate Htile].
  cbn [mbind option_bind] in Htile.
  assert (Z.of_nat (length row) = width) as Hrl.
  { rewrite Forall_forall in Hrows. apply Hrows. by eapply list_elem_of_lookup_2. }
  rewrite index_nonneg in Htile by lia.
  rewrite (Hpl _ _ row tile Hrow Htile). destruct c as [cx cy]. simpl in *.
  f_equal; lia.
Qed.

Lemma init_well_formed_witness :
  (forall m, Maze.init 3 4 "town" address_keys small_config = Some m ->
     Maze.well_formed m /\ Maze.maze_height m = 3 /\ Maze.maze_width m = 4) /\
  (Forall (fun tc => 0 <= (Maze.tc_coord tc).1 < 4 /\
                     0 <= (Maze.tc_coord tc).2 < 3) small_config ->
   exists m, Maze.init 3 4 "town" address_keys small_config = Some m /\
     forall c, Maze.on_grid m c ->
       exists tile, Maze.tile_at m c = Some tile /\ Tile.coord tile = c).
Proof.
  apply (init_well_formed 3 4 "town" address_keys small_config); lia.
Defined.
